(** * github_clone_all_repos.py: a shallow embedding and its properties

    The script lists the repositories of a GitHub account page by page
    ([get_public_repos]), and clones each of them with the [git] executable
    from a pool of worker threads ([clone_repos] / [clone_repo] /
    [run_git_clone]).

    Everything outside the process (the GitHub API, the file system, the
    [git] executable) is reached through the operations of the class
    [Collaborators]; every call the program makes to one of them is
    appended to a trace, so that statements about "how many attempts" or
    "what happened before what" are statements about that trace.

    Sequential code is embedded as state-passing functions on [World];
    the recursion of [get_public_repos] is bounded by the number of
    nested calls the interpreter allows; the thread pool of
    [clone_repos] is a step relation whose steps are runs of consecutive
    statements of the main thread or of a worker. *)

From Stdlib Require Import ZArith Lia Ascii.
From Stdlib Require String.
From stdpp Require Import base tactics option list strings pretty relations.

(** ** Python strings

    A [str] is written as the bytes of its UTF-8 encoding, which is what
    a string of this file holds. *)

Module PyStr.

(** [s.split(sep)] for a one-character separator: the pieces between
    the occurrences of [sep]; never the empty list. *)
Fixpoint split (sep : ascii) (s : string) : list string :=
  match s with
  | EmptyString => [EmptyString]
  | String c s' =>
      if Ascii.eqb c sep then EmptyString :: split sep s'
      else match split sep s' with
           | [] => [String c EmptyString]
           | x :: xs => String c x :: xs
           end
  end.

(** [l[-1]] on a list of strings known to be non-empty. *)
Definition last_item (l : list string) : string := default EmptyString (last l).

(** [s.replace(old, new)]: every non-overlapping occurrence of [old],
    found from left to right, is replaced.  [skip] counts the characters
    of an occurrence that are still to be dropped. *)
Fixpoint replace_go (old new : string) (skip : nat) (s : string) : string :=
  match s with
  | EmptyString => EmptyString
  | String c s' =>
      match skip with
      | S k => replace_go old new k s'
      | O =>
          if String.prefix old s
          then new +:+ replace_go old new (String.length old - 1) s'
          else String c (replace_go old new 0 s')
      end
  end.

Fixpoint intersperse (new : string) (s : string) : string :=
  match s with
  | EmptyString => new
  | String c s' => new +:+ String c (intersperse new s')
  end.

Definition replace (old new s : string) : string :=
  match old with
  | EmptyString => intersperse new s
  | _ => replace_go old new 0 s
  end.

(** [s.removesuffix(suffix)]: [s] without [suffix] when it ends with it. *)
Definition removesuffix (suffix s : string) : string :=
  if String.prefix (String.rev suffix) (String.rev s)
  then String.substring 0 (String.length s - String.length suffix) s
  else s.

(** The characters [s.strip()] removes, those for which [str.isspace]
    holds, each as the bytes of its encoding: U+0009 to U+000D, U+001C
    to U+0020, U+0085, U+00A0, U+1680, U+2000 to U+200A, U+2028, U+2029,
    U+202F, U+205F and U+3000. *)
Definition of_bytes (l : list nat) : string :=
  String.string_of_list_ascii (ascii_of_nat <$> l).

Definition whitespace : list string :=
  of_bytes <$>
    [[9]; [10]; [11]; [12]; [13]; [28]; [29]; [30]; [31]; [32];
     [194; 133]; [194; 160]; [225; 154; 128];
     [226; 128; 128]; [226; 128; 129]; [226; 128; 130]; [226; 128; 131];
     [226; 128; 132]; [226; 128; 133]; [226; 128; 134]; [226; 128; 135];
     [226; 128; 136]; [226; 128; 137]; [226; 128; 138];
     [226; 128; 168]; [226; 128; 169]; [226; 128; 175];
     [226; 129; 159]; [227; 128; 128]].

(** [s] without its prefix [p], when it starts with [p]; [s] without
    the first of [pats] it starts with. *)
Fixpoint drop_prefix (p s : string) : option string :=
  match p with
  | EmptyString => Some s
  | String a p' =>
      match s with
      | EmptyString => None
      | String b s' => if Ascii.eqb a b then drop_prefix p' s' else None
      end
  end.

Fixpoint drop_first (pats : list string) (s : string) : option string :=
  match pats with
  | [] => None
  | p :: pats' =>
      match drop_prefix p s with
      | Some s' => Some s'
      | None => drop_first pats' s
      end
  end.

(** [s] without the run of [pats] it starts with; [n] bounds the length
    of the run, and the length of [s] is enough. *)
Fixpoint strip_left (n : nat) (pats : list string) (s : string) : string :=
  match n with
  | O => s
  | S n' =>
      match drop_first pats s with
      | Some s' => strip_left n' pats s'
      | None => s
      end
  end.

Definition lstrip_with (pats : list string) (s : string) : string :=
  strip_left (String.length s) pats s.

(** [s.lstrip()], [s.rstrip()] and [s.strip()]: at the end of [s] the
    characters are looked for in the reverse of [s], their bytes
    reversed. *)
Definition lstrip (s : string) : string := lstrip_with whitespace s.

Definition rstrip (s : string) : string :=
  String.rev (lstrip_with (String.rev <$> whitespace) (String.rev s)).

Definition strip (s : string) : string := rstrip (lstrip s).

(** Truth value of a string, and of an optional string: [None] and the
    empty string are false. *)
Definition truthy (s : string) : bool :=
  match s with EmptyString => false | _ => true end.

Definition truthy_opt (o : option string) : bool :=
  match o with Some s => truthy s | None => false end.

(** [f"{n}"] for an [int]. *)
Definition of_int (n : Z) : string := pretty n.


(** [sub in s] *)
Fixpoint contains (sub s : string) : bool :=
  String.prefix sub s
  || match s with
     | EmptyString => false
     | String _ s' => contains sub s'
     end.

(** [s] is made of strings of [pats], one after the other; of white
    space only. *)
Inductive made_of (pats : list string) : string → Prop :=
| made_of_nil : made_of pats EmptyString
| made_of_cons p s : p ∈ pats → made_of pats s → made_of pats (p +:+ s).

Definition spaces (s : string) : Prop := made_of whitespace s.

(** [s] starts, or ends, with a white space character. *)
Definition starts_with_space (s : string) : bool :=
  match drop_first whitespace s with Some _ => true | None => false end.

Definition ends_with_space (s : string) : bool :=
  match drop_first (String.rev <$> whitespace) (String.rev s) with
  | Some _ => true
  | None => false
  end.

End PyStr.

(** ** Exceptions, results and the collaborators *)

(** The exceptions the script raises or lets through.  [OtherError]
    stands for the exceptions of the libraries ([requests], [json],
    [os]) that the script never inspects. *)
Inductive exn : Type :=
| CalledProcessError (cmd : string) (returncode : Z)
| RuntimeError (msg : string)
| FileExistsError (msg : string)
| FileNotFoundError (msg : string)
| ValueError (msg : string)
| RecursionError
| OtherError (descr : string).

Inductive result (A : Type) : Type :=
| Ok (a : A)
| Raised (e : exn).
Arguments Ok {A} a.
Arguments Raised {A} e.

(** One object of the JSON array the listing endpoint answers with: the
    three keys the script reads, with the types the endpoint documents. *)
Record Repo : Type := {
  clone_url : string;
  fork : bool;
  private : bool
}.

(** What the script reads of a [requests.Response].

    [json] is what the script gets out of [response.json()].  It is
    [Ok l] when the call returns a value that the comprehensions iterate
    into the objects [l]: an array of repository objects, and also the
    empty array, the empty object and the empty string, which all
    iterate to nothing, so that [l] is empty for them.  It is [Raised e]
    when [response.json()] raises [e], the body being no JSON text, and
    when a comprehension raises [e] on the value returned: [TypeError]
    for [null], a number, a boolean, and an object or a string that is
    not empty; [KeyError] for an object of the array without a key that
    is read.

    [status_code] is carried along; the script never reads it.  [links]
    is [response.links] as pairs of a relation name and its url. *)
Record Response : Type := {
  status_code : Z;
  json : result (list Repo);
  links : list (string * string)
}.

(** The lines the script prints:
    [f"Cloning {repo}..."], [f"Error cloning {repo_name}: {e}"] and
    [f"{repo_name} generated an exception: {exc}"]. *)
Inductive output : Type :=
| OutCloning (repo : string)
| OutErrorCloning (repo_name : string) (e : exn)
| OutGenerated (repo : string) (exc : exn).

(** A call to a collaborator, with what it answered. *)
Inductive event : Type :=
| EvGet (url : string) (headers : list (string * string)) (r : result Response)
| EvPathExists (path : string) (b : bool)
| EvReadline (path : string) (r : result string)
| EvMakedirs (path : string) (r : result unit)
| EvShell (command : string) (returncode : Z)
| EvSleep (seconds : Z)
| EvPrint (o : output).

(** The world outside the process, of some type [Env], and the library
    calls that reach it. *)
Class Collaborators (Env : Type) : Type := {
  (** [requests.get(url, headers=headers)] *)
  requests_get : string → list (string * string) → Env → result Response * Env;
  (** the exit status of [subprocess.run(command, shell=True)] *)
  shell_run : string → Env → Z * Env;
  (** [os.path.exists(path)] *)
  path_exists : string → Env → bool;
  (** [os.makedirs(path, exist_ok=True)] *)
  makedirs : string → Env → result unit * Env;
  (** [open(path, "r").readline()] *)
  readline : string → Env → result string;
  (** [os.name] and [os.path.join] of the platform *)
  os_name : string;
  path_join : string → string → string;
  (** [os.getenv("GH_TOKEN", None)], read once when the module is loaded *)
  DEFAULT_TOKEN : option string;
  (** the number of calls of [get_public_repos], one inside the other,
      that the interpreter lets [main] make: what its recursion limit
      leaves once the frames under [main] and those a request needs are
      taken off *)
  recursion_depth : nat
}.

Record World (Env : Type) : Type := mkWorld {
  env : Env;
  trace : list event
}.
Arguments mkWorld {Env} env trace.
Arguments env {Env} w.
Arguments trace {Env} w.

Section Program.

Context {Env : Type} `{Collaborators Env}.

Definition log (ev : event) (w : World Env) : World Env :=
  mkWorld (env w) (trace w ++ [ev]).

Definition print (o : output) (w : World Env) : World Env := log (EvPrint o) w.

Definition time_sleep (seconds : Z) (w : World Env) : World Env :=
  log (EvSleep seconds) w.

Definition os_path_exists (path : string) (w : World Env) : bool * World Env :=
  let b := path_exists path (env w) in (b, log (EvPathExists path b) w).

Definition os_makedirs (path : string) (w : World Env) : result unit * World Env :=
  let '(r, env') := makedirs path (env w) in
  (r, mkWorld env' (trace w ++ [EvMakedirs path r])).

Definition open_readline (path : string) (w : World Env) : result string * World Env :=
  let r := readline path (env w) in (r, log (EvReadline path r) w).

Definition requests_get_w (url : string) (headers : list (string * string))
    (w : World Env) : result Response * World Env :=
  let '(r, env') := requests_get url headers (env w) in
  (r, mkWorld env' (trace w ++ [EvGet url headers r])).

(** [subprocess.run(command, shell=True, check=True)]: the completed
    process with its return code, or [CalledProcessError] when the exit
    status is not zero. *)
Definition subprocess_run_check (command : string) (w : World Env)
    : result Z * World Env :=
  let '(rc, env') := shell_run command (env w) in
  let w' := mkWorld env' (trace w ++ [EvShell command rc]) in
  if (rc =? 0)%Z then (Ok rc, w') else (Raised (CalledProcessError command rc), w').

(** ** check_git_installed *)

Definition check_git_installed (w : World Env) : result unit * World Env :=
  match subprocess_run_check "git --version" w with
  | (Ok _, w1) => (Ok tt, w1)
  | (Raised (CalledProcessError _ _), w1) =>
      (Raised (RuntimeError
         "Unable to find or run git. Please check installation or/and permissions."),
       w1)
  | (Raised e, w1) => (Raised e, w1)
  end.

(** ** get_public_repos *)

Definition first_page_url (username : string) : string :=
  "https://api.github.com/users/" +:+ username +:+ "/repos".

Definition auth_headers (pat_token : option string) : list (string * string) :=
  match pat_token with
  | Some t => if PyStr.truthy t then [("Authorization", "token " +:+ t)] else []
  | None => []
  end.

(** [response.links[rel]['url']], [None] when [rel not in response.links]. *)
Fixpoint links_lookup (rel : string) (l : list (string * string)) : option string :=
  match l with
  | [] => None
  | (k, url) :: l' => if String.eqb k rel then Some url else links_lookup rel l'
  end.

(** The three comprehensions of [get_public_repos] on one page. *)
Definition page_repo_urls (pat_token : option string) (response_json : list Repo)
    : list string :=
  let repos := filter (λ repo, fork repo = false) response_json in
  let repos :=
    match pat_token with
    | None => filter (λ repo, private repo = false) repos
    | Some _ => repos
    end in
  clone_url <$> repos.

(** The recursion follows the [next] links for as long as the server
    sends them, one call inside the other, a page each.  [depth] is the
    number of such calls the interpreter still allows: a call that would
    go beyond it raises [RecursionError] in place of its request. *)
Fixpoint get_public_repos (depth : nat) (username : string)
    (pat_token : option string) (page_url : option string) (w : World Env)
    : result (list string) * World Env :=
  match depth with
  | O => (Raised RecursionError, w)
  | S depth' =>
      let headers := auth_headers pat_token in
      let url :=
        match page_url with
        | None => first_page_url username
        | Some u => u
        end in
      match requests_get_w url headers w with
      | (Raised e, w1) => (Raised e, w1)
      | (Ok response, w1) =>
          match json response with
          | Raised e => (Raised e, w1)
          | Ok response_json =>
              let repo_urls := page_repo_urls pat_token response_json in
              match links_lookup "next" (links response) with
              | Some next_page_url =>
                  match get_public_repos depth' username pat_token
                          (Some next_page_url) w1 with
                  | (Raised e, w2) => (Raised e, w2)
                  | (Ok more, w2) => (Ok (repo_urls ++ more), w2)
                  end
              | None => (Ok repo_urls, w1)
              end
          end
      end
  end.

(** ** run_git_clone and clone_repo *)

Definition null_device : string :=
  if String.eqb os_name "nt" then "nul" else "/dev/null".

Definition clone_command (repo directory repo_name : string) : string :=
  ("git clone " +:+ repo +:+ " " +:+ path_join directory repo_name +:+ "/")
  +:+ (" > " +:+ null_device +:+ " 2>&1").

Definition clone_failed_msg (repo_name : string) (max_retries : Z) : string :=
  "Failed to clone " +:+ repo_name +:+ " after "
  +:+ PyStr.of_int max_retries +:+ " retries".

(** What one evaluation of the loop test and, when it holds, of the loop
    body leads to. *)
Inductive loop_ctl : Type :=
| Continue (max_retries : Z)
| Return
| Raise (e : exn).

Definition run_git_clone_iter (repo directory repo_name : string)
    (max_retries : Z) (w : World Env) : loop_ctl * World Env :=
  if (0 <? max_retries)%Z then
    let command := clone_command repo directory repo_name in
    match subprocess_run_check command w with
    | (Ok returncode, w1) =>
        if (returncode =? 0)%Z then (Return, w1) else (Continue max_retries, w1)
    | (Raised e, w1) =>
        let w2 := print (OutErrorCloning repo_name e) w1 in
        (Continue (max_retries - 1), time_sleep 5 w2)
    end
  else (Raise (RuntimeError (clone_failed_msg repo_name max_retries)), w).

(** The [while] loop, at most [fuel] iterations of it. *)
Fixpoint run_git_clone (fuel : nat) (repo directory repo_name : string)
    (max_retries : Z) (w : World Env) : option (result unit * World Env) :=
  match fuel with
  | O => None
  | S fuel' =>
      match run_git_clone_iter repo directory repo_name max_retries w with
      | (Return, w') => Some (Ok tt, w')
      | (Raise e, w') => Some (Raised e, w')
      | (Continue max_retries', w') =>
          run_git_clone fuel' repo directory repo_name max_retries' w'
      end
  end.

(** [repo.split("/")[-1].replace(".git", "")] *)
Definition repo_name_of (repo : string) : string :=
  PyStr.replace ".git" EmptyString (PyStr.last_item (PyStr.split "/" repo)).

(** The default of the parameter [max_retries] of [run_git_clone]. *)
Definition default_max_retries : Z := 5.

Definition clone_repo (fuel : nat) (repo directory : string) (w : World Env)
    : option (result string * World Env) :=
  let w1 := print (OutCloning repo) w in
  let repo_name := repo_name_of repo in
  match run_git_clone fuel repo directory repo_name default_max_retries w1 with
  | None => None
  | Some (Raised e, w2) => Some (Raised e, w2)
  | Some (Ok _, w2) => Some (Ok repo_name, w2)
  end.

(** ** The token of main *)

Definition load_token (token : option string) (w : World Env)
    : result (option string) * World Env :=
  if PyStr.truthy_opt token then
    match token with
    | Some t =>
        if String.eqb t "#ENV" then (Ok DEFAULT_TOKEN, w)
        else
          let '(found, w1) := os_path_exists t w in
          if negb found
          then (Raised (FileNotFoundError ("Could not find file " +:+ t +:+ ".")), w1)
          else
            match open_readline t w1 with
            | (Raised e, w2) => (Raised e, w2)
            | (Ok line, w2) => (Ok (Some (PyStr.strip line)), w2)
            end
    | None => (Ok token, w)
    end
  else (Ok token, w).

(** ** clone_repos and main: the threads *)

(** The arguments of [main] and of [clone_repos]. *)
Record Config : Type := mkConfig {
  directory : string;
  show_progress : bool;
  n_threads : Z
}.

(** The statements of [clone_repos] before the pool exists: the
    directory test, [os.makedirs], and the constructor of
    [ThreadPoolExecutor], which refuses [max_workers <= 0]. *)
Definition clone_repos_enter (cfg : Config) (w : World Env) : result unit * World Env :=
  let '(found, w1) := os_path_exists (directory cfg) w in
  if found
  then (Raised (FileExistsError ("Directory " +:+ directory cfg +:+ " already exists.")), w1)
  else
    match os_makedirs (directory cfg) w1 with
    | (Raised e, w2) => (Raised e, w2)
    | (Ok _, w2) =>
        if (n_threads cfg <=? 0)%Z
        then (Raised (ValueError "max_workers must be greater than 0"), w2)
        else (Ok tt, w2)
    end.

(** The statements of [main] before the call of [clone_repos]. *)
Definition main_listing (username : string) (token : option string)
    (w : World Env) : result (list string) * World Env :=
  match load_token token w with
  | (Raised e, w1) => (Raised e, w1)
  | (Ok token', w1) => get_public_repos recursion_depth username token' None w1
  end.

(** A [Future]: pending or running, or finished with the value or the
    exception of its call of [clone_repo]. *)
Inductive future_state : Type :=
| Pending
| Finished (r : result string).

(** A thread of the pool: waiting for a work item, at the start of
    [clone_repo], or at the head of the loop of [run_git_clone]. *)
Inductive worker : Type :=
| WIdle
| WCloneRepo (fut : nat) (repo dir : string)
| WRunGitClone (fut : nat) (repo dir repo_name : string) (max_retries : Z).

(** The main thread: at the start of [main], at the start of
    [clone_repos], in its first loop with the repositories still to
    submit, in its second loop with the futures [as_completed] has not
    yielded yet, returned, or stopped by an exception. *)
Inductive main_pc : Type :=
| MMain (username : string) (cfg : Config) (token : option string)
| MCloneRepos (repos : list string) (cfg : Config)
| MSubmit (todo : list string) (cfg : Config)
| MAwait (pending : list nat)
| MDone
| MRaised (e : exn).

(** [st_futures] is [future_to_repo] in insertion order, each future with
    its state; [st_queue] is the work queue of the executor, each item a
    future with the arguments of its call; [st_workers] are the threads
    the executor has started. *)
Record state : Type := mkState {
  st_world : World Env;
  st_main : main_pc;
  st_futures : list (string * future_state);
  st_queue : list (nat * string * string);
  st_workers : list worker;
  st_max_workers : Z
}.

Definition set_result (r : result string) (fs : string * future_state)
    : string * future_state := (fs.1, Finished r).

(** [executor.submit]'s [_adjust_thread_count]: a thread is started
    only while fewer than [max_workers] exist, and one is started when
    none exists.  Whether one is started when some exist depends on the
    executor's count of idle threads, which the versions of the library
    keep differently: both outcomes are steps here. *)
Inductive adjust_thread_count (max_workers : Z) (ws : list worker)
  : list worker → Prop :=
| adjust_start :
    (Z.of_nat (length ws) < max_workers)%Z →
    adjust_thread_count max_workers ws (ws ++ [WIdle])
| adjust_keep :
    ws ≠ [] →
    adjust_thread_count max_workers ws ws.

(** One step is a run of consecutive statements of one thread, taken
    as a whole: the statements of [main] up to the call of
    [clone_repos]; those of [clone_repos] up to its first loop; one
    round of the first loop, [submit] with the pause after it; one round
    of the second loop; the first line of [clone_repo]; one round of the
    loop of [run_git_clone], the command with the line and the pause
    that follow a failure.  The threads interleave between the steps.
    The states in between are those of the rounds, not of every
    statement: what is stated of all reachable states below are bounds,
    orders and what has happened once, and the exact counts are stated
    of the runs that have ended. *)
Inductive step : state → state → Prop :=
(* main thread *)
| step_main_raised w username cfg token e w' :
    main_listing username token w = (Raised e, w') →
    step (mkState w (MMain username cfg token) [] [] [] 0)
         (mkState w' (MRaised e) [] [] [] 0)
| step_main_listed w username cfg token repos w' :
    main_listing username token w = (Ok repos, w') →
    step (mkState w (MMain username cfg token) [] [] [] 0)
         (mkState w' (MCloneRepos repos cfg) [] [] [] 0)
| step_enter_raised w repos cfg e w' :
    clone_repos_enter cfg w = (Raised e, w') →
    step (mkState w (MCloneRepos repos cfg) [] [] [] 0)
         (mkState w' (MRaised e) [] [] [] 0)
| step_enter w repos cfg w' :
    clone_repos_enter cfg w = (Ok tt, w') →
    step (mkState w (MCloneRepos repos cfg) [] [] [] 0)
         (mkState w' (MSubmit repos cfg) [] [] [] (n_threads cfg))
| step_submit w repo todo cfg futs q ws mx ws' :
    adjust_thread_count mx ws ws' →
    step (mkState w (MSubmit (repo :: todo) cfg) futs q ws mx)
         (mkState (time_sleep 1 w) (MSubmit todo cfg)
            (futs ++ [(repo, Pending)])
            (q ++ [(length futs, repo, directory cfg)]) ws' mx)
| step_submitted w cfg futs q ws mx :
    step (mkState w (MSubmit [] cfg) futs q ws mx)
         (mkState w (MAwait (seq 0 (length futs))) futs q ws mx)
| step_yield_ok w p1 fut p2 futs q ws mx repo a :
    futs !! fut = Some (repo, Finished (Ok a)) →
    step (mkState w (MAwait (p1 ++ fut :: p2)) futs q ws mx)
         (mkState w (MAwait (p1 ++ p2)) futs q ws mx)
| step_yield_raised w p1 fut p2 futs q ws mx repo exc :
    futs !! fut = Some (repo, Finished (Raised exc)) →
    step (mkState w (MAwait (p1 ++ fut :: p2)) futs q ws mx)
         (mkState (print (OutGenerated repo exc) w) (MAwait (p1 ++ p2))
            futs q ws mx)
| step_exit w futs ws mx :
    (* the end of the [with] block joins the threads: none is in a call,
       no work item is left *)
    Forall (λ wk, wk = WIdle) ws →
    step (mkState w (MAwait []) futs [] ws mx)
         (mkState w MDone futs [] ws mx)
(* worker threads *)
| step_take w pc futs fut repo dir q ws mx i :
    ws !! i = Some WIdle →
    step (mkState w pc futs ((fut, repo, dir) :: q) ws mx)
         (mkState w pc futs q (<[i := WCloneRepo fut repo dir]> ws) mx)
| step_clone_repo w pc futs q ws mx i fut repo dir :
    ws !! i = Some (WCloneRepo fut repo dir) →
    step (mkState w pc futs q ws mx)
         (mkState (print (OutCloning repo) w) pc futs q
            (<[i := WRunGitClone fut repo dir (repo_name_of repo) default_max_retries]> ws)
            mx)
| step_iter_continue w pc futs q ws mx i fut repo dir repo_name m m' w' :
    ws !! i = Some (WRunGitClone fut repo dir repo_name m) →
    run_git_clone_iter repo dir repo_name m w = (Continue m', w') →
    step (mkState w pc futs q ws mx)
         (mkState w' pc futs q (<[i := WRunGitClone fut repo dir repo_name m']> ws) mx)
| step_iter_return w pc futs q ws mx i fut repo dir repo_name m w' :
    ws !! i = Some (WRunGitClone fut repo dir repo_name m) →
    run_git_clone_iter repo dir repo_name m w = (Return, w') →
    step (mkState w pc futs q ws mx)
         (mkState w' pc (alter (set_result (Ok repo_name)) fut futs) q
            (<[i := WIdle]> ws) mx)
| step_iter_raise w pc futs q ws mx i fut repo dir repo_name m e w' :
    ws !! i = Some (WRunGitClone fut repo dir repo_name m) →
    run_git_clone_iter repo dir repo_name m w = (Raise e, w') →
    step (mkState w pc futs q ws mx)
         (mkState w' pc (alter (set_result (Raised e)) fut futs) q
            (<[i := WIdle]> ws) mx).

Definition main_init (username : string) (cfg : Config) (token : option string)
    (w : World Env) : state :=
  mkState w (MMain username cfg token) [] [] [] 0.

Definition clone_repos_init (repos : list string) (cfg : Config) (w : World Env)
    : state :=
  mkState w (MCloneRepos repos cfg) [] [] [] 0.

(** The threads that are inside a call of [clone_repo]. *)
Definition busy (wk : worker) : bool :=
  match wk with WIdle => false | _ => true end.

Definition running (s : state) : nat := length (filter (λ wk, busy wk = true) (st_workers s)).

(** The clone attempts and the listing requests of a trace. *)
Definition is_shell (ev : event) : bool :=
  match ev with EvShell _ _ => true | _ => false end.

Definition is_get (ev : event) : bool :=
  match ev with EvGet _ _ _ => true | _ => false end.

Definition is_sleep (ev : event) : bool :=
  match ev with EvSleep _ => true | _ => false end.

Definition attempts (tr : list event) : list event := filter (λ ev, is_shell ev = true) tr.

Definition pauses (tr : list event) : list event := filter (λ ev, is_sleep ev = true) tr.

Definition requests (tr : list event) : list event := filter (λ ev, is_get ev = true) tr.

(** ** Vocabulary of the statements *)

(** The events one failed attempt of [run_git_clone] leaves. *)
Definition failed_attempt (command repo_name : string) (rc : Z) : list event :=
  [EvShell command rc;
   EvPrint (OutErrorCloning repo_name (CalledProcessError command rc));
   EvSleep 5].


(** The array a response carries, empty when it carries none. *)
Definition body (r : Response) : list Repo :=
  match json r with
  | Ok l => l
  | Raised _ => []
  end.

(** The repository objects received by the requests of a trace. *)
Definition received (ev : event) : list Repo :=
  match ev with
  | EvGet _ _ (Ok r) => body r
  | _ => []
  end.

Definition fetched (tr : list event) : list Repo := tr ≫= received.







(** The name of the local copy as the specification words it: the final
    path segment of the url, without a trailing [.git]. *)
Definition spec_repo_name (repo : string) : string :=
  PyStr.removesuffix ".git" (PyStr.last_item (PyStr.split "/" repo)).


(** The states of a run. *)
Definition reachable (s0 s : state) : Prop := rtc step s0 s.

(** The future a thread is working for, and where the futures that are
    not finished are to be found. *)
Definition fut_of (wk : worker) : option nat :=
  match wk with
  | WIdle => None
  | WCloneRepo fut _ _ => Some fut
  | WRunGitClone fut _ _ _ _ => Some fut
  end.

Definition queued (s : state) (fut : nat) : Prop :=
  ∃ repo dir, (fut, repo, dir) ∈ st_queue s.

Definition held (s : state) (fut : nat) : Prop :=
  ∃ i wk, st_workers s !! i = Some wk ∧ fut_of wk = Some fut.

Definition finished (s : state) (fut : nat) : Prop :=
  ∃ repo r, st_futures s !! fut = Some (repo, Finished r).

(** The futures of the work items in the queue and of the calls the
    threads are in. *)
Definition owners (s : state) : list nat :=
  (st_queue s).*1.*1 ++ omap fut_of (st_workers s).

(** The lines [clone_repos] prints for the futures that raised. *)
Definition is_generated (ev : event) : bool :=
  match ev with EvPrint (OutGenerated _ _) => true | _ => false end.

Definition generated (tr : list event) : list event :=
  filter (λ ev, is_generated ev = true) tr.

(** A bound on the number of steps [clone_repos] still has to make:
    what is left of the loops of the main thread, of the calls the
    workers are in, and of the calls that wait in the queue. *)
Definition worker_measure (wk : worker) : nat :=
  match wk with
  | WIdle => 0
  | WCloneRepo _ _ _ => 2 + Z.to_nat default_max_retries
  | WRunGitClone _ _ _ _ m => 1 + Z.to_nat m
  end.

Definition item_measure : nat := 3 + Z.to_nat default_max_retries.

Definition main_measure (pc : main_pc) (n_futures : nat) : nat :=
  match pc with
  | MMain _ _ _ => 0
  | MCloneRepos repos _ => 3 + (2 + item_measure) * length repos
  | MSubmit todo _ => 2 + (2 + item_measure) * length todo + n_futures
  | MAwait pending => 1 + length pending
  | MDone => 0
  | MRaised _ => 0
  end.

Definition measure (s : state) : nat :=
  main_measure (st_main s) (length (st_futures s))
  + sum_list_with worker_measure (st_workers s)
  + item_measure * length (st_queue s).

(** What holds of the pool in every state of every run of [clone_repos]. *)
Definition entered (pc : main_pc) : bool :=
  match pc with
  | MSubmit _ _ | MAwait _ | MDone => true
  | _ => false
  end.

Record pool_inv (cfg : Config) (s : state) : Prop := {
  inv_fresh :
    entered (st_main s) = false →
    st_futures s = [] ∧ st_queue s = [] ∧ st_workers s = []
    ∧ st_max_workers s = 0%Z;
  inv_not_main : ∀ username cfg' token, st_main s ≠ MMain username cfg' token;
  inv_cfg : ∀ repos cfg', st_main s = MCloneRepos repos cfg' → cfg' = cfg;
  inv_max_workers :
    entered (st_main s) = true →
    st_max_workers s = n_threads cfg ∧ (0 < n_threads cfg)%Z;
  inv_threads : (Z.of_nat (length (st_workers s)) ≤ Z.max 0 (st_max_workers s))%Z;
  inv_idle : st_futures s ≠ [] → st_workers s ≠ [];
  inv_pending :
    ∀ fut repo, st_futures s !! fut = Some (repo, Pending) → queued s fut ∨ held s fut;
  inv_await :
    ∀ pending fut, st_main s = MAwait pending → fut ∈ pending →
                   fut < length (st_futures s);
  inv_owners : NoDup (owners s);
  inv_owner_pending :
    ∀ fut, fut ∈ owners s → ∃ repo, st_futures s !! fut = Some (repo, Pending);
  inv_yielded :
    ∀ pending fut, st_main s = MAwait pending → fut < length (st_futures s) →
                   fut ∈ pending ∨ finished s fut;
  inv_done :
    st_main s = MDone → st_queue s = [] ∧ Forall (λ wk, wk = WIdle) (st_workers s)
}.

(** What holds in every state of a run of [clone_repos] on [repos] in
    which each clone either fails at every attempt ([fails fut = true]
    for its future) or succeeds at every attempt; [w0] is the world the
    run starts in. *)
Definition expected (fails : nat → bool) (fut : nat) (repo : string) : result string :=
  if fails fut
  then Raised (RuntimeError (clone_failed_msg (repo_name_of repo) 0))
  else Ok (repo_name_of repo).

Definition generated_line (repo : string) : event :=
  EvPrint (OutGenerated repo (RuntimeError (clone_failed_msg (repo_name_of repo) 0))).

(** The lines printed when the futures [l] are yielded in that order. *)
Definition failure_line (repos : list string) (fails : nat → bool) (fut : nat)
    : option event :=
  match repos !! fut with
  | Some repo => if fails fut then Some (generated_line repo) else None
  | None => None
  end.

Definition failure_lines (repos : list string) (fails : nat → bool) (l : list nat)
    : list event :=
  omap (failure_line repos fails) l.

Definition worker_ok (repos : list string) (cfg : Config) (fails : nat → bool)
    (wk : worker) : Prop :=
  match wk with
  | WIdle => True
  | WCloneRepo fut repo dir => repos !! fut = Some repo ∧ dir = directory cfg
  | WRunGitClone fut repo dir repo_name m =>
      repos !! fut = Some repo ∧ dir = directory cfg ∧ repo_name = repo_name_of repo
      ∧ (0 ≤ m)%Z ∧ (fails fut = false → 0 < m)%Z
  end.

Definition main_ok (repos : list string) (cfg : Config) (fails : nat → bool)
    (w0 : World Env) (s : state) : Prop :=
  match st_main s with
  | MCloneRepos repos' cfg' =>
      repos' = repos ∧ cfg' = cfg ∧ st_world s = w0
  | MSubmit todo cfg' =>
      cfg' = cfg ∧ (st_futures s).*1 ++ todo = repos
      ∧ generated (trace (st_world s)) = generated (trace w0)
  | MAwait pending =>
      (st_futures s).*1 = repos
      ∧ ∃ yielded,
          yielded ++ pending ≡ₚ seq 0 (length repos)
          ∧ generated (trace (st_world s))
            = generated (trace w0) ++ failure_lines repos fails yielded
  | MDone =>
      (st_futures s).*1 = repos
      ∧ ∃ yielded,
          yielded ≡ₚ seq 0 (length repos)
          ∧ generated (trace (st_world s))
            = generated (trace w0) ++ failure_lines repos fails yielded
  | MMain _ _ _ | MRaised _ => False
  end.

Record batch_inv (repos : list string) (cfg : Config) (fails : nat → bool)
    (w0 : World Env) (s : state) : Prop := {
  binv_main : main_ok repos cfg fails w0 s;
  binv_futures :
    ∀ fut repo st, st_futures s !! fut = Some (repo, st) → repos !! fut = Some repo;
  binv_results :
    ∀ fut repo r, st_futures s !! fut = Some (repo, Finished r) →
      r = expected fails fut repo
      ∧ (fails fut = false →
         EvShell (clone_command repo (directory cfg) (repo_name_of repo)) 0
         ∈ trace (st_world s));
  binv_queue :
    ∀ fut repo dir, (fut, repo, dir) ∈ st_queue s →
      repos !! fut = Some repo ∧ dir = directory cfg;
  binv_workers :
    ∀ i wk, st_workers s !! i = Some wk → worker_ok repos cfg fails wk
}.

(** The state in which the main thread has been stopped by an exception
    before the pool was created. *)
Definition raised_state (w : World Env) (e : exn) : state :=
  mkState w (MRaised e) [] [] [] 0.


(** [fails_times command k e e']: run [k] times from the world [e], the
    command exits each time with a status that is not zero, and leaves
    the world in [e']. *)
Inductive fails_times (command : string) : nat → Env → Env → Prop :=
| fails_times_O e : fails_times command 0 e e
| fails_times_S k e rc e1 e' :
    shell_run command e = (rc, e1) →
    rc ≠ 0%Z →
    fails_times command k e1 e' →
    fails_times command (S k) e e'.


(** The futures created so far are those of the repositories submitted
    so far, in their order. *)
Definition submitted (repos : list string) (s : state) : Prop :=
  match st_main s with
  | MMain _ _ _ => False
  | MCloneRepos repos' _ => repos' = repos ∧ st_futures s = []
  | MSubmit todo _ => (st_futures s).*1 ++ todo = repos
  | MAwait _ | MDone => (st_futures s).*1 = repos
  | MRaised _ => st_futures s = []
  end.


(** ** Vocabulary of the further properties *)


(** The requests of a listing that starts at [url]: each is sent to the
    url the answer before it named as [next], all with the same
    headers.  The listing came to its end ([true]) when the answer to
    the last request is an error, cannot be read, or names no [next];
    it was cut short ([false]) when no request was sent, or when the
    answer to the last one names a [next]. *)
Inductive chain (headers : list (string * string))
  : string → list event → bool → Prop :=
| chain_cut url : chain headers url [] false
| chain_last url r :
    (∀ resp l, r = Ok resp → json resp = Ok l →
               links_lookup "next" (links resp) = None) →
    chain headers url [EvGet url headers r] true
| chain_next url resp l next evs ended :
    json resp = Ok l →
    links_lookup "next" (links resp) = Some next →
    chain headers next evs ended →
    chain headers url (EvGet url headers (Ok resp) :: evs) ended.

(** Pages whose [next] links never end: a set of urls each of which is
    answered, whatever the world is by then, by a page that links to a
    url of the set. *)
Definition endless (headers : list (string * string)) (P : string → Prop) : Prop :=
  ∀ url e, P url →
    ∃ r l e' next, requests_get url headers e = (Ok r, e') ∧ json r = Ok l
                   ∧ links_lookup "next" (links r) = Some next ∧ P next.

(** The shell commands of a trace, in the order they were run. *)
Definition commands (tr : list event) : list string :=
  omap (λ ev, match ev with EvShell command _ => Some command | _ => None end) tr.

(** The repositories announced by [clone_repo]'s
    [print(f"Cloning {repo}...")]. *)
Definition announced (tr : list event) : list string :=
  omap (λ ev, match ev with EvPrint (OutCloning repo) => Some repo | _ => None end) tr.

Definition count (f : event → bool) (tr : list event) : nat :=
  length (filter (λ ev, f ev = true) tr).

Definition is_pause (seconds : Z) (ev : event) : bool :=
  match ev with EvSleep n => (n =? seconds)%Z | _ => false end.

Definition is_failed_attempt (ev : event) : bool :=
  match ev with EvShell _ rc => negb (rc =? 0)%Z | _ => false end.

Definition is_error_line (ev : event) : bool :=
  match ev with EvPrint (OutErrorCloning _ _) => true | _ => false end.

(** The repositories still to be submitted. *)
Definition todo_of (pc : main_pc) : list string :=
  match pc with
  | MCloneRepos repos _ => repos
  | MSubmit todo _ => todo
  | _ => []
  end.

Definition is_finished (st : future_state) : bool :=
  match st with Finished _ => true | Pending => false end.

(** The repositories whose future is finished, and the one whose
    [run_git_clone] a thread is in. *)
Definition finished_repos (futs : list (string * future_state)) : list string :=
  omap (λ f, if is_finished f.2 then Some f.1 else None) futs.

Definition running_repo (wk : worker) : option string :=
  match wk with WRunGitClone _ repo _ _ _ => Some repo | _ => None end.

(** The attempts the call a thread is in has made, and those it may
    still make. *)
Definition attempts_made (wk : worker) : nat :=
  match wk with
  | WRunGitClone _ _ _ _ m => Z.to_nat (default_max_retries - m)
  | _ => 0
  end.

Definition attempts_left (wk : worker) : nat :=
  match wk with
  | WIdle => 0
  | WCloneRepo _ _ _ => Z.to_nat default_max_retries
  | WRunGitClone _ _ _ _ m => Z.to_nat m
  end.

(** A thread works for a future of its repository, in the directory of
    the run, under the name [clone_repo] computed, and with a counter
    between 0 and the default; once the counter has been decremented the
    command has been run. *)
Definition worker_sound (cfg : Config) (futs : list (string * future_state))
    (evs : list event) (wk : worker) : Prop :=
  match wk with
  | WIdle => True
  | WCloneRepo fut repo dir => futs.*1 !! fut = Some repo ∧ dir = directory cfg
  | WRunGitClone fut repo dir repo_name m =>
      futs.*1 !! fut = Some repo ∧ dir = directory cfg
      ∧ repo_name = repo_name_of repo
      ∧ (0 ≤ m ≤ default_max_retries)%Z
      ∧ ((m < default_max_retries)%Z →
         clone_command repo dir repo_name ∈ commands evs)
  end.

(** What holds in every state of a run of [clone_repos] on [repos],
    whatever [git] does; [evs] are the events of the run so far. *)
Record ledger (repos : list string) (cfg : Config) (s : state) (evs : list event)
    : Prop := {
  led_submitted : submitted repos s;
  led_cfg : ∀ todo cfg', st_main s = MSubmit todo cfg' → cfg' = cfg;
  led_queue :
    ∀ fut repo dir, (fut, repo, dir) ∈ st_queue s →
      (st_futures s).*1 !! fut = Some repo ∧ dir = directory cfg;
  led_workers :
    ∀ i wk, st_workers s !! i = Some wk → worker_sound cfg (st_futures s) evs wk;
  led_commands :
    ∀ command, command ∈ commands evs →
      ∃ repo, repo ∈ (st_futures s).*1
              ∧ command = clone_command repo (directory cfg) (repo_name_of repo);
  led_finished :
    ∀ fut repo r, st_futures s !! fut = Some (repo, Finished r) →
      clone_command repo (directory cfg) (repo_name_of repo) ∈ commands evs;
  led_upper :
    length (commands evs) + sum_list_with attempts_left (st_workers s)
    + Z.to_nat default_max_retries * length (st_queue s)
    + Z.to_nat default_max_retries * length (todo_of (st_main s))
    ≤ Z.to_nat default_max_retries * length repos;
  led_lower :
    length (finished_repos (st_futures s)) + sum_list_with attempts_made (st_workers s)
    ≤ length (commands evs);
  led_pauses : count (is_pause 1) evs = length (st_futures s);
  led_retries :
    count (is_pause 5) evs = count is_failed_attempt evs
    ∧ count is_error_line evs = count is_failed_attempt evs;
  led_announced :
    announced evs
    ≡ₚ finished_repos (st_futures s) ++ omap running_repo (st_workers s)
}.

(** The events that are neither a command, nor a pause, nor a line of
    [clone_repo] or [run_git_clone]. *)
Definition quiet (chunk : list event) : Prop :=
  commands chunk = [] ∧ announced chunk = []
  ∧ count (is_pause 1) chunk = 0 ∧ count (is_pause 5) chunk = 0
  ∧ count is_failed_attempt chunk = 0 ∧ count is_error_line chunk = 0.





(** What [clone_repo] makes of the outcome of [run_git_clone]. *)
Definition named (repo_name : string) (r : result unit) : result string :=
  match r with
  | Ok _ => Ok repo_name
  | Raised e => Raised e
  end.

(** The calls to the file system: [os.path.exists], [os.makedirs] and
    the reading of a file. *)
Definition is_fs (ev : event) : bool :=
  match ev with
  | EvPathExists _ _ | EvMakedirs _ _ | EvReadline _ _ => true
  | _ => false
  end.

Definition fs_calls (tr : list event) : list event :=
  filter (λ ev, is_fs ev = true) tr.

(** The events of [clone_repos] so far, by where the main thread is:
    none before its first statement; after an exception, the test of the
    directory alone, when the directory was there, or followed by the
    call of [os.makedirs]; once the pool exists, the test and the
    creation of the directory, and after them no call to the file
    system. *)
Definition fs_inv (cfg : Config) (s : state) (evs : list event) : Prop :=
  match st_main s with
  | MMain _ _ _ => False
  | MCloneRepos _ _ => evs = []
  | MRaised _ =>
      evs = [EvPathExists (directory cfg) true]
      ∨ ∃ r, evs = [EvPathExists (directory cfg) false; EvMakedirs (directory cfg) r]
  | MSubmit _ _ | MAwait _ | MDone =>
      ∃ rest,
        evs = [EvPathExists (directory cfg) false; EvMakedirs (directory cfg) (Ok tt)]
              ++ rest
        ∧ fs_calls rest = []
  end.

End Program.

Arguments state Env : clear implicits.
Arguments repo_name_of : simpl never.
Arguments clone_command : simpl never.
Arguments clone_failed_msg : simpl never.
Arguments first_page_url : simpl never.

(** ** A simulated platform

    A POSIX system whose file system is the list of the paths that exist,
    with a scripted server and a scripted [git]: the instance the
    examples below are evaluated on. *)

Module Sim.

Record scenario : Type := mkScenario {
  (** the answer of the server at each url; any other url is unreachable *)
  pages : list (string * Response);
  (** the shell commands that exit with status 128; the others exit with 0 *)
  failing : list string;
  (** the first line of the files that can be read *)
  files : list (string * string);
  gh_token : option string
}.

(** [posixpath.join] for two components. *)
Definition posix_join (a b : string) : string :=
  if String.prefix "/" b then b
  else if String.eqb a EmptyString then b
  else if String.prefix "/" (String.rev a) then a +:+ b
  else a +:+ "/" +:+ b.

Fixpoint assoc {A : Type} (k : string) (l : list (string * A)) : option A :=
  match l with
  | [] => None
  | (k', v) :: l' => if String.eqb k' k then Some v else assoc k l'
  end.

Definition mem (k : string) (l : list string) : bool :=
  existsb (String.eqb k) l.

(** CPython starts with a recursion limit of 1000 frames.  The frames
    under [main] and those a request needs inside the library are taken
    off of it; what is left is some 970 calls of [get_public_repos],
    the exact number being that of the interpreter and the libraries at
    hand. *)
Definition nested_calls : nat := 974.

Definition collaborators (sc : scenario) : Collaborators (list string) := {|
  requests_get url _ fs :=
    match assoc url (pages sc) with
    | Some r => (Ok r, fs)
    | None => (Raised (OtherError "ConnectionError"), fs)
    end;
  shell_run command fs := if mem command (failing sc) then (128%Z, fs) else (0%Z, fs);
  path_exists path fs := mem path fs;
  makedirs path fs := (Ok tt, if mem path fs then fs else path :: fs);
  readline path fs :=
    match assoc path (files sc) with
    | Some line => Ok line
    | None => Raised (OtherError "PermissionError")
    end;
  os_name := "posix";
  path_join := posix_join;
  DEFAULT_TOKEN := gh_token sc;
  recursion_depth := nested_calls
|}.

Definition world0 (fs : list string) : World (list string) := mkWorld fs [].

(** A platform on which the world is the number of commands run so far
    and the first [k] of them fail: a [git] that needs [k + 1] attempts. *)
Definition flaky (k : nat) : Collaborators nat := {|
  requests_get _ _ n := (Raised (OtherError "ConnectionError"), n);
  shell_run _ n := (if n <? k then 1%Z else 0%Z, S n);
  path_exists _ _ := false;
  makedirs _ n := (Ok tt, n);
  readline _ _ := Raised (OtherError "PermissionError");
  os_name := "posix";
  path_join := posix_join;
  DEFAULT_TOKEN := None;
  recursion_depth := nested_calls
|}.

(** The account of the specification's scenario: [A] is a fork, [C] is
    private. *)
Definition repo_A : Repo :=
  {| clone_url := "https://github.com/acme/A.git"; fork := true; private := false |}.
Definition repo_B : Repo :=
  {| clone_url := "https://github.com/acme/B.git"; fork := false; private := false |}.
Definition repo_C : Repo :=
  {| clone_url := "https://github.com/acme/C.git"; fork := false; private := true |}.

Definition acme_url : string := "https://api.github.com/users/acme/repos".
Definition acme_url_2 : string := "https://api.github.com/user/42/repos?page=2".

Definition acme : scenario :=
  mkScenario
    [(acme_url, {| status_code := 200; json := Ok [repo_A; repo_B; repo_C]; links := [] |})]
    [] [] None.

(** The same account served in two pages. *)
Definition acme_page_1 : Response :=
  {| status_code := 200; json := Ok [repo_A; repo_B]; links := [("next", acme_url_2)] |}.
Definition acme_page_2 : Response :=
  {| status_code := 200; json := Ok [repo_C]; links := [("prev", acme_url)] |}.

Definition acme_paged : scenario :=
  mkScenario [(acme_url, acme_page_1); (acme_url_2, acme_page_2)] [] [] None.




(** Three repositories, the second of which [git] cannot clone. *)
Definition R1 : string := "https://github.com/acme/R1.git".
Definition R2 : string := "https://github.com/acme/R2.git".
Definition R3 : string := "https://github.com/acme/R3.git".

Definition git_works : scenario := mkScenario [] [] [] None.

Definition R2_fails : scenario :=
  mkScenario [] ["git clone https://github.com/acme/R2.git out/R2/ > /dev/null 2>&1"] [] None.

Definition out_2_threads : Config :=
  {| directory := "out"; show_progress := false; n_threads := 2 |}.

(** The end of a run of the specification's scenario: the destination
    did not exist, two threads, three repositories and a [git] that
    always succeeds. *)
Definition all_cloned : state (list string) :=
  mkState
    (mkWorld ["out"]
       [EvPathExists "out" false; EvMakedirs "out" (Ok tt);
        EvSleep 1; EvSleep 1; EvSleep 1;
        EvPrint (OutCloning R1);
        EvShell "git clone https://github.com/acme/R1.git out/R1/ > /dev/null 2>&1" 0;
        EvPrint (OutCloning R2);
        EvShell "git clone https://github.com/acme/R2.git out/R2/ > /dev/null 2>&1" 0;
        EvPrint (OutCloning R3);
        EvShell "git clone https://github.com/acme/R3.git out/R3/ > /dev/null 2>&1" 0])
    MDone
    [(R1, Finished (Ok "R1")); (R2, Finished (Ok "R2"));
     (R3, Finished (Ok "R3"))]
    []
    [WIdle; WIdle]
    2.

(** A state of the run on these three repositories with two threads:
    the first two calls have been taken by the two threads, the third
    waits in the queue. *)
Definition both_threads_busy : state (list string) :=
  mkState
    (mkWorld ["out"]
       [EvPathExists "out" false; EvMakedirs "out" (Ok tt);
        EvSleep 1; EvSleep 1; EvSleep 1])
    (MSubmit [] out_2_threads)
    [(R1, Pending); (R2, Pending); (R3, Pending)]
    [(2, R3, "out")]
    [WCloneRepo 0 R1 "out"; WCloneRepo 1 R2 "out"]
    2.


(** A server whose only page names itself as the next one. *)
Definition acme_looping_page : Response :=
  {| status_code := 200; json := Ok [repo_B]; links := [("next", acme_url)] |}.

Definition acme_looping : scenario :=
  mkScenario [(acme_url, acme_looping_page)] [] [] None.






(** The account with a token kept in a file, whose first line is
    indented and ends with a line feed. *)
Definition token_line : string := "  ghp_t0ken" +:+ String "010" EmptyString.

Definition acme_with_token : scenario :=
  mkScenario (pages acme) [] [("token.txt", token_line)] None.

(** The account when [GH_TOKEN] is set to the empty string, and when
    the first line of the token file is blank. *)
Definition acme_empty_env : scenario :=
  mkScenario (pages acme) [] [] (Some EmptyString).

Definition blank_line : string := "  " +:+ String "010" EmptyString.

Definition acme_blank_token : scenario :=
  mkScenario (pages acme) [] [("token.txt", blank_line)] None.

(** A platform on which no directory can be created. *)
Definition read_only : Collaborators (list string) := {|
  requests_get _ _ fs := (Raised (OtherError "ConnectionError"), fs);
  shell_run _ fs := (0%Z, fs);
  path_exists path fs := mem path fs;
  makedirs _ fs := (Raised (OtherError "PermissionError"), fs);
  readline _ _ := Raised (OtherError "PermissionError");
  os_name := "posix";
  path_join := posix_join;
  DEFAULT_TOKEN := None;
  recursion_depth := nested_calls
|}.

(** The end of a run of [main] on the account [acme], without a token
    and with a [git] that works: [B] is the one repository listed. *)
Definition acme_cloned : state (list string) :=
  mkState
    (mkWorld ["out"]
       [EvGet acme_url []
          (Ok {| status_code := 200; json := Ok [repo_A; repo_B; repo_C];
                 links := [] |});
        EvPathExists "out" false; EvMakedirs "out" (Ok tt);
        EvSleep 1;
        EvPrint (OutCloning "https://github.com/acme/B.git");
        EvShell "git clone https://github.com/acme/B.git out/B/ > /dev/null 2>&1" 0])
    MDone
    [("https://github.com/acme/B.git", Finished (Ok "B"))]
    []
    [WIdle]
    2.

End Sim.
Example split_url :
  PyStr.split "/" "https://github.com/acme/tool.git"
  = ["https:"; EmptyString; "github.com"; "acme"; "tool.git"].
Proof. reflexivity. Qed.

Example split_trailing_slash :
  PyStr.split "/" "a/b/" = ["a"; "b"; EmptyString].
Proof. reflexivity. Qed.

Example replace_all_occurrences : PyStr.replace "ab" "X" "abcabab-a" = "XcXX-a".
Proof. reflexivity. Qed.

Example replace_not_overlapping : PyStr.replace "aa" "b" "aaaaa" = "bba".
Proof. reflexivity. Qed.

Example strip_line : PyStr.strip "  ghp_token
" = "ghp_token".
Proof. reflexivity. Qed.

Example of_int_values :
  (PyStr.of_int 0, PyStr.of_int 5, PyStr.of_int (-3)) = ("0", "5", "-3").
Proof. vm_compute. reflexivity. Qed.

Example posix_join_values :
  (Sim.posix_join "repos" "tool", Sim.posix_join "repos/" "tool",
   Sim.posix_join "repos" "/tool", Sim.posix_join EmptyString "tool")
  = ("repos/tool", "repos/tool", "/tool", "tool").
Proof. reflexivity. Qed.

(** * Properties *)

Section RunGitClone.

Context {Env : Type} `{Collaborators Env}.

Implicit Types (w : World Env) (repo dir repo_name command : string).

Lemma subprocess_run_check_ok command w rc w' :
  subprocess_run_check command w = (Ok rc, w') → rc = 0%Z.
Proof.
  unfold subprocess_run_check. destruct (shell_run _ _) as [rc0 e'].
  destruct (Z.eqb_spec rc0 0); intros [= <- _]; done.
Qed.

Lemma subprocess_run_check_trace command w r w' :
  subprocess_run_check command w = (r, w') →
  ∃ rc, trace w' = trace w ++ [EvShell command rc] ∧ (shell_run command (env w)).1 = rc
        ∧ (shell_run command (env w)).2 = env w'.
Proof.
  unfold subprocess_run_check. destruct (shell_run _ _) as [rc0 e'].
  destruct (rc0 =? 0)%Z; intros [= _ <-]; eauto.
Qed.

(** The loop goes round again only after a failed attempt, with one
    retry less. *)
Lemma run_git_clone_iter_continue repo dir repo_name m w m' w' :
  run_git_clone_iter repo dir repo_name m w = (Continue m', w') →
  (0 < m)%Z ∧ m' = (m - 1)%Z.
Proof.
  unfold run_git_clone_iter. destruct (Z.ltb_spec 0 m); [|done].
  destruct (subprocess_run_check _ _) as [[rc|e] w1] eqn:Hrun.
  - apply subprocess_run_check_ok in Hrun as ->. done.
  - intros [= <- _]. done.
Qed.

Lemma attempts_app tr1 tr2 : attempts (tr1 ++ tr2) = attempts tr1 ++ attempts tr2.
Proof. apply filter_app. Qed.

Lemma pauses_app tr1 tr2 : pauses (tr1 ++ tr2) = pauses tr1 ++ pauses tr2.
Proof. apply filter_app. Qed.

Lemma attempts_failed_attempt command repo_name rc :
  attempts (failed_attempt command repo_name rc) = [EvShell command rc].
Proof. reflexivity. Qed.

Lemma pauses_failed_attempt command repo_name rc :
  pauses (failed_attempt command repo_name rc) = [EvSleep 5].
Proof. reflexivity. Qed.

Lemma run_git_clone_iter_fails repo dir repo_name m w :
  (0 < m)%Z →
  (shell_run (clone_command repo dir repo_name) (env w)).1 ≠ 0%Z →
  ∃ rc env',
    shell_run (clone_command repo dir repo_name) (env w) = (rc, env') ∧ rc ≠ 0%Z ∧
    run_git_clone_iter repo dir repo_name m w
    = (Continue (m - 1),
       mkWorld env' (trace w ++ failed_attempt (clone_command repo dir repo_name) repo_name rc)).
Proof.
  intros Hm Hrc. unfold run_git_clone_iter, subprocess_run_check.
  destruct (shell_run _ _) as [rc e'] eqn:Hsh. simpl in Hrc.
  exists rc, e'. split_and!; [done..|].
  destruct (Z.ltb_spec 0 m); [|lia].
  destruct (Z.eqb_spec rc 0); [done|].
  unfold time_sleep, print, log, failed_attempt. simpl.
  by rewrite <- !app_assoc.
Qed.

Lemma run_git_clone_iter_succeeds repo dir repo_name m w :
  (0 < m)%Z →
  (shell_run (clone_command repo dir repo_name) (env w)).1 = 0%Z →
  run_git_clone_iter repo dir repo_name m w
  = (Return,
     mkWorld (shell_run (clone_command repo dir repo_name) (env w)).2
       (trace w ++ [EvShell (clone_command repo dir repo_name) 0])).
Proof.
  intros Hm Hrc. unfold run_git_clone_iter, subprocess_run_check.
  destruct (shell_run _ _) as [rc e'] eqn:Hsh. simpl in *. subst rc.
  destruct (Z.ltb_spec 0 m); [|lia]. done.
Qed.

Lemma run_git_clone_iter_exhausted repo dir repo_name m w :
  (m ≤ 0)%Z →
  run_git_clone_iter repo dir repo_name m w
  = (Raise (RuntimeError (clone_failed_msg repo_name m)), w).
Proof.
  intros Hm. unfold run_git_clone_iter. destruct (Z.ltb_spec 0 m); [lia|done].
Qed.

(** When every attempt fails, a budget of [R] retries leads to exactly
    [R] attempts, each followed by the pause of five seconds, and then to
    a [RuntimeError] whose message names the repository and the value
    the counter has by then, which is zero. *)
Lemma run_git_clone_all_fail repo dir repo_name (R : nat) :
  (∀ e : Env, (shell_run (clone_command repo dir repo_name) e).1 ≠ 0%Z) →
  ∀ fuel w, R < fuel →
  ∃ w',
    run_git_clone fuel repo dir repo_name (Z.of_nat R) w
    = Some (Raised (RuntimeError (clone_failed_msg repo_name 0)), w') ∧
    ∃ evs, trace w' = trace w ++ evs ∧
           length (attempts evs) = R ∧
           Forall (λ ev, ∃ rc, ev = EvShell (clone_command repo dir repo_name) rc ∧ rc ≠ 0%Z)
             (attempts evs) ∧
           pauses evs = replicate R (EvSleep 5).
Proof.
  intros Hfail. induction R as [|R IH]; intros fuel w Hfuel.
  - destruct fuel as [|fuel]; [lia|]. cbn [run_git_clone].
    change (Z.of_nat 0) with 0%Z. rewrite run_git_clone_iter_exhausted by lia.
    eexists; split; [done|]. exists []. rewrite app_nil_r. done.
  - destruct fuel as [|fuel]; [lia|]. cbn [run_git_clone].
    destruct (run_git_clone_iter_fails repo dir repo_name (Z.of_nat (S R)) w)
      as (rc & e' & Hsh & Hrc & ->); [lia|apply Hfail|].
    replace (Z.of_nat (S R) - 1)%Z with (Z.of_nat R) by lia.
    destruct (IH fuel (mkWorld e' (trace w ++ failed_attempt
                (clone_command repo dir repo_name) repo_name rc)))
      as (w' & -> & evs & Htr & Hlen & Hall & Hsl); [lia|].
    exists w'. split; [done|].
    exists (failed_attempt (clone_command repo dir repo_name) repo_name rc ++ evs).
    simpl in Htr. rewrite Htr, <- app_assoc. split; [done|].
    rewrite attempts_app, pauses_app, attempts_failed_attempt, pauses_failed_attempt.
    rewrite length_app, Hsl, Hlen.
    rewrite Forall_app. split_and!.
    + simpl. lia.
    + constructor; [eauto|constructor].
    + done.
    + done.
Qed.

End RunGitClone.

Section Lister.

Context {Env : Type} `{Collaborators Env}.

Implicit Types (w : World Env) (username : string) (pat_token page_url : option string).

Lemma requests_get_w_eq url headers w :
  requests_get_w url headers w
  = ((requests_get url headers (env w)).1,
     mkWorld (requests_get url headers (env w)).2
       (trace w ++ [EvGet url headers (requests_get url headers (env w)).1])).
Proof. unfold requests_get_w. by destruct (requests_get _ _ _). Qed.

(** The first page is requested at the url built from the account. *)
Lemma get_public_repos_first_page depth username pat_token w :
  get_public_repos depth username pat_token None w
  = get_public_repos depth username pat_token (Some (first_page_url username)) w.
Proof. by destruct depth. Qed.

Lemma page_repo_urls_app pat_token l1 l2 :
  page_repo_urls pat_token (l1 ++ l2)
  = page_repo_urls pat_token l1 ++ page_repo_urls pat_token l2.
Proof.
  unfold page_repo_urls. destruct pat_token; by rewrite !filter_app, fmap_app.
Qed.

Lemma fetched_app tr1 tr2 : fetched (tr1 ++ tr2) = fetched tr1 ++ fetched tr2.
Proof. apply bind_app. Qed.

(** What a successful listing returns is computed from the objects it
    received and from nothing else, and all it did was to send requests. *)
Lemma get_public_repos_ok depth username pat_token page_url w urls w' :
  get_public_repos depth username pat_token page_url w = (Ok urls, w') →
  ∃ evs, trace w' = trace w ++ evs ∧
         urls = page_repo_urls pat_token (fetched evs) ∧
         requests evs = evs.
Proof.
  revert page_url w urls w'.
  induction depth as [|depth IH]; intros page_url w urls w'; [done|].
  cbn [get_public_repos]. rewrite requests_get_w_eq.
  destruct (requests_get _ _ (env w)) as [[response|e] e1] eqn:Hget; [|done]. cbn [fst snd].
  destruct (json response) as [response_json|e] eqn:Hjson; [|done].
  set (ev := EvGet _ _ _).
  assert (Hev : fetched [ev] = response_json).
  { unfold fetched, ev. cbn. unfold body. rewrite Hjson. apply app_nil_r. }
  destruct (links_lookup _ _) as [next|].
  - destruct (get_public_repos depth _ _ _ _) as [[more|e] w2] eqn:Hrec; [|done].
    intros [= <- <-]. apply IH in Hrec as (evs & Htr & -> & Hreq).
    exists (ev :: evs). cbn [trace] in Htr. rewrite Htr, <- app_assoc.
    split_and!; [done|..].
    + change (ev :: evs) with ([ev] ++ evs).
      by rewrite fetched_app, page_repo_urls_app, Hev.
    + unfold requests in *. rewrite filter_cons_True by done. by rewrite Hreq.
  - intros [= <- <-]. exists [ev]. by rewrite Hev.
Qed.




(** The call the interpreter refuses: nothing is requested. *)
Lemma get_public_repos_too_deep username pat_token page_url w :
  get_public_repos 0 username pat_token page_url w = (Raised RecursionError, w).
Proof. done. Qed.

End Lister.

Section Pool.

Context {Env : Type} `{Collaborators Env}.

Implicit Types (w : World Env) (s : state Env) (ws : list worker) (wk : worker).

(** *** The events of the steps *)

Lemma generated_app tr1 tr2 : generated (tr1 ++ tr2) = generated tr1 ++ generated tr2.
Proof. apply filter_app. Qed.

Lemma requests_app tr1 tr2 : requests (tr1 ++ tr2) = requests tr1 ++ requests tr2.
Proof. apply filter_app. Qed.

Lemma run_git_clone_iter_events repo dir repo_name m w c w' :
  run_git_clone_iter repo dir repo_name m w = (c, w') →
  ∃ evs, trace w' = trace w ++ evs ∧ generated evs = [] ∧ requests evs = [].
Proof.
  unfold run_git_clone_iter, subprocess_run_check.
  destruct (0 <? m)%Z.
  - destruct (shell_run _ _) as [rc e']. destruct (rc =? 0)%Z eqn:Hrc; cbn.
    + rewrite Hrc. intros [= <- <-]. by eexists [_].
    + intros [= <- <-]. eexists [_; _; _]. cbn. by rewrite <- !app_assoc.
  - intros [= <- <-]. exists []. by rewrite app_nil_r.
Qed.

Lemma clone_repos_enter_ok cfg w w' :
  clone_repos_enter cfg w = (Ok tt, w') →
  path_exists (directory cfg) (env w) = false ∧ (0 < n_threads cfg)%Z ∧
  ∃ e', makedirs (directory cfg) (env w) = (Ok tt, e') ∧
        w' = mkWorld e' (trace w ++ [EvPathExists (directory cfg) false;
                                     EvMakedirs (directory cfg) (Ok tt)]).
Proof.
  unfold clone_repos_enter, os_path_exists, os_makedirs, log. cbn.
  destruct (path_exists _ _); [done|].
  destruct (makedirs _ _) as [[[]|e] e']; [|done].
  destruct (Z.leb_spec (n_threads cfg) 0); [done|]. intros [= <-].
  split_and!; [done..|]. eexists. split; [done|]. by rewrite <- app_assoc.
Qed.

(** *** Threads and the futures they hold *)

Lemma held_insert ws i wk0 wk fut :
  ws !! i = Some wk0 →
  (fut_of wk0 = Some fut → fut_of wk = Some fut) →
  (∃ j wk', ws !! j = Some wk' ∧ fut_of wk' = Some fut) →
  ∃ j wk', <[i := wk]> ws !! j = Some wk' ∧ fut_of wk' = Some fut.
Proof.
  intros Hi Hsame (j & wk' & Hj & Hfut). destruct (decide (i = j)) as [->|].
  - exists j, wk. split; [apply list_lookup_insert_eq; by eapply lookup_lt_Some|].
    apply Hsame. congruence.
  - exists j, wk'. by rewrite list_lookup_insert_ne.
Qed.

Lemma insert_not_nil ws i wk0 wk : ws !! i = Some wk0 → <[i := wk]> ws ≠ [].
Proof.
  intros Hi Hnil. apply (f_equal length) in Hnil.
  rewrite length_insert in Hnil. apply lookup_lt_Some in Hi. cbn in Hnil. lia.
Qed.

Lemma sum_list_with_insert (f : worker → nat) ws i wk0 wk :
  ws !! i = Some wk0 →
  sum_list_with f (<[i := wk]> ws) + f wk0 = sum_list_with f ws + f wk.
Proof.
  revert i. induction ws as [|a ws IH]; intros [|i] Hi; simplify_eq/=; [lia|].
  specialize (IH _ Hi). lia.
Qed.

Lemma idle_or_busy ws : (∃ i, ws !! i = Some WIdle) ∨ Forall (λ wk, busy wk = true) ws.
Proof.
  induction ws as [|wk ws [[i Hi]|IH]].
  - right. constructor.
  - left. by exists (S i).
  - destruct wk; [left; by exists 0|right; by constructor..].
Qed.

Lemma omap_fut_of_insert ws i wk0 :
  ws !! i = Some wk0 →
  ∃ A B, omap fut_of ws = A ++ option_list (fut_of wk0) ++ B
         ∧ ∀ wk, omap fut_of (<[i := wk]> ws) = A ++ option_list (fut_of wk) ++ B.
Proof.
  intros Hi. exists (omap fut_of (take i ws)), (omap fut_of (drop (S i) ws)). split.
  - rewrite <- (take_drop_middle ws i wk0 Hi) at 1. rewrite omap_app. cbn.
    by destruct (fut_of wk0).
  - intros wk. rewrite insert_take_drop by (by eapply lookup_lt_Some).
    rewrite omap_app. cbn. by destruct (fut_of wk).
Qed.

Lemma omap_fut_of_same ws i wk0 wk :
  ws !! i = Some wk0 → fut_of wk = fut_of wk0 →
  omap fut_of (<[i := wk]> ws) = omap fut_of ws.
Proof.
  intros Hi Hsame. destruct (omap_fut_of_insert ws i wk0 Hi) as (A & B & -> & Hins).
  by rewrite Hins, Hsame.
Qed.

Lemma omap_fut_of_start ws i wk fut :
  ws !! i = Some WIdle → fut_of wk = Some fut →
  omap fut_of (<[i := wk]> ws) ≡ₚ fut :: omap fut_of ws.
Proof.
  intros Hi Hfut. destruct (omap_fut_of_insert ws i _ Hi) as (A & B & -> & Hins).
  rewrite Hins, Hfut. cbn. by rewrite Permutation_middle.
Qed.

Lemma omap_fut_of_finish ws i wk0 fut :
  ws !! i = Some wk0 → fut_of wk0 = Some fut →
  omap fut_of ws ≡ₚ fut :: omap fut_of (<[i := WIdle]> ws).
Proof.
  intros Hi Hfut. destruct (omap_fut_of_insert ws i _ Hi) as (A & B & -> & Hins).
  rewrite Hins, Hfut. cbn. by rewrite Permutation_middle.
Qed.

Lemma omap_fut_of_nil ws : omap fut_of ws = [] → Forall (λ wk, wk = WIdle) ws.
Proof.
  induction ws as [|wk ws IH]; [constructor|].
  destruct wk; cbn; [|done..]. intros Hnil. constructor; auto.
Qed.

Lemma lookup_alter_finished (futs : list (string * future_state)) fut r fut' :
  (∃ repo r', futs !! fut' = Some (repo, Finished r')) →
  ∃ repo r', alter (set_result r) fut futs !! fut' = Some (repo, Finished r').
Proof.
  intros (repo & r' & Hlk). destruct (decide (fut = fut')) as [->|].
  - rewrite list_lookup_alter_eq, Hlk. by eexists _, _.
  - rewrite list_lookup_alter_ne by done. eauto.
Qed.

Lemma finished_alter s fut r s' fut' :
  st_futures s' = alter (set_result r) fut (st_futures s) →
  finished s fut' → finished s' fut'.
Proof. unfold finished. intros ->. apply lookup_alter_finished. Qed.

(** *** The invariant of the pool *)

Lemma pool_inv_init repos cfg w : pool_inv cfg (clone_repos_init repos cfg w).
Proof.
  split; cbn; try done.
  - by intros ?? [= _ ->].
  - apply NoDup_nil_2.
  - intros fut Hin. by apply elem_of_nil in Hin.
Qed.

Lemma pool_inv_step cfg s s' : step s s' → pool_inv cfg s → pool_inv cfg s'.
Proof.
  intros Hstep [Hfresh Hnm Hcfg Hmx Hth Hidle Hpend Hawait Hnd Hown Hyield Hdone].
  unfold queued, held, owners in *.
  destruct Hstep; cbn in *.
  - by destruct (Hnm username cfg0 token).
  - by destruct (Hnm username cfg0 token).
  - split; cbn; done.
  - apply clone_repos_enter_ok in H0 as (_ & Hn & _).
    rewrite (Hcfg _ _ eq_refl) in *.
    split; cbn; try done. lia.
  - destruct (Hmx eq_refl) as [-> Hpos].
    assert (ws' ≠ [] ∧ (Z.of_nat (length ws') ≤ Z.max 0 (n_threads cfg))%Z ∧
            (∀ i wk, ws !! i = Some wk → ws' !! i = Some wk) ∧
            omap fut_of ws' = omap fut_of ws) as (Hws' & Hlen' & Hsub & Homap).
    { destruct H0 as [Hlt|Hne].
      - split_and!.
        + by destruct ws.
        + rewrite length_app. cbn. lia.
        + intros i wk Hi. by apply lookup_app_l_Some.
        + rewrite omap_app. cbn. by rewrite app_nil_r.
      - done. }
    assert (length futs ∉ q.*1.*1 ++ omap fut_of ws) as Hnew.
    { intros Hin. destruct (Hown _ Hin) as [r Hlk]. apply lookup_lt_Some in Hlk. lia. }
    split; cbn; try done; unfold queued, held, owners; cbn.
    + intros fut repo' Hlk. apply lookup_app_Some in Hlk as [Hlk|[Hge Hlk]].
      * destruct (Hpend _ _ Hlk) as [(r & d & Hq)|(i & wk & Hi & Hf)].
        -- left. exists r, d. apply elem_of_app. by left.
        -- right. exists i, wk. eauto.
      * apply list_lookup_singleton_Some in Hlk as [Hz [= <-]].
        left. exists repo, (directory cfg0). apply elem_of_app. right.
        apply list_elem_of_singleton. f_equal. f_equal. lia.
    + rewrite Homap, !fmap_app. cbn.
      rewrite <- app_assoc. cbn [app]. rewrite <- Permutation_middle. by apply NoDup_cons.
    + rewrite Homap, !fmap_app. cbn. rewrite <- app_assoc. cbn [app].
      intros fut. rewrite <- Permutation_middle. intros [->|Hin]%elem_of_cons.
      * exists repo. by rewrite lookup_app_r, Nat.sub_diag.
      * destruct (Hown _ Hin) as [r Hlk]. exists r. by apply lookup_app_l_Some.
  - split; cbn; try done.
    + intros pending fut [= <-] Hin. apply elem_of_seq in Hin. lia.
    + intros pending fut [= <-] Hlt. left. apply elem_of_seq. lia.
  - split; cbn; try done.
    + intros pending fut' [= <-] Hin. apply (Hawait _ fut' eq_refl).
      rewrite elem_of_app in *. rewrite elem_of_cons. tauto.
    + intros pending fut' [= <-] Hlt. destruct (decide (fut' = fut)) as [->|Hne].
      * right. by eexists _, _.
      * destruct (Hyield _ fut' eq_refl Hlt) as [Hin|?]; [left|by right].
        rewrite elem_of_app in *. rewrite elem_of_cons in Hin.
        destruct Hin as [?|[?|?]]; [by left|done|by right].
  - split; cbn; try done.
    + intros pending fut' [= <-] Hin. apply (Hawait _ fut' eq_refl).
      rewrite elem_of_app in *. rewrite elem_of_cons. tauto.
    + intros pending fut' [= <-] Hlt. destruct (decide (fut' = fut)) as [->|Hne].
      * right. by eexists _, _.
      * destruct (Hyield _ fut' eq_refl Hlt) as [Hin|?]; [left|by right].
        rewrite elem_of_app in *. rewrite elem_of_cons in Hin.
        destruct Hin as [?|[?|?]]; [by left|done|by right].
  - split; cbn; try done.
  - assert (pc ≠ MDone) as Hnot by (intros ->; by destruct (Hdone eq_refl)).
    pose proof (omap_fut_of_start ws i (WCloneRepo fut repo dir) fut H0 eq_refl) as Hperm.
    split; cbn; try done; unfold queued, held, owners; cbn.
    + intros Hf. by destruct (Hfresh Hf) as (_ & ? & _).
    + by rewrite length_insert.
    + intros _. by eapply insert_not_nil.
    + intros fut' repo' Hlk.
      destruct (Hpend _ _ Hlk) as [(r & d & Hq)|Hheld].
      * apply elem_of_cons in Hq as [[= -> -> ->]|Hq].
        -- right. exists i, (WCloneRepo fut repo dir). split; [|done].
           apply list_lookup_insert_eq. by eapply lookup_lt_Some.
        -- left. by exists r, d.
      * right. eapply held_insert; eauto. cbn. congruence.
    + by rewrite Hperm, <- Permutation_middle.
    + intros fut'. rewrite Hperm, <- Permutation_middle. apply Hown.
  - assert (pc ≠ MDone) as Hnot.
    { intros ->. destruct (Hdone eq_refl) as [_ Hall].
      by pose proof (Forall_lookup_1 _ _ _ _ Hall H0). }
    pose proof (omap_fut_of_same ws i _
      (WRunGitClone fut repo dir (repo_name_of repo) default_max_retries) H0 eq_refl)
      as Hsame.
    split; cbn; try done; unfold queued, held, owners; cbn.
    + intros Hf. destruct (Hfresh Hf) as (_ & _ & ? & _). by subst.
    + by rewrite length_insert.
    + intros _. by eapply insert_not_nil.
    + intros fut' repo' Hlk.
      destruct (Hpend _ _ Hlk) as [Hq|Hheld]; [by left|].
      right. eapply held_insert; eauto.
    + by rewrite Hsame.
    + by rewrite Hsame.
  - assert (pc ≠ MDone) as Hnot.
    { intros ->. destruct (Hdone eq_refl) as [_ Hall].
      by pose proof (Forall_lookup_1 _ _ _ _ Hall H0). }
    pose proof (omap_fut_of_same ws i _
      (WRunGitClone fut repo dir repo_name m') H0 eq_refl) as Hsame.
    split; cbn; try done; unfold queued, held, owners; cbn.
    + intros Hf. destruct (Hfresh Hf) as (_ & _ & ? & _). by subst.
    + by rewrite length_insert.
    + intros _. by eapply insert_not_nil.
    + intros fut' repo' Hlk.
      destruct (Hpend _ _ Hlk) as [Hq|Hheld]; [by left|].
      right. eapply held_insert; eauto.
    + by rewrite Hsame.
    + by rewrite Hsame.
  - assert (pc ≠ MDone) as Hnot.
    { intros ->. destruct (Hdone eq_refl) as [_ Hall].
      by pose proof (Forall_lookup_1 _ _ _ _ Hall H0). }
    pose proof (omap_fut_of_finish ws i _ fut H0 eq_refl) as Hperm.
    rewrite Hperm, <- Permutation_middle in Hnd. apply NoDup_cons in Hnd as [Hnin Hnd].
    split; cbn; try done; unfold queued, held, owners; cbn.
    + intros Hf. destruct (Hfresh Hf) as (_ & _ & ? & _). by subst.
    + by rewrite length_insert.
    + intros _. by eapply insert_not_nil.
    + intros fut' repo' Hlk.
      assert (fut' ≠ fut) as Hne.
      { intros ->. rewrite list_lookup_alter_eq in Hlk.
        destruct (futs !! fut) as [[]|]; simplify_eq/=. }
      rewrite list_lookup_alter_ne in Hlk by done.
      destruct (Hpend _ _ Hlk) as [Hq|Hheld]; [by left|].
      right. eapply held_insert; eauto. cbn. congruence.
    + intros pending fut' -> Hin. rewrite length_alter. by eapply Hawait.
    + intros fut' Hin.
      assert (fut' ≠ fut) as Hne by (by intros ->).
      rewrite list_lookup_alter_ne by done. apply Hown.
      rewrite Hperm, <- Permutation_middle. by right.
    + intros pending fut' -> Hlt. rewrite length_alter in Hlt.
      destruct (Hyield _ fut' eq_refl Hlt) as [?|Hfin]; [by left|right].
      by apply lookup_alter_finished.
  - assert (pc ≠ MDone) as Hnot.
    { intros ->. destruct (Hdone eq_refl) as [_ Hall].
      by pose proof (Forall_lookup_1 _ _ _ _ Hall H0). }
    pose proof (omap_fut_of_finish ws i _ fut H0 eq_refl) as Hperm.
    rewrite Hperm, <- Permutation_middle in Hnd. apply NoDup_cons in Hnd as [Hnin Hnd].
    split; cbn; try done; unfold queued, held, owners; cbn.
    + intros Hf. destruct (Hfresh Hf) as (_ & _ & ? & _). by subst.
    + by rewrite length_insert.
    + intros _. by eapply insert_not_nil.
    + intros fut' repo' Hlk.
      assert (fut' ≠ fut) as Hne.
      { intros ->. rewrite list_lookup_alter_eq in Hlk.
        destruct (futs !! fut) as [[]|]; simplify_eq/=. }
      rewrite list_lookup_alter_ne in Hlk by done.
      destruct (Hpend _ _ Hlk) as [Hq|Hheld]; [by left|].
      right. eapply held_insert; eauto. cbn. congruence.
    + intros pending fut' -> Hin. rewrite length_alter. by eapply Hawait.
    + intros fut' Hin.
      assert (fut' ≠ fut) as Hne by (by intros ->).
      rewrite list_lookup_alter_ne by done. apply Hown.
      rewrite Hperm, <- Permutation_middle. by right.
    + intros pending fut' -> Hlt. rewrite length_alter in Hlt.
      destruct (Hyield _ fut' eq_refl Hlt) as [?|Hfin]; [by left|right].
      by apply lookup_alter_finished.
Qed.

Lemma pool_inv_rtc cfg s s' : rtc step s s' → pool_inv cfg s → pool_inv cfg s'.
Proof. induction 1; eauto using pool_inv_step. Qed.

Lemma pool_inv_reachable repos cfg w s :
  reachable (clone_repos_init repos cfg w) s → pool_inv cfg s.
Proof. intros Hs. eapply pool_inv_rtc; [done|apply pool_inv_init]. Qed.

Lemma running_le_threads s : running s ≤ length (st_workers s).
Proof. apply length_filter. Qed.

(** *** Termination: every step uses up some of the measure *)

Lemma step_measure s s' :
  step s s' →
  (∀ username cfg token, st_main s ≠ MMain username cfg token) →
  measure s' < measure s.
Proof.
  intros Hstep Hnm. unfold measure, item_measure.
  destruct Hstep; cbn [st_main st_futures st_workers st_queue main_measure length
                         sum_list_with] in *.
  - by destruct (Hnm username cfg token).
  - by destruct (Hnm username cfg token).
  - lia.
  - unfold item_measure. lia.
  - assert (sum_list_with worker_measure ws' = sum_list_with worker_measure ws) as ->.
    { destruct H0; [|done]. rewrite sum_list_with_app. cbn. lia. }
    rewrite !length_app. cbn [length]. unfold item_measure. lia.
  - rewrite length_seq. lia.
  - rewrite !length_app. cbn [length]. lia.
  - rewrite !length_app. cbn [length]. lia.
  - lia.
  - pose proof (sum_list_with_insert worker_measure ws i _ (WCloneRepo fut repo dir) H0)
      as Hsum. cbn in Hsum. unfold default_max_retries in *. lia.
  - pose proof (sum_list_with_insert worker_measure ws i _
      (WRunGitClone fut repo dir (repo_name_of repo) default_max_retries) H0) as Hsum.
    cbn in Hsum. unfold default_max_retries in *. lia.
  - apply run_git_clone_iter_continue in H1 as [Hm ->].
    pose proof (sum_list_with_insert worker_measure ws i _
      (WRunGitClone fut repo dir repo_name (m - 1)) H0) as Hsum.
    cbn in Hsum. lia.
  - pose proof (sum_list_with_insert worker_measure ws i _ WIdle H0) as Hsum.
    rewrite length_alter. cbn in Hsum. lia.
  - pose proof (sum_list_with_insert worker_measure ws i _ WIdle H0) as Hsum.
    rewrite length_alter. cbn in Hsum. lia.
Qed.

Lemma nsteps_measure cfg n s s' :
  nsteps step n s s' → pool_inv cfg s → n + measure s' ≤ measure s.
Proof.
  induction 1 as [|n s1 s2 s3 Hstep _ IH]; intros Hinv; [lia|].
  pose proof (step_measure _ _ Hstep (inv_not_main _ _ Hinv)).
  specialize (IH (pool_inv_step _ _ _ Hstep Hinv)). lia.
Qed.

(** *** Progress: a run stops only when [clone_repos] has returned or raised *)

Lemma worker_can_step w pc futs q ws mx i wk :
  ws !! i = Some wk → busy wk = true →
  red step (mkState w pc futs q ws mx).
Proof.
  intros Hi Hbusy. destruct wk as [|fut repo dir|fut repo dir repo_name m]; [done|..].
  - eexists. by eapply step_clone_repo.
  - destruct (run_git_clone_iter repo dir repo_name m w) as [[m'| |e] w'] eqn:Hiter.
    + eexists. by eapply step_iter_continue.
    + eexists. by eapply step_iter_return.
    + eexists. by eapply step_iter_raise.
Qed.

Lemma pool_progress cfg s :
  pool_inv cfg s →
  st_main s = MDone ∨ (∃ e, st_main s = MRaised e) ∨ red step s.
Proof.
  intros [Hfresh Hnm Hcfg Hmx Hth Hidle Hpend Hawait Hnd Hown Hyield Hdone].
  destruct s as [w pc futs q ws mx]. unfold owners in *. cbn in *.
  destruct pc as [username cfg' token|repos cfg'|[|repo todo] cfg'|[|fut pending]| |e];
    [|right; right..|by left|by eauto].
  - by destruct (Hnm username cfg' token).
  - destruct (Hfresh eq_refl) as (-> & -> & -> & ->).
    destruct (clone_repos_enter cfg' w) as [[[]|e] w'] eqn:Henter.
    + eexists. by apply step_enter.
    + eexists. by apply step_enter_raised.
  - eexists. apply step_submitted.
  - destruct (Hmx eq_refl) as [-> Hpos]. destruct ws as [|wk ws].
    + eexists. apply step_submit. by apply adjust_start.
    + eexists. apply step_submit. by apply adjust_keep.
  - assert (q.*1.*1 ++ omap fut_of ws = []) as [Hq Hws]%app_eq_nil.
    { destruct (q.*1.*1 ++ omap fut_of ws) as [|fut l] eqn:Heq; [done|].
      destruct (Hown fut) as [repo Hlk]; [by left|].
      destruct (Hyield _ fut eq_refl) as [Hin|(repo' & r & Hfin)].
      - by eapply lookup_lt_Some.
      - by apply elem_of_nil in Hin.
      - cbn in Hfin. congruence. }
    apply fmap_nil_inv, fmap_nil_inv in Hq as ->.
    eexists. apply step_exit. by apply omap_fut_of_nil.
  - pose proof (Hawait _ fut eq_refl ltac:(left)) as Hlt.
    apply lookup_lt_is_Some_2 in Hlt as [[repo [|[a|exc]]] Hlk].
    + destruct (Hpend _ _ Hlk) as [(r & d & Hq)|(i & wk & Hi & Hf)].
      * destruct q as [|[[f' r'] d'] q]; [by apply elem_of_nil in Hq|].
        destruct (idle_or_busy ws) as [[i Hi]|Hbusy].
        -- eexists. by eapply step_take.
        -- destruct ws as [|wk ws]; [destruct Hidle; [by destruct futs|done]|].
           apply Forall_cons in Hbusy as [Hbusy _].
           by eapply (worker_can_step _ _ _ _ _ _ 0).
      * eapply worker_can_step; [done|]. by destruct wk.
    + eexists. by eapply (step_yield_ok _ []).
    + eexists. by eapply (step_yield_raised _ []).
Qed.



(** Once [clone_repos] has returned nothing runs any more. *)
Lemma done_nf cfg s : pool_inv cfg s → st_main s = MDone → nf step s.
Proof.
  intros Hpool Hmain [s' Hstep].
  destruct (inv_done _ _ Hpool Hmain) as [Hq Hall].
  destruct Hstep; cbn in *; try done;
    by pose proof (Forall_lookup_1 _ _ _ _ Hall H0).
Qed.

(** *** What an iteration of the loop of [run_git_clone] tells *)

Lemma run_git_clone_iter_return repo dir repo_name m w w' :
  run_git_clone_iter repo dir repo_name m w = (Return, w') →
  (0 < m)%Z ∧ (shell_run (clone_command repo dir repo_name) (env w)).1 = 0%Z
  ∧ trace w' = trace w ++ [EvShell (clone_command repo dir repo_name) 0].
Proof.
  unfold run_git_clone_iter, subprocess_run_check.
  destruct (Z.ltb_spec 0 m); [|done].
  destruct (shell_run _ _) as [rc e']. destruct (Z.eqb_spec rc 0) as [->|]; cbn.
  - by intros [= <-].
  - done.
Qed.

Lemma run_git_clone_iter_raise repo dir repo_name m w e w' :
  run_git_clone_iter repo dir repo_name m w = (Raise e, w') →
  (m ≤ 0)%Z ∧ e = RuntimeError (clone_failed_msg repo_name m) ∧ w' = w.
Proof.
  unfold run_git_clone_iter, subprocess_run_check.
  destruct (Z.ltb_spec 0 m).
  - destruct (shell_run _ _) as [rc e']. by destruct (Z.eqb_spec rc 0) as [->|].
  - by intros [= <- <-].
Qed.

Lemma run_git_clone_iter_continue_failed repo dir repo_name m w m' w' :
  run_git_clone_iter repo dir repo_name m w = (Continue m', w') →
  (shell_run (clone_command repo dir repo_name) (env w)).1 ≠ 0%Z.
Proof.
  unfold run_git_clone_iter, subprocess_run_check.
  destruct (Z.ltb_spec 0 m); [|done].
  destruct (shell_run _ _) as [rc e']. by destruct (Z.eqb_spec rc 0) as [->|].
Qed.

End Pool.

Section Batch.

Context {Env : Type} `{Collaborators Env}.

Implicit Types (w : World Env) (s : state Env) (ws : list worker) (wk : worker).

Context (repos : list string) (cfg : Config) (fails : nat → bool) (w0 : World Env).

Hypothesis Hfails :
  ∀ j repo, repos !! j = Some repo → fails j = true →
  ∀ e : Env,
    (shell_run (clone_command repo (directory cfg) (repo_name_of repo)) e).1 ≠ 0%Z.
Hypothesis Hsucceeds :
  ∀ j repo, repos !! j = Some repo → fails j = false →
  ∀ e : Env,
    (shell_run (clone_command repo (directory cfg) (repo_name_of repo)) e).1 = 0%Z.
Hypothesis Henter : (clone_repos_enter cfg w0).1 = Ok tt.

Lemma batch_inv_init : batch_inv repos cfg fails w0 (clone_repos_init repos cfg w0).
Proof. split; cbn; try done. intros ??? Hin. by apply elem_of_nil in Hin. Qed.

Lemma fmap_fst_alter r fut (futs : list (string * future_state)) :
  (alter (set_result r) fut futs).*1 = futs.*1.
Proof.
  revert fut. induction futs as [|[repo st] futs IH]; intros [|fut]; cbn; [done..|].
  f_equal. apply IH.
Qed.

Lemma failure_lines_app l1 l2 :
  failure_lines repos fails (l1 ++ l2)
  = failure_lines repos fails l1 ++ failure_lines repos fails l2.
Proof. apply omap_app. Qed.

(** The steps of the workers leave what [main_ok] says as it is. *)
Lemma main_ok_worker_step s s' :
  main_ok repos cfg fails w0 s →
  entered (st_main s) = true →
  st_main s' = st_main s →
  (st_futures s').*1 = (st_futures s).*1 →
  generated (trace (st_world s')) = generated (trace (st_world s)) →
  main_ok repos cfg fails w0 s'.
Proof.
  unfold main_ok. intros Hok Hent -> -> ->. by destruct (st_main s).
Qed.

Lemma worker_entered s i wk :
  pool_inv cfg s → st_workers s !! i = Some wk → entered (st_main s) = true.
Proof.
  intros Hpool Hi. destruct (entered (st_main s)) eqn:Hent; [done|].
  destruct (inv_fresh _ _ Hpool Hent) as (_ & _ & Hws & _). by rewrite Hws in Hi.
Qed.

Lemma workers_insert (P : worker → Prop) ws i wk' :
  (∀ j wk, ws !! j = Some wk → P wk) → P wk' →
  ∀ j wk, <[i := wk']> ws !! j = Some wk → P wk.
Proof.
  intros Hall Hnew j wk Hj. apply list_lookup_insert_Some in Hj as [(-> & -> & _)|[_ Hj]]; eauto.
Qed.

Lemma results_alter cfg' (futs : list (string * future_state)) fut repo r tr tr' :
  (∀ fut' repo' r', futs !! fut' = Some (repo', Finished r') →
     r' = expected fails fut' repo'
     ∧ (fails fut' = false →
        EvShell (clone_command repo' (directory cfg') (repo_name_of repo')) 0 ∈ tr)) →
  (∀ st, futs !! fut = Some (repo, st) →
     r = expected fails fut repo
     ∧ (fails fut = false →
        EvShell (clone_command repo (directory cfg') (repo_name_of repo)) 0 ∈ tr ++ tr')) →
  (∀ st repo', futs !! fut = Some (repo', st) → repo' = repo) →
  ∀ fut' repo' r', alter (set_result r) fut futs !! fut' = Some (repo', Finished r') →
     r' = expected fails fut' repo'
     ∧ (fails fut' = false →
        EvShell (clone_command repo' (directory cfg') (repo_name_of repo')) 0 ∈ tr ++ tr').
Proof.
  intros Hold Hnew Hrepo fut' repo' r' Hlk.
  destruct (decide (fut = fut')) as [<-|Hne].
  - rewrite list_lookup_alter_eq in Hlk.
    destruct (futs !! fut) as [[repo'' st]|] eqn:Hf; [|done].
    cbn in Hlk. injection Hlk as <- <-.
    rewrite (Hrepo _ _ eq_refl) in *. eauto.
  - rewrite list_lookup_alter_ne in Hlk by done.
    destruct (Hold _ _ _ Hlk) as [-> Htr]. split; [done|].
    intros. apply elem_of_app. left. auto.
Qed.

Lemma futures_alter (futs : list (string * future_state)) fut r fut' repo st :
  alter (set_result r) fut futs !! fut' = Some (repo, st) →
  ∃ st', futs !! fut' = Some (repo, st').
Proof.
  intros Hlk. destruct (decide (fut = fut')) as [<-|Hne].
  - rewrite list_lookup_alter_eq in Hlk.
    destruct (futs !! fut) as [[repo' st']|]; [|done].
    cbn in Hlk. injection Hlk as <- <-. eauto.
  - rewrite list_lookup_alter_ne in Hlk by done. eauto.
Qed.

Lemma batch_inv_step s s' :
  step s s' → pool_inv cfg s →
  batch_inv repos cfg fails w0 s → batch_inv repos cfg fails w0 s'.
Proof.
  intros Hstep Hpool [Hmain Hfuts Hres Hq Hws].
  destruct Hstep.
  - done.
  - done.
  - destruct Hmain as (-> & -> & Hw). cbn in Hw. subst w.
    rewrite H0 in Henter. done.
  - destruct Hmain as (-> & -> & Hw). cbn in Hw. subst w.
    apply clone_repos_enter_ok in H0 as (_ & _ & e' & _ & ->).
    split; cbn; try done.
    unfold main_ok; cbn. split_and!; [done..|].
    by rewrite generated_app, app_nil_r.
  - unfold main_ok in Hmain. cbn in Hmain, Hfuts, Hres, Hq, Hws.
    destruct Hmain as (-> & Hrepos & Hgen).
    assert (repos !! length futs = Some repo) as Hrepo.
    { rewrite <- Hrepos, lookup_app_r by (by rewrite length_fmap).
      by rewrite length_fmap, Nat.sub_diag. }
    split; cbn.
    + unfold main_ok; cbn. split_and!; [done| |].
      * by rewrite fmap_app, <- app_assoc.
      * by rewrite generated_app, app_nil_r.
    + intros fut repo' st Hlk. apply lookup_app_Some in Hlk as [Hlk|[Hge Hlk]]; [eauto|].
      apply list_lookup_singleton_Some in Hlk as [Hz [= <- <-]].
      by replace fut with (length futs) by lia.
    + intros fut repo' r Hlk. apply lookup_app_Some in Hlk as [Hlk|[Hge Hlk]].
      * destruct (Hres _ _ _ Hlk) as [-> Htr]. split; [done|].
        intros Hne. apply elem_of_app. left. auto.
      * by apply list_lookup_singleton_Some in Hlk as [Hz [=]].
    + intros fut repo' dir Hin. apply elem_of_app in Hin as [Hin|Hin]; [eauto|].
      by apply list_elem_of_singleton in Hin as [= -> -> ->].
    + intros i wk Hi. destruct H0; [|eauto].
      apply lookup_app_Some in Hi as [Hi|[_ Hi]]; [eauto|].
      by apply list_lookup_singleton_Some in Hi as [_ <-].
  - unfold main_ok in Hmain. cbn in Hmain.
    destruct Hmain as (-> & Hrepos & Hgen). rewrite app_nil_r in Hrepos.
    split; cbn; try done.
    unfold main_ok; cbn. split; [done|]. exists [].
    rewrite <- Hrepos, length_fmap, app_nil_r. done.
  - unfold main_ok in Hmain. cbn in Hmain, Hres, Hfuts.
    destruct Hmain as (Hrepos & yielded & Hperm & Hgen).
    destruct (Hres _ _ _ H0) as [Hexp _].
    assert (fails fut = false) as Hok.
    { unfold expected in Hexp. by destruct (fails fut). }
    split; cbn; try done.
    unfold main_ok; cbn. split; [done|]. exists (yielded ++ [fut]). split.
    + rewrite <- Hperm, <- app_assoc. cbn. f_equiv. apply Permutation_middle.
    + rewrite Hgen, failure_lines_app. cbn. unfold failure_line.
      rewrite Hok. destruct (repos !! fut); cbn; by rewrite app_nil_r.
  - unfold main_ok in Hmain. cbn in Hmain, Hres, Hfuts.
    destruct Hmain as (Hrepos & yielded & Hperm & Hgen).
    destruct (Hres _ _ _ H0) as [Hexp _].
    assert (fails fut = true
            ∧ exc = RuntimeError (clone_failed_msg (repo_name_of repo) 0)) as [Hko ->].
    { unfold expected in Hexp. destruct (fails fut); by simplify_eq. }
    split; cbn.
    + unfold main_ok; cbn. split; [done|]. exists (yielded ++ [fut]). split.
      * rewrite <- Hperm, <- app_assoc. cbn. f_equiv. apply Permutation_middle.
      * rewrite generated_app, Hgen, failure_lines_app, <- app_assoc. cbn.
        unfold failure_line. by rewrite (Hfuts _ _ _ H0), Hko.
    + done.
    + intros fut' repo' r Hlk. destruct (Hres _ _ _ Hlk) as [-> Htr]. split; [done|].
      intros Hne. apply elem_of_app. left. auto.
    + done.
    + done.
  - unfold main_ok in Hmain. cbn in Hmain.
    destruct Hmain as (Hrepos & yielded & Hperm & Hgen).
    split; cbn; try done.
    unfold main_ok; cbn. split; [done|]. exists yielded.
    by rewrite app_nil_r in Hperm.
  - pose proof (worker_entered _ _ _ Hpool H0) as Hent. cbn in *.
    split; cbn.
    + by eapply main_ok_worker_step.
    + done.
    + done.
    + intros fut' repo' dir' Hin. apply Hq. by right.
    + apply workers_insert; [done|]. cbn. apply Hq. by left.
  - pose proof (worker_entered _ _ _ Hpool H0) as Hent. cbn in *.
    split; cbn.
    + eapply main_ok_worker_step; [done..|]. cbn.
      by rewrite generated_app, app_nil_r.
    + done.
    + intros fut' repo' r Hlk. destruct (Hres _ _ _ Hlk) as [-> Htr]. split; [done|].
      intros. apply elem_of_app. left. auto.
    + done.
    + apply workers_insert; [done|]. destruct (Hws _ _ H0) as [? ->].
      cbn. unfold default_max_retries. split_and!; [done..|lia|lia].
  - pose proof (worker_entered _ _ _ Hpool H0) as Hent. cbn in *.
    destruct (Hws _ _ H0) as (Hrepo & -> & -> & Hm0 & Hm).
    pose proof (run_git_clone_iter_continue_failed _ _ _ _ _ _ _ H1) as Hfailed.
    destruct (run_git_clone_iter_events _ _ _ _ _ _ _ H1) as (evs & Htr & Hgen & _).
    apply run_git_clone_iter_continue in H1 as [Hpos ->].
    assert (fails fut = true) as Hko.
    { destruct (fails fut) eqn:Hf; [done|]. destruct Hfailed. by eapply Hsucceeds. }
    split; cbn.
    + eapply main_ok_worker_step; [done..|]. cbn.
      by rewrite Htr, generated_app, Hgen, app_nil_r.
    + done.
    + intros fut' repo' r Hlk. destruct (Hres _ _ _ Hlk) as [-> Htr']. split; [done|].
      intros. rewrite Htr. apply elem_of_app. left. auto.
    + done.
    + apply workers_insert; [done|]. cbn. split_and!; [done..|lia|congruence].
  - pose proof (worker_entered _ _ _ Hpool H0) as Hent. cbn in *.
    destruct (Hws _ _ H0) as (Hrepo & -> & -> & Hm0 & Hm).
    destruct (run_git_clone_iter_events _ _ _ _ _ _ _ H1) as (evs & Htr & Hgen & _).
    apply run_git_clone_iter_return in H1 as (Hpos & Hzero & Htr').
    assert (fails fut = false) as Hok.
    { destruct (fails fut) eqn:Hf; [|done]. by destruct (Hfails _ _ Hrepo Hf (env w)). }
    split; cbn.
    + eapply main_ok_worker_step; [done..| |]; cbn.
      * apply fmap_fst_alter.
      * by rewrite Htr, generated_app, Hgen, app_nil_r.
    + intros fut' repo' st Hlk. apply futures_alter in Hlk as [st' Hlk]. eauto.
    + rewrite Htr'. eapply results_alter; [done| |].
      * intros st Hlk. unfold expected. rewrite Hok. split; [done|].
        intros _. apply elem_of_app. right. by left.
      * intros st repo' Hlk. apply Hfuts in Hlk. congruence.
    + done.
    + by apply workers_insert.
  - pose proof (worker_entered _ _ _ Hpool H0) as Hent. cbn in *.
    destruct (Hws _ _ H0) as (Hrepo & -> & -> & Hm0 & Hm).
    apply run_git_clone_iter_raise in H1 as (Hle & -> & ->).
    assert (fails fut = true) as Hko.
    { destruct (fails fut) eqn:Hf; [done|]. specialize (Hm eq_refl). lia. }
    assert (m = 0%Z) as -> by lia.
    split; cbn.
    + eapply main_ok_worker_step; [done..| |]; cbn.
      * apply fmap_fst_alter.
      * done.
    + intros fut' repo' st Hlk. apply futures_alter in Hlk as [st' Hlk]. eauto.
    + rewrite <- (app_nil_r (trace w)). eapply results_alter.
      * done.
      * intros st Hlk. unfold expected. by rewrite Hko.
      * intros st repo' Hlk. apply Hfuts in Hlk. congruence.
    + done.
    + by apply workers_insert.
Qed.

Lemma batch_inv_reachable s :
  reachable (clone_repos_init repos cfg w0) s →
  pool_inv cfg s ∧ batch_inv repos cfg fails w0 s.
Proof.
  unfold reachable. intros Hs. revert s Hs. apply rtc_ind_r.
  - split; [apply pool_inv_init|apply batch_inv_init].
  - intros s1 s2 _ Hstep [Hpool Hbatch].
    split; [by eapply pool_inv_step|by eapply batch_inv_step].
Qed.

(** What the futures hold when [clone_repos] has returned. *)
Lemma batch_done s :
  reachable (clone_repos_init repos cfg w0) s → st_main s = MDone →
  (st_futures s).*1 = repos
  ∧ (∀ j repo, repos !! j = Some repo →
       st_futures s !! j = Some (repo, Finished (expected fails j repo))
       ∧ (fails j = false →
          EvShell (clone_command repo (directory cfg) (repo_name_of repo)) 0
          ∈ trace (st_world s)))
  ∧ ∃ yielded,
      yielded ≡ₚ seq 0 (length repos)
      ∧ generated (trace (st_world s))
        = generated (trace w0) ++ failure_lines repos fails yielded.
Proof.
  intros Hs Hdone.
  destruct (batch_inv_reachable s Hs) as [Hpool [Hmain Hfuts Hres _ _]].
  unfold main_ok in Hmain. rewrite Hdone in Hmain. destruct Hmain as [Hrepos Hgen].
  split_and!; [done| |done]. intros j repo Hj.
  destruct (inv_done _ _ Hpool Hdone) as [Hq Hall].
  assert (j < length (st_futures s)) as Hlt.
  { apply lookup_lt_Some in Hj. by rewrite <- Hrepos, length_fmap in Hj. }
  apply lookup_lt_is_Some_2 in Hlt as [[repo' st] Hlk].
  assert (repo' = repo) as -> by (apply Hfuts in Hlk; congruence).
  destruct st as [|r].
  - destruct (inv_pending _ _ Hpool _ _ Hlk) as [(r & d & Hin)|(i & wk & Hi & Hf)].
    + rewrite Hq in Hin. by apply elem_of_nil in Hin.
    + by pose proof (Forall_lookup_1 _ _ _ _ Hall Hi) as ->.
  - by destruct (Hres _ _ _ Hlk) as [-> Htr].
Qed.

End Batch.

Section FailureLines.

Context (repos : list string) (bad : nat) (bad_repo : string).

Lemma failure_lines_none l :
  bad ∉ l → failure_lines repos (λ j, bool_decide (j = bad)) l = [].
Proof.
  induction l as [|j l IH]; [done|]. intros [Hne Hnin]%not_elem_of_cons.
  cbn. unfold failure_line at 1. rewrite bool_decide_eq_false_2 by done.
  destruct (repos !! j); by apply IH.
Qed.

Lemma failure_lines_single l :
  repos !! bad = Some bad_repo → NoDup l → bad ∈ l →
  failure_lines repos (λ j, bool_decide (j = bad)) l = [generated_line bad_repo].
Proof.
  intros Hbad. induction l as [|j l IH]; intros Hnd Hin; [by apply elem_of_nil in Hin|].
  apply NoDup_cons in Hnd as [Hnin Hnd]. cbn. unfold failure_line at 1.
  destruct (decide (j = bad)) as [->|Hne].
  - rewrite Hbad, bool_decide_eq_true_2 by done.
    fold (failure_lines repos (λ j, bool_decide (j = bad)) l).
    by rewrite failure_lines_none.
  - rewrite bool_decide_eq_false_2 by done.
    apply elem_of_cons in Hin as [?|Hin]; [done|].
    destruct (repos !! j); by apply IH.
Qed.

Lemma failure_lines_never (fails : nat → bool) l :
  (∀ j, fails j = false) → failure_lines repos fails l = [].
Proof.
  intros Hnever. induction l as [|j l IH]; [done|].
  cbn. unfold failure_line at 1. rewrite Hnever. by destruct (repos !! j).
Qed.

End FailureLines.

Section MainThread.

Context {Env : Type} `{Collaborators Env}.

Implicit Types (w : World Env) (s : state Env) (token : option string).

(** *** The events of the listing *)

Lemma requests_only_no_attempts evs : requests evs = evs → attempts evs = [].
Proof.
  unfold requests, attempts. intros Hreq.
  induction evs as [|ev evs IH]; [done|].
  destruct (decide (is_get ev = true)) as [Hget|Hget].
  - rewrite filter_cons_True in Hreq by done. injection Hreq as Hreq.
    rewrite filter_cons_False by (by destruct ev). auto.
  - rewrite filter_cons_False in Hreq by done.
    pose proof (length_filter (λ ev, is_get ev = true) evs) as Hlen.
    rewrite Hreq in Hlen. cbn in Hlen. lia.
Qed.

Lemma get_public_repos_events depth username pat_token page_url w r w' :
  get_public_repos depth username pat_token page_url w = (r, w') →
  ∃ evs, trace w' = trace w ++ evs ∧ requests evs = evs.
Proof.
  revert page_url w r w'.
  induction depth as [|depth IH]; intros page_url w r w'.
  { intros [= <- <-]. exists []. by rewrite app_nil_r. }
  cbn [get_public_repos]. rewrite requests_get_w_eq.
  destruct (requests_get _ _ (env w)) as [[response|e] e1]; cbn [fst snd];
    [|intros [= <- <-]; by eexists [_]].
  destruct (json response) as [response_json|e]; [|intros [= <- <-]; by eexists [_]].
  destruct (links_lookup _ _) as [next|]; [|intros [= <- <-]; by eexists [_]].
  destruct (get_public_repos depth _ _ _ _) as [r' w2] eqn:Hrec.
  apply IH in Hrec as (evs & Htr & Hreq). cbn [trace] in Htr.
  intros Hout. assert (w' = w2) as -> by (by destruct r'; simplify_eq).
  eexists (_ :: evs). rewrite Htr, <- app_assoc. split; [done|].
  unfold requests in *. rewrite filter_cons_True by done. by rewrite Hreq.
Qed.

Lemma load_token_events token w r w1 :
  load_token token w = (r, w1) →
  ∃ evs, trace w1 = trace w ++ evs ∧ attempts evs = [] ∧ requests evs = [].
Proof.
  unfold load_token, os_path_exists, open_readline, log.
  destruct token as [t|]; cbn; [|intros [= <- <-]; exists []; by rewrite app_nil_r].
  destruct (PyStr.truthy t); [|intros [= <- <-]; exists []; by rewrite app_nil_r].
  destruct (String.eqb t "#ENV"); [intros [= <- <-]; exists []; by rewrite app_nil_r|].
  destruct (path_exists t (env w)); cbn.
  - destruct (readline t (env w)); intros [= <- <-]; eexists [_; _]; cbn;
      by rewrite <- app_assoc.
  - intros [= <- <-]. by eexists [_].
Qed.

Lemma main_listing_events username token w r w' :
  main_listing username token w = (r, w') →
  ∃ evs, trace w' = trace w ++ evs ∧ attempts evs = [].
Proof.
  unfold main_listing. destruct (load_token token w) as [[tok|e] w1] eqn:Htok.
  - apply load_token_events in Htok as (evs1 & Htr1 & Hat1 & _).
    intros (evs2 & Htr2 & Hreq)%get_public_repos_events.
    exists (evs1 ++ evs2). rewrite Htr2, Htr1, <- app_assoc. split; [done|].
    by rewrite attempts_app, Hat1, (requests_only_no_attempts evs2).
  - apply load_token_events in Htok as (evs1 & Htr1 & Hat1 & _).
    intros [= <- <-]. eauto.
Qed.

(** *** The states before the pool exists *)

Lemma raised_state_nf w e : nf step (raised_state w e).
Proof.
  intros [s' Hstep]. unfold raised_state in Hstep.
  inversion Hstep; simplify_eq.
Qed.

(** A run of [main] is at its start, or stopped by the listing, or a run
    of [clone_repos] on what the listing returned. *)
Lemma main_reachable username cfg token w s :
  reachable (main_init username cfg token w) s →
  s = main_init username cfg token w
  ∨ (∃ e w1, main_listing username token w = (Raised e, w1)
             ∧ s = raised_state w1 e)
  ∨ (∃ repos w1, main_listing username token w = (Ok repos, w1)
                 ∧ reachable (clone_repos_init repos cfg w1) s).
Proof.
  unfold reachable. intros Hs. revert s Hs. apply rtc_ind_r; [by left|].
  intros s1 s2 _ Hstep [->|[(e & w1 & Hlist & ->)|(repos & w1 & Hlist & Hs)]].
  - right. unfold main_init in Hstep. inversion Hstep; simplify_eq.
    + left. by eexists _, _.
    + right. eexists _, _. split; [done|]. apply rtc_refl.
  - destruct (raised_state_nf w1 e). by eexists.
  - right. right. eexists _, _. split; [done|]. by eapply rtc_r.
Qed.

(** When [clone_repos] cannot create its pool, it raises and nothing
    else happens. *)
Lemma enter_raised_reachable repos cfg w e w' s :
  clone_repos_enter cfg w = (Raised e, w') →
  reachable (clone_repos_init repos cfg w) s →
  s = clone_repos_init repos cfg w ∨ s = raised_state w' e.
Proof.
  intros Henter. unfold reachable. intros Hs. revert s Hs.
  apply rtc_ind_r; [by left|].
  intros s1 s2 _ Hstep [->| ->].
  - right. unfold clone_repos_init in Hstep.
    inversion Hstep; simplify_eq; unfold raised_state; congruence.
  - destruct (raised_state_nf w' e). by eexists.
Qed.

(** The steps of [clone_repos] send no request. *)
Lemma step_events s s' :
  step s s' →
  (∀ username cfg token, st_main s ≠ MMain username cfg token) →
  ∃ evs, trace (st_world s') = trace (st_world s) ++ evs ∧ requests evs = [].
Proof.
  intros Hstep Hnm.
  destruct Hstep; cbn [st_world st_main] in *;
    try (by destruct (Hnm username cfg token));
    try (exists []; by rewrite app_nil_r);
    try (by eexists [_]).
  - unfold clone_repos_enter, os_path_exists, os_makedirs, log in H0. cbn in H0.
    destruct (path_exists _ _); [simplify_eq; by eexists [_]|].
    destruct (makedirs _ _) as [[[]|e'] e1]; cbn in H0.
    + destruct (_ <=? _)%Z; simplify_eq. eexists [_; _]. cbn. by rewrite <- app_assoc.
    + simplify_eq. eexists [_; _]. cbn. by rewrite <- app_assoc.
  - apply clone_repos_enter_ok in H0 as (_ & _ & e' & _ & ->). by eexists [_; _].
  - apply run_git_clone_iter_events in H1 as (evs & ? & _ & ?). eauto.
  - apply run_git_clone_iter_events in H1 as (evs & ? & _ & ?). eauto.
  - apply run_git_clone_iter_events in H1 as (evs & ? & _ & ?). eauto.
Qed.

(** Whatever a run of [clone_repos] does starts with the test of the
    directory, and no request follows. *)
Lemma clone_repos_trace repos cfg w s :
  reachable (clone_repos_init repos cfg w) s →
  s = clone_repos_init repos cfg w
  ∨ ∃ b post, trace (st_world s) = trace w ++ EvPathExists (directory cfg) b :: post
              ∧ requests post = [].
Proof.
  unfold reachable. intros Hs.
  assert (pool_inv cfg s) as Hpool by (by apply (pool_inv_reachable repos cfg w)).
  revert s Hs Hpool. apply (rtc_ind_r (λ s, pool_inv cfg s → _)); [by left|].
  intros s1 s2 Hs Hstep IH Hpool2.
  assert (pool_inv cfg s1) as Hpool1 by (by apply (pool_inv_reachable repos cfg w)).
  right. destruct (IH Hpool1) as [->|(b & post & Htr & Hreq)].
  - unfold clone_repos_init in Hstep. inversion Hstep; simplify_eq.
    + match goal with Hx : clone_repos_enter _ _ = _ |- _ => rename Hx into Hent end.
      unfold clone_repos_enter, os_path_exists, os_makedirs, log in Hent. cbn in Hent.
      destruct (path_exists _ _); [simplify_eq; by eexists _, []|].
      destruct (makedirs _ _) as [[[]|e'] e1]; cbn in Hent.
      * destruct (_ <=? _)%Z; simplify_eq. eexists _, [_]. cbn.
        by rewrite <- app_assoc.
      * simplify_eq. eexists _, [_]. cbn. by rewrite <- app_assoc.
    + match goal with Hx : clone_repos_enter _ _ = _ |- _ => rename Hx into Hent end.
      apply clone_repos_enter_ok in Hent as (_ & _ & e' & _ & ->). by eexists _, [_].
  - destruct (step_events _ _ Hstep (inv_not_main _ _ Hpool1)) as (evs & Htr' & Hreq').
    exists b, (post ++ evs). rewrite Htr', Htr, <- app_assoc. split; [done|].
    by rewrite requests_app, Hreq, Hreq'.
Qed.

End MainThread.

Section Entering.

Context {Env : Type} `{Collaborators Env}.

Lemma clone_repos_enter_exists cfg (w : World Env) :
  path_exists (directory cfg) (env w) = true →
  clone_repos_enter cfg w
  = (Raised (FileExistsError ("Directory " +:+ directory cfg +:+ " already exists.")),
     log (EvPathExists (directory cfg) true) w).
Proof. intros Hexists. unfold clone_repos_enter, os_path_exists. by rewrite Hexists. Qed.

Lemma clone_repos_enter_fresh cfg (w : World Env) :
  path_exists (directory cfg) (env w) = false →
  (makedirs (directory cfg) (env w)).1 = Ok tt →
  (1 ≤ n_threads cfg)%Z →
  clone_repos_enter cfg w
  = (Ok tt,
     mkWorld (makedirs (directory cfg) (env w)).2
       (trace w ++ [EvPathExists (directory cfg) false;
                    EvMakedirs (directory cfg) (Ok tt)])).
Proof.
  intros Hfresh Hmk Hn. unfold clone_repos_enter, os_path_exists, os_makedirs. cbn.
  rewrite Hfresh. destruct (makedirs _ _) as [r e']. cbn in *. subst r.
  destruct (Z.leb_spec (n_threads cfg) 0); [lia|]. by rewrite <- app_assoc.
Qed.

End Entering.

(** * The claims *)

(** C9.  With a retry budget of zero [run_git_clone] raises at once: the
    test of the loop fails before the body is entered, so [git] is not
    called even once.  The world comes back as it was, trace included:
    no attempt, no pause, no line printed. *)
Theorem run_git_clone_zero_budget {Env : Type} `{Collaborators Env}
    (fuel : nat) (repo dir repo_name : string) (w : World Env) :
  run_git_clone (S fuel) repo dir repo_name 0 w
  = Some (Raised (RuntimeError ("Failed to clone " +:+ repo_name +:+ " after 0 retries")), w).
Proof.
  cbn [run_git_clone]. rewrite run_git_clone_iter_exhausted by lia. reflexivity.
Qed.

(** C1.  A clone that fails at each of its five attempts: the loop makes
    exactly five attempts and raises, but the message of the error is
    formatted from the counter after its last decrement, so it reads
    "after 0 retries" where the budget, and the number of attempts made,
    is 5.  ([run_git_clone_all_fail] has the same for every budget.) *)
Theorem run_git_clone_reports_zero_retries :
  ∃ w',
    run_git_clone (H := Sim.collaborators Sim.R2_fails) 6 Sim.R2 "out" "R2" 5
      (Sim.world0 [])
    = Some (Raised (RuntimeError "Failed to clone R2 after 0 retries"), w')
    ∧ length (attempts (trace w')) = 5
    ∧ clone_failed_msg "R2" 5 = "Failed to clone R2 after 5 retries".
Proof. eexists. split_and!; vm_compute; reflexivity. Qed.

(** C5.  The name of the local copy is computed from the url alone, but
    [replace] removes every [.git] of the final segment and not only a
    trailing one: the repository [octocat.github.io] is cloned into
    [octocathub.io]. *)
Theorem repo_name_of_removes_inner_git :
  repo_name_of "https://github.com/octocat/octocat.github.io.git" = "octocathub.io"
  ∧ spec_repo_name "https://github.com/octocat/octocat.github.io.git" = "octocat.github.io".
Proof. split; vm_compute; reflexivity. Qed.

Example repo_name_of_plain :
  repo_name_of "https://github.com/acme/tool.git" = "tool"
  ∧ spec_repo_name "https://github.com/acme/tool.git" = "tool"
  ∧ repo_name_of "https://github.com/acme/tool" = "tool".
Proof. split_and!; vm_compute; reflexivity. Qed.





(** C6.  A token that is the empty string is no credential where the
    headers are built ([if pat_token]) and is one where the private
    repositories are filtered ([pat_token is None]).  [main] lets the
    empty string through to the listing in three ways: as the [token]
    argument, as the value of [GH_TOKEN], and as what is left of a
    blank first line of the token file.  Each time the request goes out
    without an [Authorization] header, as that of a run without token,
    and the url of the private repository [C] is in the list returned,
    where the run without token leaves it out. *)
Theorem main_empty_token_lists_private :
  private Sim.repo_C = true
  ∧ main_listing (H := Sim.collaborators Sim.acme) "acme" None (Sim.world0 [])
    = (Ok ["https://github.com/acme/B.git"],
       mkWorld [] [EvGet Sim.acme_url [] (Ok {| status_code := 200;
                     json := Ok [Sim.repo_A; Sim.repo_B; Sim.repo_C]; links := [] |})])
  ∧ main_listing (H := Sim.collaborators Sim.acme) "acme" (Some EmptyString)
      (Sim.world0 [])
    = (Ok ["https://github.com/acme/B.git"; clone_url Sim.repo_C],
       mkWorld [] [EvGet Sim.acme_url [] (Ok {| status_code := 200;
                     json := Ok [Sim.repo_A; Sim.repo_B; Sim.repo_C]; links := [] |})])
  ∧ main_listing (H := Sim.collaborators Sim.acme_empty_env) "acme" (Some "#ENV")
      (Sim.world0 [])
    = (Ok ["https://github.com/acme/B.git"; clone_url Sim.repo_C],
       mkWorld [] [EvGet Sim.acme_url [] (Ok {| status_code := 200;
                     json := Ok [Sim.repo_A; Sim.repo_B; Sim.repo_C]; links := [] |})])
  ∧ main_listing (H := Sim.collaborators Sim.acme_blank_token) "acme" (Some "token.txt")
      (Sim.world0 ["token.txt"])
    = (Ok ["https://github.com/acme/B.git"; clone_url Sim.repo_C],
       mkWorld ["token.txt"]
         [EvPathExists "token.txt" true;
          EvReadline "token.txt" (Ok Sim.blank_line);
          EvGet Sim.acme_url [] (Ok {| status_code := 200;
            json := Ok [Sim.repo_A; Sim.repo_B; Sim.repo_C]; links := [] |})]).
Proof. split_and!; vm_compute; reflexivity. Qed.

(** C3.  When the destination directory exists, the only step of
    [clone_repos] is the one that raises [FileExistsError]; the run has
    no other state.  No future was created, nothing was queued, no
    thread was started, no clone was attempted, and the world outside is
    as it was: all the run did was to look whether the path exists. *)
Theorem clone_repos_existing_directory {Env : Type} `{Collaborators Env}
    (repos : list string) (cfg : Config) (w : World Env) :
  path_exists (directory cfg) (env w) = true →
  step (clone_repos_init repos cfg w)
    (raised_state (log (EvPathExists (directory cfg) true) w)
       (FileExistsError ("Directory " +:+ directory cfg +:+ " already exists.")))
  ∧ nf step
      (raised_state (log (EvPathExists (directory cfg) true) w)
         (FileExistsError ("Directory " +:+ directory cfg +:+ " already exists.")))
  ∧ ∀ s, reachable (clone_repos_init repos cfg w) s →
      (s = clone_repos_init repos cfg w
       ∨ s = raised_state (log (EvPathExists (directory cfg) true) w)
               (FileExistsError ("Directory " +:+ directory cfg +:+ " already exists.")))
      ∧ st_futures s = [] ∧ st_queue s = [] ∧ st_workers s = []
      ∧ env (st_world s) = env w
      ∧ attempts (trace (st_world s)) = attempts (trace w).
Proof.
  intros Hexists.
  pose proof (clone_repos_enter_exists cfg w Hexists) as Henter.
  split_and!.
  - by apply step_enter_raised.
  - apply raised_state_nf.
  - intros s Hs. destruct (enter_raised_reachable _ _ _ _ _ _ Henter Hs) as [-> | ->].
    + split_and!; [by left|done..].
    + split_and!; [by right|done..|]. cbn. by rewrite attempts_app, app_nil_r.
Qed.

(** C4.  In every state of every run of [clone_repos] with
    [n_threads = C], at most [C] threads are inside a call of
    [clone_repo], whatever the number of repositories; a future that is
    neither finished nor held by one of these threads is in the queue of
    the executor, which it leaves only when an idle thread takes it
    ([step_take]). *)
Theorem clone_repos_bounds_concurrency {Env : Type} `{Collaborators Env}
    (repos : list string) (cfg : Config) (w : World Env) (s : state Env) :
  (1 ≤ n_threads cfg)%Z →
  reachable (clone_repos_init repos cfg w) s →
  (Z.of_nat (running s) ≤ n_threads cfg)%Z
  ∧ (Z.of_nat (length (st_workers s)) ≤ n_threads cfg)%Z
  ∧ ∀ fut repo, st_futures s !! fut = Some (repo, Pending) →
                held s fut ∨ queued s fut.
Proof.
  intros Hn Hs. apply pool_inv_reachable in Hs as Hpool.
  assert (Z.of_nat (length (st_workers s)) ≤ n_threads cfg)%Z as Hlen.
  { pose proof (inv_threads _ _ Hpool) as Hth.
    destruct (entered (st_main s)) eqn:Hent.
    - destruct (inv_max_workers _ _ Hpool Hent) as [Hmx _]. lia.
    - destruct (inv_fresh _ _ Hpool Hent) as (_ & _ & -> & _). cbn. lia. }
  split_and!; [|done|].
  - pose proof (running_le_threads s). lia.
  - intros fut repo Hlk. destruct (inv_pending _ _ Hpool _ _ Hlk); auto.
Qed.

(** C2.  [repos !! bad] is the one repository whose clone fails at every
    attempt; the clones of the others succeed.  Then every run of
    [clone_repos] is finite; it cannot stop before the main thread has
    left [clone_repos] by its end, and never by an exception; and at
    that end nothing runs any more, every other future holds the name
    its call returned, after a [git clone] that exited with 0, the
    future of [repos !! bad] holds the [RuntimeError] of
    [run_git_clone], and the only line printed for a failed future is
    the one of [repos !! bad]. *)
Theorem clone_repos_isolates_failure {Env : Type} `{Collaborators Env}
    (repos : list string) (cfg : Config) (w : World Env)
    (bad : nat) (bad_repo : string) :
  repos !! bad = Some bad_repo →
  (∀ e : Env,
     (shell_run (clone_command bad_repo (directory cfg) (repo_name_of bad_repo)) e).1
     ≠ 0%Z) →
  (∀ j repo, repos !! j = Some repo → j ≠ bad →
     ∀ e : Env,
       (shell_run (clone_command repo (directory cfg) (repo_name_of repo)) e).1 = 0%Z) →
  path_exists (directory cfg) (env w) = false →
  (makedirs (directory cfg) (env w)).1 = Ok tt →
  (1 ≤ n_threads cfg)%Z →
  (∀ n s, nsteps step n (clone_repos_init repos cfg w) s → n ≤ 3 + 10 * length repos)
  ∧ (∀ s, reachable (clone_repos_init repos cfg w) s → st_main s = MDone ∨ red step s)
  ∧ (∀ s, reachable (clone_repos_init repos cfg w) s → st_main s = MDone →
       nf step s
       ∧ length (st_futures s) = length repos
       ∧ st_futures s !! bad
         = Some (bad_repo,
                 Finished (Raised (RuntimeError
                                     (clone_failed_msg (repo_name_of bad_repo) 0))))
       ∧ (∀ j repo, repos !! j = Some repo → j ≠ bad →
            st_futures s !! j = Some (repo, Finished (Ok (repo_name_of repo)))
            ∧ EvShell (clone_command repo (directory cfg) (repo_name_of repo)) 0
              ∈ trace (st_world s))
       ∧ generated (trace (st_world s))
         = generated (trace w)
           ++ [EvPrint (OutGenerated bad_repo
                 (RuntimeError (clone_failed_msg (repo_name_of bad_repo) 0)))]).
Proof.
  intros Hbad Hfails Hsucceeds Hfresh Hmk Hn.
  assert (Henter : (clone_repos_enter cfg w).1 = Ok tt)
    by (by rewrite clone_repos_enter_fresh).
  set (fails := λ j : nat, bool_decide (j = bad)).
  assert (Hko : ∀ j repo, repos !! j = Some repo → fails j = true → ∀ e : Env,
            (shell_run (clone_command repo (directory cfg) (repo_name_of repo)) e).1
            ≠ 0%Z).
  { intros j repo Hj ->%bool_decide_eq_true.
    assert (repo = bad_repo) as -> by congruence. apply Hfails. }
  assert (Hok : ∀ j repo, repos !! j = Some repo → fails j = false → ∀ e : Env,
            (shell_run (clone_command repo (directory cfg) (repo_name_of repo)) e).1
            = 0%Z).
  { intros j repo Hj Hne%bool_decide_eq_false. by apply (Hsucceeds j). }
  split_and!.
  - intros n s Hsteps.
    pose proof (nsteps_measure cfg _ _ _ Hsteps (pool_inv_init repos cfg w)) as Hle.
    unfold measure, clone_repos_init in Hle. cbn in Hle.
    unfold item_measure, default_max_retries in Hle.
    change (Z.to_nat 5) with 5 in Hle. lia.
  - intros s Hs.
    destruct (batch_inv_reachable repos cfg fails w Hko Hok Henter s Hs)
      as [Hpool Hbatch].
    destruct (pool_progress _ _ Hpool) as [?|[[e He]|?]]; [by left| |by right].
    pose proof (binv_main _ _ _ _ _ Hbatch) as Hmain.
    unfold main_ok in Hmain. by rewrite He in Hmain.
  - intros s Hs Hdone.
    destruct (batch_done repos cfg fails w Hko Hok Henter s Hs Hdone)
      as (Hrepos & Hall & yielded & Hperm & Hgen).
    split_and!.
    + eapply done_nf; [|done]. by eapply pool_inv_reachable.
    + by rewrite <- Hrepos, length_fmap.
    + destruct (Hall _ _ Hbad) as [-> _]. unfold expected, fails.
      by rewrite bool_decide_eq_true_2.
    + intros j repo Hj Hne. destruct (Hall _ _ Hj) as [-> Htr].
      unfold expected, fails in *. rewrite bool_decide_eq_false_2 in * by done. auto.
    + rewrite Hgen. f_equal. apply failure_lines_single; [done|..].
      * rewrite Hperm. apply NoDup_seq.
      * rewrite Hperm. apply elem_of_seq. apply lookup_lt_Some in Hbad. lia.
Qed.

(** C10.  In every state of every run of [main], the trace splits into
    the events of the listing, none of which is a clone attempt, and
    what came after, which holds no request; when anything came after,
    the listing had returned, all of its events are in the first part,
    and the first event after it is the test of the destination
    directory.  So when the listing returns and the destination exists
    at that moment, the run goes through the whole listing, enters
    [clone_repos] and stops there with [FileExistsError], having sent
    every request of the listing and attempted no clone. *)
Theorem main_lists_before_cloning {Env : Type} `{Collaborators Env}
    (username : string) (cfg : Config) (token : option string) (w : World Env) :
  (∀ s, reachable (main_init username cfg token w) s →
     ∃ pre post,
       trace (st_world s) = trace w ++ pre ++ post
       ∧ attempts pre = [] ∧ requests post = []
       ∧ (post = []
          ∨ ∃ b post' repos w1,
              post = EvPathExists (directory cfg) b :: post'
              ∧ main_listing username token w = (Ok repos, w1)
              ∧ trace w1 = trace w ++ pre))
  ∧ (∀ repos w1,
       main_listing username token w = (Ok repos, w1) →
       path_exists (directory cfg) (env w1) = true →
       reachable (main_init username cfg token w)
         (raised_state (log (EvPathExists (directory cfg) true) w1)
            (FileExistsError ("Directory " +:+ directory cfg +:+ " already exists.")))
       ∧ ∀ s, reachable (main_init username cfg token w) s →
           s = main_init username cfg token w
           ∨ s = clone_repos_init repos cfg w1
           ∨ s = raised_state (log (EvPathExists (directory cfg) true) w1)
                   (FileExistsError
                      ("Directory " +:+ directory cfg +:+ " already exists."))).
Proof.
  split.
  - intros s Hs. apply main_reachable in Hs
      as [->|[(e & w1 & Hlist & ->)|(repos & w1 & Hlist & Hs)]].
    + exists [], []. rewrite !app_nil_r. split_and!; [done..|by left].
    + apply main_listing_events in Hlist as (evs & Htr & Hat).
      exists evs, []. rewrite app_nil_r. split_and!; [done..|by left].
    + pose proof (main_listing_events _ _ _ _ _ Hlist) as (evs & Htr & Hat).
      apply clone_repos_trace in Hs as [->|(b & post & Hpost & Hreq)].
      * exists evs, []. rewrite app_nil_r. split_and!; [done..|by left].
      * exists evs, (EvPathExists (directory cfg) b :: post).
        rewrite Hpost, Htr, <- app_assoc. split_and!; [done..|].
        right. by eexists _, _, _, _.
  - intros repos w1 Hlist Hexists.
    pose proof (clone_repos_enter_exists cfg w1 Hexists) as Henter.
    split.
    + eapply rtc_l; [by eapply step_main_listed|].
      apply rtc_once. by apply step_enter_raised.
    + intros s Hs. apply main_reachable in Hs
        as [->|[(e & w1' & Hlist' & ->)|(repos' & w1' & Hlist' & Hs)]].
      * by left.
      * by rewrite Hlist in Hlist'.
      * rewrite Hlist in Hlist'. injection Hlist' as <- <-.
        right. by destruct (enter_raised_reachable _ _ _ _ _ _ Henter Hs) as [-> | ->];
          [left|right].
Qed.

(** * The claims at concrete inputs *)

(** The account of the specification: without a token only [B] is
    listed, with a token [B] and [C]. *)
Example acme_unauthenticated :
  get_public_repos (H := Sim.collaborators Sim.acme) Sim.nested_calls "acme" None None
    (Sim.world0 [])
  = (Ok ["https://github.com/acme/B.git"],
     mkWorld [] [EvGet Sim.acme_url []
                   (Ok {| status_code := 200;
                          json := Ok [Sim.repo_A; Sim.repo_B; Sim.repo_C];
                          links := [] |})]).
Proof. reflexivity. Qed.

Example acme_authenticated :
  (get_public_repos (H := Sim.collaborators Sim.acme) Sim.nested_calls "acme"
     (Some "t0ken") None (Sim.world0 [])).1
  = Ok ["https://github.com/acme/B.git"; "https://github.com/acme/C.git"].
Proof. reflexivity. Qed.



(** The same two pages when the interpreter has one call left: the
    first page is requested, the call for the second is refused. *)
Example acme_paged_one_call :
  get_public_repos (H := Sim.collaborators Sim.acme_paged) 1 "acme" None None
    (Sim.world0 [])
  = (Raised RecursionError, mkWorld [] [EvGet Sim.acme_url [] (Ok Sim.acme_page_1)]).
Proof. reflexivity. Qed.

Example acme_paged_authenticated :
  (get_public_repos (H := Sim.collaborators Sim.acme_paged) Sim.nested_calls "acme"
     (Some "t0ken") None (Sim.world0 [])).1
  = Ok ["https://github.com/acme/B.git"; "https://github.com/acme/C.git"].
Proof. reflexivity. Qed.



Lemma clone_repos_existing_directory_witness :
  step (H := Sim.collaborators Sim.R2_fails)
    (clone_repos_init [Sim.R1; Sim.R2; Sim.R3] Sim.out_2_threads (Sim.world0 ["out"]))
    (raised_state (mkWorld ["out"] [EvPathExists "out" true])
       (FileExistsError "Directory out already exists."))
  ∧ nf (step (H := Sim.collaborators Sim.R2_fails))
      (raised_state (mkWorld ["out"] [EvPathExists "out" true])
         (FileExistsError "Directory out already exists."))
  ∧ ∀ s, reachable (H := Sim.collaborators Sim.R2_fails)
           (clone_repos_init [Sim.R1; Sim.R2; Sim.R3] Sim.out_2_threads
              (Sim.world0 ["out"])) s →
      (s = clone_repos_init [Sim.R1; Sim.R2; Sim.R3] Sim.out_2_threads (Sim.world0 ["out"])
       ∨ s = raised_state (mkWorld ["out"] [EvPathExists "out" true])
               (FileExistsError "Directory out already exists."))
      ∧ st_futures s = [] ∧ st_queue s = [] ∧ st_workers s = []
      ∧ env (st_world s) = ["out"]
      ∧ attempts (trace (st_world s)) = attempts [].
Proof.
  exact (clone_repos_existing_directory (H := Sim.collaborators Sim.R2_fails)
           [Sim.R1; Sim.R2; Sim.R3] Sim.out_2_threads (Sim.world0 ["out"]) eq_refl).
Defined.

Lemma both_threads_busy_reachable :
  reachable (H := Sim.collaborators Sim.R2_fails)
    (clone_repos_init [Sim.R1; Sim.R2; Sim.R3] Sim.out_2_threads (Sim.world0 []))
    Sim.both_threads_busy.
Proof.
  eapply rtc_l; [by apply step_enter|].
  eapply rtc_l; [eapply step_submit; by apply adjust_start|].
  eapply rtc_l; [by eapply (step_take _ _ _ _ _ _ _ _ _ 0)|].
  eapply rtc_l; [eapply step_submit; by apply adjust_start|].
  eapply rtc_l; [by eapply (step_take _ _ _ _ _ _ _ _ _ 1)|].
  eapply rtc_l; [eapply step_submit; by apply adjust_keep|].
  apply rtc_refl.
Qed.

Lemma clone_repos_bounds_concurrency_witness :
  running Sim.both_threads_busy = 2
  ∧ ((Z.of_nat (running Sim.both_threads_busy) ≤ 2)%Z
     ∧ (Z.of_nat (length (st_workers Sim.both_threads_busy)) ≤ 2)%Z
     ∧ ∀ fut repo, st_futures Sim.both_threads_busy !! fut = Some (repo, Pending) →
                   held Sim.both_threads_busy fut ∨ queued Sim.both_threads_busy fut).
Proof.
  split; [reflexivity|].
  exact (clone_repos_bounds_concurrency (H := Sim.collaborators Sim.R2_fails)
           [Sim.R1; Sim.R2; Sim.R3] Sim.out_2_threads (Sim.world0 [])
           Sim.both_threads_busy ltac:(done) both_threads_busy_reachable).
Defined.

Lemma R2_always_fails (e : list string) :
  (shell_run (Collaborators := Sim.collaborators Sim.R2_fails)
     (clone_command (H := Sim.collaborators Sim.R2_fails) Sim.R2 "out"
        (repo_name_of Sim.R2)) e).1 ≠ 0%Z.
Proof. vm_compute. discriminate. Qed.

Lemma others_always_succeed (j : nat) (repo : string) :
  [Sim.R1; Sim.R2; Sim.R3] !! j = Some repo → j ≠ 1 →
  ∀ e : list string,
    (shell_run (Collaborators := Sim.collaborators Sim.R2_fails)
       (clone_command (H := Sim.collaborators Sim.R2_fails) repo "out"
          (repo_name_of repo)) e).1 = 0%Z.
Proof.
  destruct j as [|[|[|j]]]; intros [= <-] Hne e; solve [done | vm_compute; reflexivity].
Qed.

Lemma clone_repos_isolates_failure_witness :
  (∀ n s, nsteps (step (H := Sim.collaborators Sim.R2_fails)) n
            (clone_repos_init [Sim.R1; Sim.R2; Sim.R3] Sim.out_2_threads (Sim.world0 [])) s →
          n ≤ 3 + 10 * 3)
  ∧ (∀ s, reachable (H := Sim.collaborators Sim.R2_fails)
            (clone_repos_init [Sim.R1; Sim.R2; Sim.R3] Sim.out_2_threads (Sim.world0 [])) s →
          st_main s = MDone ∨ red (step (H := Sim.collaborators Sim.R2_fails)) s)
  ∧ (∀ s, reachable (H := Sim.collaborators Sim.R2_fails)
            (clone_repos_init [Sim.R1; Sim.R2; Sim.R3] Sim.out_2_threads (Sim.world0 [])) s →
          st_main s = MDone →
          nf (step (H := Sim.collaborators Sim.R2_fails)) s
          ∧ length (st_futures s) = 3
          ∧ st_futures s !! 1
            = Some (Sim.R2,
                    Finished (Raised (RuntimeError
                                        (clone_failed_msg (repo_name_of Sim.R2) 0))))
          ∧ (∀ j repo, [Sim.R1; Sim.R2; Sim.R3] !! j = Some repo → j ≠ 1 →
               st_futures s !! j = Some (repo, Finished (Ok (repo_name_of repo)))
               ∧ EvShell (clone_command (H := Sim.collaborators Sim.R2_fails)
                            repo "out" (repo_name_of repo)) 0
                 ∈ trace (st_world s))
          ∧ generated (trace (st_world s))
            = generated []
              ++ [EvPrint (OutGenerated Sim.R2
                    (RuntimeError (clone_failed_msg (repo_name_of Sim.R2) 0)))]).
Proof.
  exact (clone_repos_isolates_failure (H := Sim.collaborators Sim.R2_fails)
           [Sim.R1; Sim.R2; Sim.R3] Sim.out_2_threads (Sim.world0 []) 1 Sim.R2
           eq_refl R2_always_fails others_always_succeed eq_refl eq_refl ltac:(done)).
Defined.

Lemma main_lists_before_cloning_witness :
  reachable (H := Sim.collaborators Sim.acme_paged)
    (main_init "acme" Sim.out_2_threads None (Sim.world0 ["out"]))
    (raised_state
       (mkWorld ["out"]
          [EvGet Sim.acme_url [] (Ok Sim.acme_page_1);
           EvGet Sim.acme_url_2 [] (Ok Sim.acme_page_2);
           EvPathExists "out" true])
       (FileExistsError "Directory out already exists."))
  ∧ ∀ s, reachable (H := Sim.collaborators Sim.acme_paged)
           (main_init "acme" Sim.out_2_threads None (Sim.world0 ["out"])) s →
      s = main_init "acme" Sim.out_2_threads None (Sim.world0 ["out"])
      ∨ s = clone_repos_init ["https://github.com/acme/B.git"] Sim.out_2_threads
              (mkWorld ["out"]
                 [EvGet Sim.acme_url [] (Ok Sim.acme_page_1);
                  EvGet Sim.acme_url_2 [] (Ok Sim.acme_page_2)])
      ∨ s = raised_state
              (mkWorld ["out"]
                 [EvGet Sim.acme_url [] (Ok Sim.acme_page_1);
                  EvGet Sim.acme_url_2 [] (Ok Sim.acme_page_2);
                  EvPathExists "out" true])
              (FileExistsError "Directory out already exists.").
Proof.
  exact (proj2 (main_lists_before_cloning (H := Sim.collaborators Sim.acme_paged)
                  "acme" Sim.out_2_threads None (Sim.world0 ["out"]))
           _ _ eq_refl eq_refl).
Defined.

(** * Further properties *)

(** Retry: when the first [k] attempts fail and the next one succeeds,
    with [k] below the budget, [run_git_clone] returns normally after
    exactly [k + 1] attempts and [k] pauses of five seconds, and makes no
    attempt after the one that succeeded. *)
Theorem run_git_clone_retries_until_success {Env : Type} `{Collaborators Env}
    (fuel : nat) (repo dir repo_name : string) (max_retries : Z) (k : nat)
    (w : World Env) (e : Env) :
  fails_times (clone_command repo dir repo_name) k (env w) e →
  (shell_run (clone_command repo dir repo_name) e).1 = 0%Z →
  (Z.of_nat k < max_retries)%Z →
  k < fuel →
  ∃ evs,
    run_git_clone fuel repo dir repo_name max_retries w
    = Some (Ok tt,
            mkWorld (shell_run (clone_command repo dir repo_name) e).2
              (trace w ++ evs ++ [EvShell (clone_command repo dir repo_name) 0]))
    ∧ length (attempts evs) = k
    ∧ pauses evs = replicate k (EvSleep 5).
Proof.
  intros Hfails. remember (env w) as e0 eqn:Henv. revert fuel max_retries w Henv.
  induction Hfails as [e|k e rc e1 e' Hrun Hrc _ IH]; intros fuel max_retries w ->;
    intros Hok Hk Hfuel.
  - destruct fuel as [|fuel]; [lia|]. cbn [run_git_clone].
    rewrite run_git_clone_iter_succeeds by (done || lia).
    exists []. by rewrite app_nil_l.
  - destruct fuel as [|fuel]; [lia|]. cbn [run_git_clone].
    destruct (run_git_clone_iter_fails repo dir repo_name max_retries w)
      as (rc' & e1' & Hrun' & _ & ->); [lia|by rewrite Hrun|].
    rewrite Hrun in Hrun'. injection Hrun' as <- <-.
    destruct (IH fuel (max_retries - 1)%Z
                (mkWorld e1 (trace w ++ failed_attempt
                               (clone_command repo dir repo_name) repo_name rc)))
      as (evs & -> & Hlen & Hsl); [done|done|lia|lia|].
    exists (failed_attempt (clone_command repo dir repo_name) repo_name rc ++ evs).
    cbn [trace]. rewrite <- !app_assoc. split_and!; [done|..].
    + by rewrite attempts_app, attempts_failed_attempt, length_app, Hlen.
    + by rewrite pauses_app, pauses_failed_attempt, Hsl.
Qed.

Lemma flaky_fails_twice :
  fails_times (H := Sim.flaky 2)
    (clone_command (H := Sim.flaky 2) Sim.R1 "out" "R1") 2 0 2.
Proof.
  eapply fails_times_S; [reflexivity|done|].
  eapply fails_times_S; [reflexivity|done|].
  apply fails_times_O.
Qed.

Lemma run_git_clone_retries_until_success_witness :
  ∃ evs,
    run_git_clone (H := Sim.flaky 2) 6 Sim.R1 "out" "R1" 5 (mkWorld 0 [])
    = Some (Ok tt,
            mkWorld 3
              ([] ++ evs
                  ++ [EvShell "git clone https://github.com/acme/R1.git out/R1/ > /dev/null 2>&1" 0]))
    ∧ length (attempts evs) = 2
    ∧ pauses evs = replicate 2 (EvSleep 5).
Proof.
  exact (run_git_clone_retries_until_success (H := Sim.flaky 2) 6 Sim.R1 "out" "R1" 5 2
           (mkWorld 0 []) 2 flaky_fails_twice eq_refl ltac:(done) ltac:(lia)).
Defined.

(** Termination: whatever [git] does, a run of [clone_repos] on [M]
    repositories makes at most [3 + 10 * M] steps: every call of
    [clone_repo] ends, after five failed attempts at the latest. *)
Theorem clone_repos_terminates {Env : Type} `{Collaborators Env}
    (repos : list string) (cfg : Config) (w : World Env) (n : nat) (s : state Env) :
  nsteps step n (clone_repos_init repos cfg w) s →
  n ≤ 3 + 10 * length repos.
Proof.
  intros Hsteps.
  pose proof (nsteps_measure cfg _ _ _ Hsteps (pool_inv_init repos cfg w)) as Hle.
  unfold measure, clone_repos_init in Hle. cbn in Hle.
  unfold item_measure, default_max_retries in Hle.
  change (Z.to_nat 5) with 5 in Hle. lia.
Qed.

Lemma both_threads_busy_steps :
  nsteps (step (H := Sim.collaborators Sim.R2_fails)) 6
    (clone_repos_init [Sim.R1; Sim.R2; Sim.R3] Sim.out_2_threads (Sim.world0 []))
    Sim.both_threads_busy.
Proof.
  eapply nsteps_l; [by apply step_enter|].
  eapply nsteps_l; [eapply step_submit; by apply adjust_start|].
  eapply nsteps_l; [by eapply (step_take _ _ _ _ _ _ _ _ _ 0)|].
  eapply nsteps_l; [eapply step_submit; by apply adjust_start|].
  eapply nsteps_l; [by eapply (step_take _ _ _ _ _ _ _ _ _ 1)|].
  eapply nsteps_l; [eapply step_submit; by apply adjust_keep|].
  apply nsteps_O.
Qed.

Lemma clone_repos_terminates_witness : 6 ≤ 3 + 10 * 3.
Proof.
  exact (clone_repos_terminates (H := Sim.collaborators Sim.R2_fails)
           [Sim.R1; Sim.R2; Sim.R3] Sim.out_2_threads (Sim.world0 []) 6
           Sim.both_threads_busy both_threads_busy_steps).
Defined.

Lemma submitted_step {Env : Type} `{Collaborators Env} repos (s s' : state Env) :
  step s s' → submitted repos s → submitted repos s'.
Proof.
  unfold submitted. intros Hstep Hsub.
  destruct Hstep; cbn in *; try done.
  - by destruct Hsub as [-> _].
  - by rewrite fmap_app, <- app_assoc.
  - by rewrite app_nil_r in Hsub.
  - destruct pc; rewrite ?fmap_fst_alter; try done.
    + by destruct Hsub as [-> ->].
    + by rewrite Hsub.
  - destruct pc; rewrite ?fmap_fst_alter; try done.
    + by destruct Hsub as [-> ->].
    + by rewrite Hsub.
Qed.

(** No task is abandoned: a run of [clone_repos] that cannot go on has
    either raised before the pool existed, with no future created, or
    returned with one future for each repository, every one of them
    finished; in any other state some thread can make a step. *)
Theorem clone_repos_runs_to_completion {Env : Type} `{Collaborators Env}
    (repos : list string) (cfg : Config) (w : World Env) (s : state Env) :
  reachable (clone_repos_init repos cfg w) s →
  red step s
  ∨ (nf step s ∧ ∃ e, st_main s = MRaised e ∧ st_futures s = [] ∧ st_workers s = [])
  ∨ (nf step s ∧ st_main s = MDone
     ∧ (st_futures s).*1 = repos
     ∧ ∀ fut, fut < length repos → finished s fut).
Proof.
  intros Hs. pose proof (pool_inv_reachable _ _ _ _ Hs) as Hpool.
  assert (submitted repos s) as Hsub.
  { revert s Hs Hpool. apply (rtc_ind_r (λ s, pool_inv cfg s → submitted repos s)).
    - done.
    - intros s1 s2 Hs1 Hstep IH _. eapply submitted_step; [done|].
      apply IH. by eapply pool_inv_reachable. }
  destruct (pool_progress _ _ Hpool) as [Hdone|[[e He]|Hred]]; [| |by auto].
  - right. right. unfold submitted in Hsub. rewrite Hdone in Hsub.
    split_and!; [by eapply done_nf|done..|].
    intros fut Hlt. destruct (inv_done _ _ Hpool Hdone) as [Hq Hall].
    rewrite <- Hsub, length_fmap in Hlt.
    apply lookup_lt_is_Some_2 in Hlt as [[repo [|r]] Hlk]; [|by eexists _, _].
    destruct (inv_pending _ _ Hpool _ _ Hlk) as [(r & d & Hin)|(i & wk & Hi & Hf)].
    + rewrite Hq in Hin. by apply elem_of_nil in Hin.
    + by pose proof (Forall_lookup_1 _ _ _ _ Hall Hi) as ->.
  - right. left. destruct (inv_fresh _ _ Hpool) as (Hf & Hq & Hw & Hm);
      [by rewrite He|].
    split; [|by eauto].
    destruct s as [w' pc futs q ws mx]; cbn in *; subst. apply raised_state_nf.
Qed.

Lemma clone_repos_runs_to_completion_witness :
  red (step (H := Sim.collaborators Sim.R2_fails)) Sim.both_threads_busy
  ∨ (nf (step (H := Sim.collaborators Sim.R2_fails)) Sim.both_threads_busy
     ∧ ∃ e, st_main Sim.both_threads_busy = MRaised e
            ∧ st_futures Sim.both_threads_busy = []
            ∧ st_workers Sim.both_threads_busy = [])
  ∨ (nf (step (H := Sim.collaborators Sim.R2_fails)) Sim.both_threads_busy
     ∧ st_main Sim.both_threads_busy = MDone
     ∧ (st_futures Sim.both_threads_busy).*1 = [Sim.R1; Sim.R2; Sim.R3]
     ∧ ∀ fut, fut < length [Sim.R1; Sim.R2; Sim.R3] → finished Sim.both_threads_busy fut).
Proof.
  exact (clone_repos_runs_to_completion (H := Sim.collaborators Sim.R2_fails)
           [Sim.R1; Sim.R2; Sim.R3] Sim.out_2_threads (Sim.world0 [])
           Sim.both_threads_busy both_threads_busy_reachable).
Defined.

(** A token file that does not exist stops [main] at once with
    [FileNotFoundError]: nothing is listed and nothing is cloned. *)
Theorem main_missing_token_file {Env : Type} `{Collaborators Env}
    (username : string) (cfg : Config) (t : string) (w : World Env) (s : state Env) :
  t ≠ EmptyString → t ≠ "#ENV" →
  path_exists t (env w) = false →
  reachable (main_init username cfg (Some t) w) s →
  s = main_init username cfg (Some t) w
  ∨ s = raised_state (log (EvPathExists t false) w)
          (FileNotFoundError ("Could not find file " +:+ t +:+ ".")).
Proof.
  intros Hne Henv Hmissing Hs.
  assert (Hlist : main_listing username (Some t) w
            = (Raised (FileNotFoundError ("Could not find file " +:+ t +:+ ".")),
               log (EvPathExists t false) w)).
  { unfold main_listing, load_token, os_path_exists.
    assert (PyStr.truthy_opt (Some t) = true) as -> by (by destruct t).
    destruct (String.eqb_spec t "#ENV") as [Heq|_]; [done|].
    by rewrite Hmissing. }
  apply main_reachable in Hs
    as [->|[(e & w1 & Hlist' & ->)|(repos & w1 & Hlist' & _)]].
  - by left.
  - right. rewrite Hlist in Hlist'. by injection Hlist' as <- <-.
  - by rewrite Hlist in Hlist'.
Qed.

Lemma main_missing_token_file_witness :
  raised_state (mkWorld [] [EvPathExists "token.txt" false])
    (FileNotFoundError "Could not find file token.txt.")
  = main_init "acme" Sim.out_2_threads (Some "token.txt") (Sim.world0 [])
  ∨ raised_state (mkWorld [] [EvPathExists "token.txt" false])
      (FileNotFoundError "Could not find file token.txt.")
    = raised_state (log (EvPathExists "token.txt" false) (Sim.world0 []))
        (FileNotFoundError ("Could not find file " +:+ "token.txt" +:+ ".")).
Proof.
  refine (main_missing_token_file (H := Sim.collaborators Sim.acme)
            "acme" Sim.out_2_threads "token.txt" (Sim.world0 []) _
            ltac:(done) ltac:(done) eq_refl _).
  apply rtc_once. by eapply step_main_raised.
Defined.

(** With [n_threads <= 0] the constructor of the pool raises
    [ValueError], after the destination directory has been created:
    [clone_repos] leaves an empty directory behind and clones nothing. *)
Theorem clone_repos_no_threads {Env : Type} `{Collaborators Env}
    (repos : list string) (cfg : Config) (w : World Env) (s : state Env) :
  (n_threads cfg ≤ 0)%Z →
  path_exists (directory cfg) (env w) = false →
  (makedirs (directory cfg) (env w)).1 = Ok tt →
  reachable (clone_repos_init repos cfg w) s →
  s = clone_repos_init repos cfg w
  ∨ s = raised_state
          (mkWorld (makedirs (directory cfg) (env w)).2
             (trace w ++ [EvPathExists (directory cfg) false;
                          EvMakedirs (directory cfg) (Ok tt)]))
          (ValueError "max_workers must be greater than 0").
Proof.
  intros Hn Hfresh Hmk. apply enter_raised_reachable.
  unfold clone_repos_enter, os_path_exists, os_makedirs. cbn. rewrite Hfresh.
  destruct (makedirs _ _) as [r e']. cbn in *. subst r.
  destruct (Z.leb_spec (n_threads cfg) 0); [|lia]. by rewrite <- app_assoc.
Qed.

Lemma clone_repos_no_threads_witness :
  raised_state (mkWorld ["out"] [EvPathExists "out" false; EvMakedirs "out" (Ok tt)])
    (ValueError "max_workers must be greater than 0")
  = clone_repos_init [Sim.R1] (mkConfig "out" false 0) (Sim.world0 [])
  ∨ raised_state (mkWorld ["out"] [EvPathExists "out" false; EvMakedirs "out" (Ok tt)])
      (ValueError "max_workers must be greater than 0")
    = raised_state
        (mkWorld ["out"] ([] ++ [EvPathExists "out" false; EvMakedirs "out" (Ok tt)]))
        (ValueError "max_workers must be greater than 0").
Proof.
  refine (clone_repos_no_threads (H := Sim.collaborators Sim.R2_fails)
            [Sim.R1] (mkConfig "out" false 0) (Sim.world0 []) _
            ltac:(done) eq_refl eq_refl _).
  apply rtc_once. by apply step_enter_raised.
Defined.

(** An empty token is not [None]: no [Authorization] header is sent, as
    for a request without credential, and yet the private repositories
    are not filtered out. *)
Theorem get_public_repos_empty_token (response_json : list Repo) :
  auth_headers (Some EmptyString) = auth_headers None
  ∧ page_repo_urls (Some EmptyString) response_json
    = clone_url <$> filter (λ repo, fork repo = false) response_json
  ∧ page_repo_urls None response_json
    = clone_url <$> filter (λ repo, private repo = false)
                      (filter (λ repo, fork repo = false) response_json).
Proof. done. Qed.

(** What a listing returns are the urls of received objects that are
    not forks, in the order received; when [pat_token] is [None] the
    private ones are left out as well, and for every other value of
    [pat_token], the empty string too, every object that is not a fork
    is kept, private or not. *)
Theorem get_public_repos_filters {Env : Type} `{Collaborators Env}
    (depth : nat) (username : string) (pat_token page_url : option string)
    (w w' : World Env) (urls : list string) :
  get_public_repos depth username pat_token page_url w = (Ok urls, w') →
  ∃ evs kept,
    trace w' = trace w ++ evs ∧
    urls = clone_url <$> kept ∧
    kept `sublist_of` fetched evs ∧
    Forall (λ repo, fork repo = false ∧ (pat_token = None → private repo = false)) kept ∧
    (pat_token ≠ None → kept = filter (λ repo, fork repo = false) (fetched evs)).
Proof.
  intros (evs & Htr & -> & _)%get_public_repos_ok.
  unfold page_repo_urls. destruct pat_token as [t|].
  - exists evs, (filter (λ repo, fork repo = false) (fetched evs)).
    split_and!; [done..|apply sublist_filter| |done].
    apply Forall_forall. intros repo [Hf _]%list_elem_of_filter. done.
  - exists evs, (filter (λ repo, private repo = false)
                   (filter (λ repo, fork repo = false) (fetched evs))).
    split_and!; [done..| | |done].
    + etrans; apply sublist_filter.
    + apply Forall_forall.
      intros repo [Hp [Hf _]%list_elem_of_filter]%list_elem_of_filter. done.
Qed.

Lemma get_public_repos_filters_witness :
  ∃ evs kept,
    [EvGet Sim.acme_url []
       (Ok {| status_code := 200;
              json := Ok [Sim.repo_A; Sim.repo_B; Sim.repo_C];
              links := [] |})]
    = [] ++ evs ∧
    ["https://github.com/acme/B.git"] = clone_url <$> kept ∧
    kept `sublist_of` fetched evs ∧
    Forall (λ repo, fork repo = false ∧ (@None string = None → private repo = false)) kept ∧
    (@None string ≠ None → kept = filter (λ repo, fork repo = false) (fetched evs)).
Proof.
  exact (get_public_repos_filters (H := Sim.collaborators Sim.acme) Sim.nested_calls
           "acme" None None (Sim.world0 []) _ _ eq_refl).
Defined.

(** Isolation in general: when each clone either always fails or always
    succeeds, [clone_repos] never raises, and when it has returned every
    future holds the outcome of its own repository, whatever the others
    did: the name for a clone that succeeds, the [RuntimeError] for one
    that fails.  The lines printed for failed futures are those of the
    failing repositories, one each, in the order [as_completed] yielded
    them. *)
Theorem clone_repos_isolation {Env : Type} `{Collaborators Env}
    (repos : list string) (cfg : Config) (w : World Env) (fails : nat → bool) :
  (∀ j repo, repos !! j = Some repo → fails j = true →
     ∀ e : Env,
       (shell_run (clone_command repo (directory cfg) (repo_name_of repo)) e).1 ≠ 0%Z) →
  (∀ j repo, repos !! j = Some repo → fails j = false →
     ∀ e : Env,
       (shell_run (clone_command repo (directory cfg) (repo_name_of repo)) e).1 = 0%Z) →
  path_exists (directory cfg) (env w) = false →
  (makedirs (directory cfg) (env w)).1 = Ok tt →
  (1 ≤ n_threads cfg)%Z →
  (∀ s e, reachable (clone_repos_init repos cfg w) s → st_main s ≠ MRaised e)
  ∧ (∀ s, reachable (clone_repos_init repos cfg w) s → st_main s = MDone →
       (∀ j repo, repos !! j = Some repo →
          st_futures s !! j
          = Some (repo,
                  Finished
                    (if fails j
                     then Raised (RuntimeError (clone_failed_msg (repo_name_of repo) 0))
                     else Ok (repo_name_of repo))))
       ∧ ∃ yielded,
           yielded ≡ₚ seq 0 (length repos)
           ∧ generated (trace (st_world s))
             = generated (trace w) ++ failure_lines repos fails yielded).
Proof.
  intros Hko Hok Hfresh Hmk Hn.
  assert (Henter : (clone_repos_enter cfg w).1 = Ok tt)
    by (by rewrite clone_repos_enter_fresh).
  split.
  - intros s e Hs He.
    destruct (batch_inv_reachable repos cfg fails w Hko Hok Henter s Hs) as [_ Hbatch].
    pose proof (binv_main _ _ _ _ _ Hbatch) as Hmain.
    unfold main_ok in Hmain. by rewrite He in Hmain.
  - intros s Hs Hdone.
    destruct (batch_done repos cfg fails w Hko Hok Henter s Hs Hdone)
      as (_ & Hall & Hgen).
    split; [|done]. intros j repo Hj. by destruct (Hall _ _ Hj) as [-> _].
Qed.

(** A complete run of the specification's scenario, in which the second
    thread is started while the first is busy and the third call waits
    for the first thread. *)
Lemma spec_scenario_run :
  reachable (H := Sim.collaborators Sim.git_works)
    (clone_repos_init [Sim.R1; Sim.R2; Sim.R3] Sim.out_2_threads (Sim.world0 []))
    Sim.all_cloned.
Proof.
  eapply rtc_l; [by apply step_enter|].
  eapply rtc_l; [eapply step_submit; by apply adjust_start|].
  eapply rtc_l; [by eapply (step_take _ _ _ _ _ _ _ _ _ 0)|].
  eapply rtc_l; [eapply step_submit; by apply adjust_start|].
  eapply rtc_l; [by eapply (step_take _ _ _ _ _ _ _ _ _ 1)|].
  eapply rtc_l; [eapply step_submit; by apply adjust_keep|].
  eapply rtc_l; [apply step_submitted|].
  eapply rtc_l; [by eapply (step_clone_repo _ _ _ _ _ _ 0)|].
  eapply rtc_l; [by eapply (step_iter_return _ _ _ _ _ _ 0)|].
  eapply rtc_l; [by eapply (step_clone_repo _ _ _ _ _ _ 1)|].
  eapply rtc_l; [by eapply (step_iter_return _ _ _ _ _ _ 1)|].
  eapply rtc_l; [by eapply (step_take _ _ _ _ _ _ _ _ _ 0)|].
  eapply rtc_l; [by eapply (step_clone_repo _ _ _ _ _ _ 0)|].
  eapply rtc_l; [by eapply (step_iter_return _ _ _ _ _ _ 0)|].
  eapply rtc_l; [by eapply (step_yield_ok _ [0] 1 [2])|].
  eapply rtc_l; [by eapply (step_yield_ok _ [0] 2 [])|].
  eapply rtc_l; [by eapply (step_yield_ok _ [] 0 [])|].
  eapply rtc_l; [apply step_exit; by repeat constructor|].
  apply rtc_refl.
Qed.

Lemma git_works_never_fails (j : nat) (repo : string) :
  [Sim.R1; Sim.R2; Sim.R3] !! j = Some repo → (λ _ : nat, false) j = true →
  ∀ e : list string,
    (shell_run (Collaborators := Sim.collaborators Sim.git_works)
       (clone_command (H := Sim.collaborators Sim.git_works) repo "out"
          (repo_name_of repo)) e).1 ≠ 0%Z.
Proof. done. Qed.

Lemma git_works_always (j : nat) (repo : string) :
  [Sim.R1; Sim.R2; Sim.R3] !! j = Some repo → (λ _ : nat, false) j = false →
  ∀ e : list string,
    (shell_run (Collaborators := Sim.collaborators Sim.git_works)
       (clone_command (H := Sim.collaborators Sim.git_works) repo "out"
          (repo_name_of repo)) e).1 = 0%Z.
Proof. done. Qed.

(** The three repositories when [git] cannot clone the second. *)
Lemma R2_fails_marked (j : nat) (repo : string) :
  [Sim.R1; Sim.R2; Sim.R3] !! j = Some repo → bool_decide (j = 1) = true →
  ∀ e : list string,
    (shell_run (Collaborators := Sim.collaborators Sim.R2_fails)
       (clone_command (H := Sim.collaborators Sim.R2_fails) repo "out"
          (repo_name_of repo)) e).1 ≠ 0%Z.
Proof.
  intros Hj ->%bool_decide_eq_true e. injection Hj as <-. apply R2_always_fails.
Qed.

Lemma R2_fails_unmarked (j : nat) (repo : string) :
  [Sim.R1; Sim.R2; Sim.R3] !! j = Some repo → bool_decide (j = 1) = false →
  ∀ e : list string,
    (shell_run (Collaborators := Sim.collaborators Sim.R2_fails)
       (clone_command (H := Sim.collaborators Sim.R2_fails) repo "out"
          (repo_name_of repo)) e).1 = 0%Z.
Proof.
  intros Hj Hne%bool_decide_eq_false. by eapply others_always_succeed.
Qed.

Lemma clone_repos_isolation_witness :
  (∀ s e, reachable (H := Sim.collaborators Sim.R2_fails)
            (clone_repos_init [Sim.R1; Sim.R2; Sim.R3] Sim.out_2_threads (Sim.world0 [])) s →
          st_main s ≠ MRaised e)
  ∧ (∀ s, reachable (H := Sim.collaborators Sim.R2_fails)
            (clone_repos_init [Sim.R1; Sim.R2; Sim.R3] Sim.out_2_threads (Sim.world0 [])) s →
          st_main s = MDone →
          (∀ j repo, [Sim.R1; Sim.R2; Sim.R3] !! j = Some repo →
             st_futures s !! j
             = Some (repo,
                     Finished
                       (if bool_decide (j = 1)
                        then Raised (RuntimeError (clone_failed_msg (repo_name_of repo) 0))
                        else Ok (repo_name_of repo))))
          ∧ ∃ yielded,
              yielded ≡ₚ seq 0 3
              ∧ generated (trace (st_world s))
                = generated []
                  ++ failure_lines [Sim.R1; Sim.R2; Sim.R3]
                       (λ j, bool_decide (j = 1)) yielded).
Proof.
  exact (clone_repos_isolation (H := Sim.collaborators Sim.R2_fails)
           [Sim.R1; Sim.R2; Sim.R3] Sim.out_2_threads (Sim.world0 [])
           (λ j, bool_decide (j = 1))
           R2_fails_marked R2_fails_unmarked eq_refl eq_refl ltac:(done)).
Defined.

(** The scenario of the specification: the destination does not exist,
    two threads, repositories [R1], [R2], [R3], and a [git] that always
    succeeds.  The run can be completed, and however the threads
    interleave, when [clone_repos] has returned the three futures hold
    the three names and no line was printed for a failed future. *)
Theorem spec_scenario_three_successes :
  reachable (H := Sim.collaborators Sim.git_works)
    (clone_repos_init [Sim.R1; Sim.R2; Sim.R3] Sim.out_2_threads (Sim.world0 []))
    Sim.all_cloned
  ∧ ∀ s, reachable (H := Sim.collaborators Sim.git_works)
           (clone_repos_init [Sim.R1; Sim.R2; Sim.R3] Sim.out_2_threads
              (Sim.world0 [])) s →
         st_main s = MDone →
         st_futures s = st_futures Sim.all_cloned
         ∧ generated (trace (st_world s)) = [].
Proof.
  split; [apply spec_scenario_run|]. intros s Hs Hdone.
  destruct (batch_done (H := Sim.collaborators Sim.git_works)
              [Sim.R1; Sim.R2; Sim.R3] Sim.out_2_threads (λ _, false) (Sim.world0 [])
              git_works_never_fails git_works_always eq_refl s Hs Hdone)
    as (Hrepos & Hall & yielded & _ & Hgen).
  split.
  - destruct (Hall 0 _ eq_refl) as [H0 _], (Hall 1 _ eq_refl) as [H1 _],
      (Hall 2 _ eq_refl) as [H2 _].
    destruct (st_futures s) as [|f0 [|f1 [|f2 [|f3 futs]]]]; simplify_eq/=. done.
  - rewrite Hgen. by rewrite failure_lines_never.
Qed.

(** * The rest of the program

    Properties of the code that hold whatever the collaborators do:
    the strings [clone_repo] and [main] compute, the loop of
    [run_git_clone] in full, the requests of a listing, and the accounts
    of a run of [clone_repos]. *)

(** ** Strings *)

Section Strings.

Implicit Types (s t : string) (c sep : ascii).

Lemma str_app_cons c s t : String c s +:+ t = String c (s +:+ t).
Proof. reflexivity. Qed.

Lemma str_app_nil_l s : EmptyString +:+ s = s.
Proof. reflexivity. Qed.

Lemma str_app_nil_r s : s +:+ EmptyString = s.
Proof. induction s as [|c s IH]; [done|]. by rewrite str_app_cons, IH. Qed.

Lemma str_app_assoc s1 s2 s3 : (s1 +:+ s2) +:+ s3 = s1 +:+ (s2 +:+ s3).
Proof. induction s1 as [|c s1 IH]; [done|]. by rewrite !str_app_cons, IH. Qed.

Lemma rev_app_eq s1 s2 : String.rev_app s1 s2 = String.rev s1 +:+ s2.
Proof.
  unfold String.rev. revert s2. induction s1 as [|c s1 IH]; intros s2; [done|].
  cbn [String.rev_app]. rewrite IH, (IH (String c EmptyString)).
  by rewrite str_app_assoc.
Qed.

Lemma str_rev_cons c s : String.rev (String c s) = String.rev s +:+ String c EmptyString.
Proof. unfold String.rev at 1. cbn [String.rev_app]. by rewrite rev_app_eq. Qed.

Lemma str_rev_app s1 s2 : String.rev (s1 +:+ s2) = String.rev s2 +:+ String.rev s1.
Proof.
  induction s1 as [|c s1 IH].
  - by rewrite str_app_nil_l, str_app_nil_r.
  - by rewrite str_app_cons, !str_rev_cons, IH, str_app_assoc.
Qed.

Lemma str_rev_involutive s : String.rev (String.rev s) = s.
Proof.
  induction s as [|c s IH]; [done|].
  by rewrite str_rev_cons, str_rev_app, IH.
Qed.

(** *** split *)

Lemma split_not_nil sep s : PyStr.split sep s ≠ [].
Proof.
  destruct s as [|c s]; cbn; [done|].
  destruct (Ascii.eqb c sep); [done|]. by destruct (PyStr.split sep s).
Qed.

Lemma split_app sep s1 s2 :
  PyStr.split sep (s1 +:+ String sep s2) = PyStr.split sep s1 ++ PyStr.split sep s2.
Proof.
  induction s1 as [|c s1 IH].
  - rewrite str_app_nil_l. cbn. by rewrite Ascii.eqb_refl.
  - rewrite str_app_cons. cbn. rewrite IH. destruct (Ascii.eqb c sep); [done|].
    pose proof (split_not_nil sep s1). by destruct (PyStr.split sep s1).
Qed.

Lemma prefix_cons a s1 b s2 :
  String.prefix (String a s1) (String b s2)
  = if ascii_dec a b then String.prefix s1 s2 else false.
Proof. reflexivity. Qed.

Lemma prefix_char sep c s :
  String.prefix (String sep EmptyString) (String c s) = bool_decide (sep = c).
Proof.
  rewrite prefix_cons. destruct (ascii_dec sep c).
  - rewrite bool_decide_eq_true_2 by done. by destruct s.
  - by rewrite bool_decide_eq_false_2.
Qed.

Lemma contains_char_cons sep c s :
  PyStr.contains (String sep EmptyString) (String c s)
  = bool_decide (sep = c) || PyStr.contains (String sep EmptyString) s.
Proof. cbn [PyStr.contains]. by rewrite prefix_char. Qed.

Lemma split_single sep s :
  PyStr.contains (String sep EmptyString) s = false → PyStr.split sep s = [s].
Proof.
  induction s as [|c s IH]; [done|]. rewrite contains_char_cons.
  intros [Hc Hs]%orb_false_iff. apply bool_decide_eq_false in Hc.
  cbn. destruct (Ascii.eqb_spec c sep); [congruence|]. by rewrite IH.
Qed.

Lemma split_segments sep s :
  Forall (λ seg, PyStr.contains (String sep EmptyString) seg = false) (PyStr.split sep s).
Proof.
  induction s as [|c s IH]; cbn; [by repeat constructor|].
  destruct (Ascii.eqb_spec c sep) as [->|Hne]; [by constructor|].
  pose proof (split_not_nil sep s). destruct (PyStr.split sep s) as [|x xs]; [done|].
  apply Forall_cons in IH as [Hx Hxs]. constructor; [|done].
  rewrite contains_char_cons, Hx. by rewrite bool_decide_eq_false_2.
Qed.

Lemma last_item_split_app sep s1 s2 :
  PyStr.last_item (PyStr.split sep (s1 +:+ String sep s2))
  = PyStr.last_item (PyStr.split sep s2).
Proof.
  unfold PyStr.last_item. rewrite split_app, last_app.
  pose proof (split_not_nil sep s2).
  destruct (last (PyStr.split sep s2)) eqn:Hlast; [done|].
  by apply last_None in Hlast.
Qed.

(** *** replace *)

Lemma contains_cons sub c s :
  PyStr.contains sub (String c s) = false →
  String.prefix sub (String c s) = false ∧ PyStr.contains sub s = false.
Proof. cbn [PyStr.contains]. by intros [? ?]%orb_false_iff. Qed.

Lemma replace_go_absent old new s :
  PyStr.contains old s = false → PyStr.replace_go old new 0 s = s.
Proof.
  induction s as [|c s IH]; [done|].
  intros [Hp Hs]%contains_cons. cbn [PyStr.replace_go]. rewrite Hp. by rewrite IH.
Qed.

Lemma prefix_git_straddle s :
  s ≠ EmptyString → PyStr.contains ".git" s = false →
  String.prefix ".git" (s +:+ ".git") = false.
Proof.
  intros Hne Hs. destruct s as [|c1 s]; [done|]. clear Hne.
  apply contains_cons in Hs as [Hp _].
  rewrite str_app_cons. rewrite prefix_cons in *.
  destruct (ascii_dec "." c1); [|done].
  destruct s as [|c2 s]; [done|]. rewrite str_app_cons. rewrite prefix_cons in *.
  destruct (ascii_dec "g" c2); [|done].
  destruct s as [|c3 s]; [done|]. rewrite str_app_cons. rewrite prefix_cons in *.
  destruct (ascii_dec "i" c3); [|done].
  destruct s as [|c4 s]; [done|]. rewrite str_app_cons. rewrite prefix_cons in *.
  destruct (ascii_dec "t" c4); [|done]. by destruct s.
Qed.

Lemma replace_go_git_suffix stem :
  PyStr.contains ".git" stem = false →
  PyStr.replace_go ".git" EmptyString 0 (stem +:+ ".git") = stem.
Proof.
  induction stem as [|c stem IH]; [done|]. intros Hs.
  pose proof (prefix_git_straddle (String c stem) ltac:(done) Hs) as Hp.
  apply contains_cons in Hs as [_ Hs].
  rewrite str_app_cons in *. cbn [PyStr.replace_go]. rewrite Hp. by rewrite IH.
Qed.

Lemma replace_go_keeps_absent sep old k s :
  PyStr.contains (String sep EmptyString) s = false →
  PyStr.contains (String sep EmptyString) (PyStr.replace_go old EmptyString k s) = false.
Proof.
  revert k. induction s as [|c s IH]; intros k; [by destruct k|].
  rewrite contains_char_cons. intros [Hc Hs]%orb_false_iff.
  cbn [PyStr.replace_go]. destruct k as [|k]; [|by apply IH].
  destruct (String.prefix old (String c s)).
  - rewrite str_app_nil_l. by apply IH.
  - rewrite contains_char_cons, Hc. by apply IH.
Qed.

(** *** strip *)

Lemma str_length_app s t : String.length (s +:+ t) = String.length s + String.length t.
Proof. induction s as [|c s IH]; [done|]. rewrite str_app_cons. cbn. by rewrite IH. Qed.

Lemma drop_prefix_Some p s s' : PyStr.drop_prefix p s = Some s' ↔ s = p +:+ s'.
Proof.
  revert s. induction p as [|a p IH]; intros s.
  - rewrite str_app_nil_l. cbn. split; congruence.
  - rewrite str_app_cons. destruct s as [|b s]; cbn; [done|].
    destruct (Ascii.eqb_spec a b) as [->|Hne].
    + rewrite IH. split; congruence.
    + split; [done|]. congruence.
Qed.

Lemma drop_first_Some pats s s' :
  PyStr.drop_first pats s = Some s' → ∃ p, p ∈ pats ∧ s = p +:+ s'.
Proof.
  induction pats as [|p pats IH]; [done|]. cbn.
  destruct (PyStr.drop_prefix p s) as [s0|] eqn:Hp.
  - intros [= ->]. exists p. split; [by left|]. by apply drop_prefix_Some.
  - intros (p' & Hin & ->)%IH. exists p'. split; [by right|done].
Qed.

Lemma drop_first_None pats s p s' :
  PyStr.drop_first pats s = None → p ∈ pats → s ≠ p +:+ s'.
Proof.
  induction pats as [|p0 pats IH]; [by intros _ ?%elem_of_nil|]. cbn.
  destruct (PyStr.drop_prefix p0 s) as [s0|] eqn:Hp; [done|].
  intros Hrest [->|Hin]%elem_of_cons Heq.
  - apply drop_prefix_Some in Heq. congruence.
  - by apply IH.
Qed.

(** What is left is not in the way of what was found: a string that
    starts with none of [pats] has no start that starts with one. *)
Lemma drop_first_None_app pats s t :
  PyStr.drop_first pats (s +:+ t) = None → PyStr.drop_first pats s = None.
Proof.
  intros Hnone. destruct (PyStr.drop_first pats s) as [s'|] eqn:Hs; [|done].
  apply drop_first_Some in Hs as (p & Hin & ->).
  destruct (drop_first_None _ _ p (s' +:+ t) Hnone Hin). apply str_app_assoc.
Qed.

Lemma made_of_app pats s t :
  PyStr.made_of pats s → PyStr.made_of pats t → PyStr.made_of pats (s +:+ t).
Proof.
  induction 1 as [|p s Hin _ IH]; intros Ht; [done|].
  rewrite str_app_assoc. constructor; auto.
Qed.

Lemma made_of_rev pats s :
  PyStr.made_of (String.rev <$> pats) s → PyStr.made_of pats (String.rev s).
Proof.
  induction 1 as [|p s Hin _ IH]; [constructor|].
  apply list_elem_of_fmap in Hin as (p0 & -> & Hin).
  rewrite str_rev_app, str_rev_involutive. apply made_of_app; [done|].
  rewrite <- (str_app_nil_r p0). constructor; [done|constructor].
Qed.

(** The run that [strip_left] removes is made of [pats]... *)
Lemma strip_left_run n pats s :
  ∃ pre, s = pre +:+ PyStr.strip_left n pats s ∧ PyStr.made_of pats pre.
Proof.
  revert s. induction n as [|n IH]; intros s.
  { exists EmptyString. split; [done|constructor]. }
  cbn. destruct (PyStr.drop_first pats s) as [s'|] eqn:Hs.
  - apply drop_first_Some in Hs as (p & Hin & ->).
    destruct (IH s') as (pre & Hpre & Hmade).
    exists (p +:+ pre). split; [|by constructor].
    by rewrite str_app_assoc, <- Hpre.
  - exists EmptyString. split; [done|constructor].
Qed.

(** ... and it is the whole of it: what is left starts with none. *)
Lemma strip_left_done n pats s :
  (∀ p, p ∈ pats → p ≠ EmptyString) →
  String.length s ≤ n →
  PyStr.drop_first pats (PyStr.strip_left n pats s) = None.
Proof.
  intros Hpats. revert s. induction n as [|n IH]; intros s Hlen.
  { destruct s as [|c s]; [|cbn in Hlen; lia]. cbn.
    destruct (PyStr.drop_first pats EmptyString) as [s'|] eqn:Hs; [|done].
    apply drop_first_Some in Hs as (p & Hin & Heq).
    destruct p as [|a p]; [by destruct (Hpats _ Hin)|done]. }
  cbn. destruct (PyStr.drop_first pats s) as [s'|] eqn:Hs; [|done].
  apply IH. apply drop_first_Some in Hs as (p & Hin & ->).
  rewrite str_length_app in Hlen.
  destruct p as [|a p]; [by destruct (Hpats _ Hin)|]. cbn in Hlen. lia.
Qed.

Lemma whitespace_not_empty p : p ∈ PyStr.whitespace → p ≠ EmptyString.
Proof.
  revert p. apply Forall_forall. vm_compute. repeat (constructor; [discriminate|]).
  constructor.
Qed.

Lemma whitespace_rev_not_empty p : p ∈ String.rev <$> PyStr.whitespace → p ≠ EmptyString.
Proof.
  revert p. apply Forall_forall. vm_compute. repeat (constructor; [discriminate|]).
  constructor.
Qed.

Lemma lstrip_run s : ∃ pre, s = pre +:+ PyStr.lstrip s ∧ PyStr.spaces pre.
Proof. apply strip_left_run. Qed.

Lemma rstrip_run s : ∃ post, s = PyStr.rstrip s +:+ post ∧ PyStr.spaces post.
Proof.
  unfold PyStr.rstrip, PyStr.lstrip_with.
  destruct (strip_left_run (String.length (String.rev s))
              (String.rev <$> PyStr.whitespace) (String.rev s)) as (pre & Hpre & Hmade).
  exists (String.rev pre). split; [|by apply made_of_rev].
  rewrite <- str_rev_app, <- Hpre. by rewrite str_rev_involutive.
Qed.

(** [s.strip()] is [s] without a run of white space at each end, and
    has none left at either end. *)
Lemma strip_spec s :
  (∃ pre post, s = pre +:+ PyStr.strip s +:+ post ∧ PyStr.spaces pre ∧ PyStr.spaces post)
  ∧ PyStr.starts_with_space (PyStr.strip s) = false
  ∧ PyStr.ends_with_space (PyStr.strip s) = false.
Proof.
  unfold PyStr.strip.
  destruct (lstrip_run s) as (pre & Hpre & Hspre).
  destruct (rstrip_run (PyStr.lstrip s)) as (post & Hpost & Hspost).
  split_and!.
  - exists pre, post. split; [|done]. by rewrite <- Hpost.
  - unfold PyStr.starts_with_space.
    rewrite (drop_first_None_app _ _ post); [done|]. rewrite <- Hpost.
    apply strip_left_done; [apply whitespace_not_empty|done].
  - unfold PyStr.ends_with_space, PyStr.rstrip, PyStr.lstrip_with.
    rewrite str_rev_involutive.
    by rewrite strip_left_done by (apply whitespace_rev_not_empty || done).
Qed.

End Strings.

(** The name [clone_repo] computes holds no [/], whatever the url: the
    copy is made in an entry of the destination directory itself. *)
Theorem repo_name_of_no_separator (repo : string) :
  PyStr.contains "/" (repo_name_of repo) = false.
Proof.
  unfold repo_name_of, PyStr.replace. apply replace_go_keeps_absent.
  pose proof (split_segments "/" repo) as Hall.
  unfold PyStr.last_item. destruct (last _) as [seg|] eqn:Hlast; [|done].
  apply last_Some_elem_of in Hlast. by eapply Forall_forall in Hall.
Qed.

(** For a url that ends with [/stem.git] or with [/stem], or that is
    [stem.git], where [stem] holds neither [/] nor [.git], the name is
    [stem]. *)
Theorem repo_name_of_stem (base stem : string) :
  PyStr.contains "/" stem = false →
  PyStr.contains ".git" stem = false →
  repo_name_of (base +:+ "/" +:+ stem +:+ ".git") = stem
  ∧ repo_name_of (base +:+ "/" +:+ stem) = stem
  ∧ repo_name_of (stem +:+ ".git") = stem.
Proof.
  intros Hsep Hgit. unfold repo_name_of, PyStr.replace.
  assert (PyStr.contains "/" (stem +:+ ".git") = false) as Hsep'.
  { clear Hgit. induction stem as [|c stem IH]; [done|].
    rewrite contains_char_cons in Hsep. apply orb_false_iff in Hsep as [Hc Hs].
    rewrite str_app_cons, contains_char_cons, Hc. auto. }
  split_and!.
  - change (base +:+ "/" +:+ stem +:+ ".git")
      with (base +:+ String "/" (stem +:+ ".git")).
    rewrite last_item_split_app, split_single by done. cbn [PyStr.last_item last default].
    by apply replace_go_git_suffix.
  - change (base +:+ "/" +:+ stem) with (base +:+ String "/" stem).
    rewrite last_item_split_app, split_single by done.
    by apply replace_go_absent.
  - rewrite split_single by done. by apply replace_go_git_suffix.
Qed.



(** The token read from a file is the first line of the file without
    the white space around it, the end of the line included: the
    listing is run with [line.strip()] as its token, after the test of
    the path and the reading of the line.  The line is that token
    between two runs of white space characters, and the token neither
    starts nor ends with one.  It is sent as the [Authorization] header
    unless it is empty. *)
Theorem main_token_from_file {Env : Type} `{Collaborators Env}
    (username t line : string) (w : World Env) :
  t ≠ EmptyString → t ≠ "#ENV" →
  path_exists t (env w) = true →
  readline t (env w) = Ok line →
  main_listing username (Some t) w
  = get_public_repos recursion_depth username (Some (PyStr.strip line)) None
      (mkWorld (env w) (trace w ++ [EvPathExists t true; EvReadline t (Ok line)]))
  ∧ (∃ pre post,
       line = pre +:+ PyStr.strip line +:+ post
       ∧ PyStr.spaces pre ∧ PyStr.spaces post)
  ∧ PyStr.starts_with_space (PyStr.strip line) = false
  ∧ PyStr.ends_with_space (PyStr.strip line) = false
  ∧ auth_headers (Some (PyStr.strip line))
    = match PyStr.strip line with
      | EmptyString => []
      | _ => [("Authorization", "token " +:+ PyStr.strip line)]
      end.
Proof.
  intros Ht Henv Hexists Hread.
  destruct (strip_spec line) as (Hrun & Hstart & Hend).
  split_and!; [|done..|by destruct (PyStr.strip line)].
  unfold main_listing, load_token, os_path_exists, open_readline, log.
  assert (PyStr.truthy_opt (Some t) = true) as -> by (by destruct t).
  destruct (String.eqb_spec t "#ENV"); [done|].
  cbn [env trace]. rewrite Hexists. cbn [negb]. rewrite Hread.
  by rewrite <- app_assoc.
Qed.

Lemma repo_name_of_stem_witness :
  repo_name_of ("https://github.com/acme" +:+ "/" +:+ "tool" +:+ ".git") = "tool"
  ∧ repo_name_of ("https://github.com/acme" +:+ "/" +:+ "tool") = "tool"
  ∧ repo_name_of ("tool" +:+ ".git") = "tool".
Proof. exact (repo_name_of_stem "https://github.com/acme" "tool" eq_refl eq_refl). Defined.

Lemma main_token_from_file_witness :
  main_listing (H := Sim.collaborators Sim.acme_with_token) "acme" (Some "token.txt")
    (Sim.world0 ["token.txt"])
  = get_public_repos (H := Sim.collaborators Sim.acme_with_token) Sim.nested_calls "acme"
      (Some "ghp_t0ken") None
      (mkWorld ["token.txt"]
         ([] ++ [EvPathExists "token.txt" true;
                 EvReadline "token.txt" (Ok Sim.token_line)]))
  ∧ (∃ pre post,
       Sim.token_line = pre +:+ PyStr.strip Sim.token_line +:+ post
       ∧ PyStr.spaces pre ∧ PyStr.spaces post)
  ∧ PyStr.starts_with_space (PyStr.strip Sim.token_line) = false
  ∧ PyStr.ends_with_space (PyStr.strip Sim.token_line) = false
  ∧ auth_headers (Some (PyStr.strip Sim.token_line))
    = [("Authorization", "token " +:+ "ghp_t0ken")].
Proof.
  exact (main_token_from_file (H := Sim.collaborators Sim.acme_with_token) "acme"
           "token.txt" Sim.token_line (Sim.world0 ["token.txt"])
           ltac:(done) ltac:(done) eq_refl eq_refl).
Defined.

(** The white space [strip] removes is that of [str.isspace], beyond
    ASCII too: a no-break space (U+00A0) before the token and an
    ideographic space (U+3000) after it go with the end of the line;
    the white space inside stays. *)
Example strip_unicode :
  PyStr.strip (PyStr.of_bytes [194; 160] +:+ "ghp t0ken"
               +:+ PyStr.of_bytes [227; 128; 128; 13; 10])
  = "ghp t0ken"
  ∧ PyStr.strip (PyStr.of_bytes [32; 9; 226; 128; 168; 10]) = EmptyString
  ∧ PyStr.strip "ghp_t0ken" = "ghp_t0ken".
Proof. split_and!; vm_compute; reflexivity. Qed.

(** ** The loop of run_git_clone *)

Section Iterations.

Context {Env : Type} `{Collaborators Env}.

Implicit Types (w : World Env) (repo dir repo_name : string).

Lemma run_git_clone_iter_cases repo dir repo_name m (w : World Env) :
  ((m ≤ 0)%Z
   ∧ run_git_clone_iter repo dir repo_name m w
     = (Raise (RuntimeError (clone_failed_msg repo_name m)), w))
  ∨ ((0 < m)%Z
     ∧ ∃ w', run_git_clone_iter repo dir repo_name m w = (Return, w')
             ∧ trace w' = trace w ++ [EvShell (clone_command repo dir repo_name) 0])
  ∨ ((0 < m)%Z
     ∧ ∃ rc w', rc ≠ 0%Z
             ∧ run_git_clone_iter repo dir repo_name m w = (Continue (m - 1), w')
             ∧ trace w'
               = trace w ++ failed_attempt (clone_command repo dir repo_name) repo_name rc).
Proof.
  destruct (Z.le_gt_cases m 0) as [Hm|Hm].
  - left. split; [done|]. by apply run_git_clone_iter_exhausted.
  - right.
    destruct (decide ((shell_run (clone_command repo dir repo_name) (env w)).1 = 0%Z))
      as [Hrc|Hrc].
    + left. split; [lia|]. eexists. split; [by apply run_git_clone_iter_succeeds; [lia|]|done].
    + right. split; [lia|].
      destruct (run_git_clone_iter_fails repo dir repo_name m w) as (rc & e' & _ & ? & ->);
        [lia|done|]. by eexists _, _.
Qed.

Lemma run_git_clone_iter_continue_trace repo dir repo_name m w m' w' :
  run_git_clone_iter repo dir repo_name m w = (Continue m', w') →
  (0 < m)%Z ∧ m' = (m - 1)%Z
  ∧ ∃ rc, rc ≠ 0%Z
          ∧ trace w'
            = trace w ++ failed_attempt (clone_command repo dir repo_name) repo_name rc.
Proof.
  intros Hiter.
  destruct (run_git_clone_iter_cases repo dir repo_name m w)
    as [[_ Heq]|[[_ (w1 & Heq & _)]|[Hm (rc & w1 & Hrc & Heq & Htr)]]];
    rewrite Heq in Hiter; simplify_eq. eauto.
Qed.

End Iterations.



(** ** The requests of a listing *)

(** The requests of a listing: the first goes to [page_url], or to the
    url built from the account when there is none; each of the others
    goes to the url the answer before it named as [next]; all carry the
    same headers, the token included, wherever the links lead; and no
    request follows an answer that is an error, cannot be read, or
    names no [next].  There are never more requests than calls the
    interpreter allows, and the listing stops short of a page that was
    named only when it has used them all: it then raises
    [RecursionError]. *)
Theorem get_public_repos_requests {Env : Type} `{Collaborators Env}
    (depth : nat) (username : string)
    (pat_token page_url : option string) (w w' : World Env)
    (r : result (list string)) :
  get_public_repos depth username pat_token page_url w = (r, w') →
  ∃ evs ended,
    trace w' = trace w ++ evs
    ∧ chain (auth_headers pat_token) (default (first_page_url username) page_url)
        evs ended
    ∧ length evs ≤ depth
    ∧ (ended = false → length evs = depth ∧ r = Raised RecursionError).
Proof.
  revert page_url w r w'.
  induction depth as [|depth IH]; intros page_url w r w'.
  { intros [= <- <-]. exists [], false. rewrite app_nil_r.
    split_and!; [done|constructor|done|done]. }
  cbn [get_public_repos]. rewrite requests_get_w_eq.
  assert (match page_url with Some u => u | None => first_page_url username end
          = default (first_page_url username) page_url) as -> by (by destruct page_url).
  generalize (default (first_page_url username) page_url) as url. intros url.
  destruct (requests_get _ _ (env w)) as [[response|e] e1]; cbn [fst snd].
  2: { intros [= <- <-]. eexists [_], true.
       split_and!; [done|by apply chain_last|cbn; lia|done]. }
  destruct (json response) as [response_json|e] eqn:Hjson.
  2: { intros [= <- <-]. eexists [_], true. split_and!; [done| |cbn; lia|done].
       apply chain_last. intros resp l [= <-]. congruence. }
  destruct (links_lookup _ _) as [next|] eqn:Hnext.
  2: { intros [= <- <-]. eexists [_], true. split_and!; [done| |cbn; lia|done].
       apply chain_last. by intros resp l [= <-]. }
  destruct (get_public_repos depth _ _ _ _) as [r' w2] eqn:Hrec.
  apply IH in Hrec as (evs & ended & Htr & Hchain & Hlen & Hcut).
  cbn [trace default] in *.
  intros Hout. assert (w' = w2) as -> by (by destruct r'; simplify_eq).
  eexists (_ :: evs), ended. rewrite Htr, <- app_assoc.
  split_and!; [done|by eapply chain_next|cbn; lia|].
  intros Hended. destruct (Hcut Hended) as [Hdepth ->]. injection Hout as <-.
  split; [cbn; lia|done].
Qed.

Lemma get_public_repos_requests_witness :
  ∃ evs ended,
    [EvGet Sim.acme_url [] (Ok Sim.acme_page_1);
     EvGet Sim.acme_url_2 [] (Ok Sim.acme_page_2)]
    = [] ++ evs
    ∧ chain (auth_headers None)
        (default (first_page_url "acme") None) evs ended
    ∧ length evs ≤ Sim.nested_calls
    ∧ (ended = false
       → length evs = Sim.nested_calls
         ∧ Ok ["https://github.com/acme/B.git"] = Raised RecursionError).
Proof.
  exact (get_public_repos_requests (H := Sim.collaborators Sim.acme_paged)
           Sim.nested_calls "acme" None None (Sim.world0 []) _ _ eq_refl).
Defined.

(** Links that never end: when every page of a set of urls names a url
    of the set as [next], a listing that starts in the set returns no
    list.  It sends a request for each call the interpreter allows, and
    the call after the last of them raises [RecursionError]:
    [get_public_repos] has no bound of its own on the pages and does
    not notice a page it has seen. *)
Theorem get_public_repos_endless {Env : Type} `{Collaborators Env}
    (username : string) (pat_token : option string)
    (P : string → Prop) (depth : nat) (w : World Env) :
  endless (auth_headers pat_token) P →
  P (first_page_url username) →
  ∃ w' evs,
    get_public_repos depth username pat_token None w = (Raised RecursionError, w')
    ∧ trace w' = trace w ++ evs
    ∧ requests evs = evs
    ∧ length evs = depth.
Proof.
  intros Hloop HP. rewrite get_public_repos_first_page.
  revert w HP. generalize (first_page_url username) as url.
  induction depth as [|depth IH]; intros url w HP.
  { exists w, []. by rewrite app_nil_r. }
  cbn [get_public_repos]. rewrite requests_get_w_eq.
  destruct (Hloop url (env w) HP) as (r & l & e' & next & Hget & Hjson & Hnext & HP').
  rewrite Hget. cbn [fst snd]. rewrite Hjson, Hnext.
  destruct (IH next (mkWorld e' (trace w ++ [EvGet url (auth_headers pat_token) (Ok r)]))
              HP') as (w' & evs & -> & Htr & Hreq & Hlen).
  exists w', (EvGet url (auth_headers pat_token) (Ok r) :: evs).
  cbn [trace] in Htr. rewrite Htr, <- app_assoc.
  split_and!; [done..| |cbn; lia].
  unfold requests in *. rewrite filter_cons_True by done. by rewrite Hreq.
Qed.

Lemma acme_looping_endless :
  endless (H := Sim.collaborators Sim.acme_looping) (auth_headers None)
    (λ url, url = Sim.acme_url).
Proof. intros url e ->. by eexists _, _, _, _. Qed.

Lemma get_public_repos_endless_witness :
  ∃ w' evs,
    get_public_repos (H := Sim.collaborators Sim.acme_looping) Sim.nested_calls "acme"
      None None (Sim.world0 [])
    = (Raised RecursionError, w')
    ∧ trace w' = [] ++ evs
    ∧ requests evs = evs
    ∧ length evs = Sim.nested_calls.
Proof.
  exact (get_public_repos_endless (H := Sim.collaborators Sim.acme_looping) "acme" None
           (λ url, url = Sim.acme_url) Sim.nested_calls (Sim.world0 [])
           acme_looping_endless eq_refl).
Defined.

(** The page that links to itself is requested again and again, until
    the interpreter refuses the call. *)
Example acme_looping_requests :
  (get_public_repos (H := Sim.collaborators Sim.acme_looping) Sim.nested_calls "acme"
     None None (Sim.world0 [])).1
  = Raised RecursionError
  ∧ (trace (get_public_repos (H := Sim.collaborators Sim.acme_looping)
              Sim.nested_calls "acme" None None (Sim.world0 [])).2)
    = replicate Sim.nested_calls (EvGet Sim.acme_url [] (Ok Sim.acme_looping_page)).
Proof. split; vm_compute; reflexivity. Qed.

(** ** clone_repos before the pool *)

Section Directory.

Context {Env : Type} `{Collaborators Env}.

Lemma clone_repos_enter_makedirs_raised cfg (w : World Env) e e' :
  path_exists (directory cfg) (env w) = false →
  makedirs (directory cfg) (env w) = (Raised e, e') →
  clone_repos_enter cfg w
  = (Raised e,
     mkWorld e' (trace w ++ [EvPathExists (directory cfg) false;
                             EvMakedirs (directory cfg) (Raised e)])).
Proof.
  intros Hfresh Hmk. unfold clone_repos_enter, os_path_exists, os_makedirs. cbn.
  rewrite Hfresh, Hmk. by rewrite <- app_assoc.
Qed.

End Directory.

(** When the destination does not exist and [os.makedirs] raises, its
    exception is what [clone_repos] raises: the run has no other state,
    no pool is created and nothing is cloned. *)
Theorem clone_repos_makedirs_fails {Env : Type} `{Collaborators Env}
    (repos : list string) (cfg : Config) (w : World Env)
    (e : exn) (e' : Env) :
  path_exists (directory cfg) (env w) = false →
  makedirs (directory cfg) (env w) = (Raised e, e') →
  step (clone_repos_init repos cfg w)
    (raised_state
       (mkWorld e' (trace w ++ [EvPathExists (directory cfg) false;
                                EvMakedirs (directory cfg) (Raised e)])) e)
  ∧ ∀ s, reachable (clone_repos_init repos cfg w) s →
      (s = clone_repos_init repos cfg w
       ∨ s = raised_state
               (mkWorld e' (trace w ++ [EvPathExists (directory cfg) false;
                                        EvMakedirs (directory cfg) (Raised e)])) e)
      ∧ st_futures s = [] ∧ st_workers s = []
      ∧ attempts (trace (st_world s)) = attempts (trace w).
Proof.
  intros Hfresh Hmk.
  pose proof (clone_repos_enter_makedirs_raised cfg w e e' Hfresh Hmk) as Henter.
  split; [by apply step_enter_raised|].
  intros s Hs. destruct (enter_raised_reachable _ _ _ _ _ _ Henter Hs) as [-> | ->].
  - split_and!; [by left|done..].
  - split_and!; [by right|done..|]. cbn. by rewrite attempts_app, app_nil_r.
Qed.

(** An empty list of repositories: [clone_repos] creates the
    destination directory all the same and returns; no future is
    created, no thread is started, no command is run, and the run cannot
    raise. *)
Theorem clone_repos_empty_list {Env : Type} `{Collaborators Env}
    (cfg : Config) (w : World Env) :
  path_exists (directory cfg) (env w) = false →
  (makedirs (directory cfg) (env w)).1 = Ok tt →
  (1 ≤ n_threads cfg)%Z →
  reachable (clone_repos_init [] cfg w)
    (mkState
       (mkWorld (makedirs (directory cfg) (env w)).2
          (trace w ++ [EvPathExists (directory cfg) false;
                       EvMakedirs (directory cfg) (Ok tt)]))
       MDone [] [] [] (n_threads cfg))
  ∧ ∀ s, reachable (clone_repos_init [] cfg w) s →
      st_futures s = [] ∧ st_queue s = [] ∧ st_workers s = []
      ∧ (∀ e, st_main s ≠ MRaised e)
      ∧ (s = clone_repos_init [] cfg w
         ∨ st_world s
           = mkWorld (makedirs (directory cfg) (env w)).2
               (trace w ++ [EvPathExists (directory cfg) false;
                            EvMakedirs (directory cfg) (Ok tt)])).
Proof.
  intros Hfresh Hmk Hn.
  pose proof (clone_repos_enter_fresh cfg w Hfresh Hmk Hn) as Henter.
  set (w1 := mkWorld _ _) in *.
  split.
  - eapply rtc_l; [by apply step_enter|].
    eapply rtc_l; [apply step_submitted|].
    apply rtc_once. cbn. apply step_exit. constructor.
  - intros s Hs. 
    assert (s = clone_repos_init [] cfg w
            ∨ ∃ pc, s = mkState w1 pc [] [] [] (n_threads cfg)
                    ∧ (pc = MSubmit [] cfg ∨ pc = MAwait [] ∨ pc = MDone)) as Hcases.
    { revert s Hs. apply rtc_ind_r; [by left|].
      intros s1 s2 _ Hstep [->|(pc & -> & Hpc)]; right.
      - unfold clone_repos_init in Hstep. inversion Hstep; subst;
          try (match goal with Hx : [] !! _ = Some _ |- _ => by rewrite lookup_nil in Hx end);
          match goal with Hx : clone_repos_enter _ _ = _ |- _ =>
            rewrite Henter in Hx; first [discriminate Hx|injection Hx as <-] end.
        eexists. split; [done|]. by left.
      - destruct Hpc as [->|[->| ->]]; inversion Hstep; simplify_eq;
          try (eexists; split; [done|]; cbn; by auto);
          try (match goal with Hx : [] !! _ = Some _ |- _ => by rewrite lookup_nil in Hx end);
          try (match goal with Hx : _ ++ _ :: _ = [] |- _ => by destruct p1 end);
          try (match goal with Hx : [] = _ ++ _ :: _  |- _ => by destruct p1 end). }
    destruct Hcases as [->|(pc & -> & Hpc)]; cbn.
    + split_and!; [done..|by left].
    + split_and!; [done..| |by right]. intros e ->. by destruct Hpc as [|[|]].
Qed.

Lemma clone_repos_makedirs_fails_witness :
  step (H := Sim.read_only)
    (clone_repos_init [Sim.R1] Sim.out_2_threads (Sim.world0 []))
    (raised_state
       (mkWorld []
          ([] ++ [EvPathExists "out" false;
                  EvMakedirs "out" (Raised (OtherError "PermissionError"))]))
       (OtherError "PermissionError"))
  ∧ ∀ s, reachable (H := Sim.read_only)
           (clone_repos_init [Sim.R1] Sim.out_2_threads (Sim.world0 [])) s →
      (s = clone_repos_init [Sim.R1] Sim.out_2_threads (Sim.world0 [])
       ∨ s = raised_state
               (mkWorld []
                  ([] ++ [EvPathExists "out" false;
                          EvMakedirs "out" (Raised (OtherError "PermissionError"))]))
               (OtherError "PermissionError"))
      ∧ st_futures s = [] ∧ st_workers s = []
      ∧ attempts (trace (st_world s)) = attempts [].
Proof.
  exact (clone_repos_makedirs_fails (H := Sim.read_only) [Sim.R1] Sim.out_2_threads
           (Sim.world0 []) (OtherError "PermissionError") [] eq_refl eq_refl).
Defined.

Lemma clone_repos_empty_list_witness :
  reachable (H := Sim.collaborators Sim.git_works)
    (clone_repos_init [] Sim.out_2_threads (Sim.world0 []))
    (mkState
       (mkWorld ["out"] ([] ++ [EvPathExists "out" false; EvMakedirs "out" (Ok tt)]))
       MDone [] [] [] 2)
  ∧ ∀ s, reachable (H := Sim.collaborators Sim.git_works)
           (clone_repos_init [] Sim.out_2_threads (Sim.world0 [])) s →
      st_futures s = [] ∧ st_queue s = [] ∧ st_workers s = []
      ∧ (∀ e, st_main s ≠ MRaised e)
      ∧ (s = clone_repos_init [] Sim.out_2_threads (Sim.world0 [])
         ∨ st_world s
           = mkWorld ["out"]
               ([] ++ [EvPathExists "out" false; EvMakedirs "out" (Ok tt)])).
Proof.
  exact (clone_repos_empty_list (H := Sim.collaborators Sim.git_works)
           Sim.out_2_threads (Sim.world0 []) eq_refl eq_refl ltac:(done)).
Defined.

(** ** The accounts of a run of clone_repos *)

Section Ledger.

Context {Env : Type} `{Collaborators Env}.

Implicit Types (w : World Env) (s : state Env) (ws : list worker) (wk : worker).
Implicit Types (evs : list event) (futs : list (string * future_state)).

Lemma commands_app tr1 tr2 : commands (tr1 ++ tr2) = commands tr1 ++ commands tr2.
Proof. apply omap_app. Qed.

Lemma announced_app tr1 tr2 : announced (tr1 ++ tr2) = announced tr1 ++ announced tr2.
Proof. apply omap_app. Qed.

Lemma count_app f tr1 tr2 : count f (tr1 ++ tr2) = count f tr1 + count f tr2.
Proof. unfold count. by rewrite filter_app, length_app. Qed.

Lemma commands_attempts tr : length (commands tr) = length (attempts tr).
Proof.
  unfold commands, attempts. induction tr as [|ev tr IH]; [done|].
  destruct ev; cbn;
    rewrite ?filter_cons_True, ?filter_cons_False by done; cbn; by rewrite ?IH.
Qed.

Lemma omap_insert {A} (f : worker → option A) ws i wk0 :
  ws !! i = Some wk0 →
  ∃ l1 l2, omap f ws = l1 ++ option_list (f wk0) ++ l2
           ∧ ∀ wk, omap f (<[i := wk]> ws) = l1 ++ option_list (f wk) ++ l2.
Proof.
  intros Hi. exists (omap f (take i ws)), (omap f (drop (S i) ws)). split.
  - rewrite <- (take_drop_middle ws i wk0 Hi) at 1. rewrite omap_app. cbn.
    by destruct (f wk0).
  - intros wk. rewrite insert_take_drop by (by eapply lookup_lt_Some).
    rewrite omap_app. cbn. by destruct (f wk).
Qed.

Lemma finished_repos_cons repo st futs :
  finished_repos ((repo, st) :: futs)
  = (if is_finished st then [repo] else []) ++ finished_repos futs.
Proof. unfold finished_repos. cbn. by destruct (is_finished st). Qed.

Lemma finished_repos_alter futs fut repo r :
  futs !! fut = Some (repo, Pending) →
  finished_repos (alter (set_result r) fut futs) ≡ₚ repo :: finished_repos futs.
Proof.
  revert fut. induction futs as [|[repo' st] futs IH]; intros [|fut] Hlk; [done..| |].
  - injection Hlk as -> ->. cbn [alter list_alter]. unfold set_result at 1. cbn [fst].
    by rewrite !finished_repos_cons.
  - cbn in Hlk. cbn [alter list_alter]. rewrite !finished_repos_cons.
    fold (alter (set_result r) fut futs). rewrite (IH _ Hlk).
    destruct (is_finished st); cbn; [apply Permutation_swap|done].
Qed.

Lemma finished_repos_app futs repo :
  finished_repos (futs ++ [(repo, Pending)]) = finished_repos futs.
Proof. unfold finished_repos. rewrite omap_app. cbn. by rewrite app_nil_r. Qed.

Lemma worker_sound_mono cfg futs futs' evs chunk wk :
  (∀ fut repo, futs.*1 !! fut = Some repo → futs'.*1 !! fut = Some repo) →
  worker_sound cfg futs evs wk → worker_sound cfg futs' (evs ++ chunk) wk.
Proof.
  intros Hext. destruct wk as [|fut repo dir|fut repo dir repo_name m]; cbn; [done|..].
  - intros [? ?]. auto.
  - intros (? & ? & ? & [? ?] & Hcmd). split_and!; [auto|done..|].
    intros Hm. rewrite commands_app. apply elem_of_app. auto.
Qed.

Lemma count_nil f : count f [] = 0.
Proof. done. Qed.

Lemma count_cons f ev tr : count f (ev :: tr) = (if f ev then 1 else 0) + count f tr.
Proof.
  unfold count. destruct (f ev) eqn:Hf.
  - by rewrite filter_cons_True.
  - rewrite filter_cons_False; [done|]. by rewrite Hf.
Qed.

Lemma ledger_quiet repos cfg s s' evs chunk :
  quiet chunk →
  st_futures s' = st_futures s → st_queue s' = st_queue s →
  st_workers s' = st_workers s →
  length (todo_of (st_main s')) ≤ length (todo_of (st_main s)) →
  submitted repos s' →
  (∀ todo cfg', st_main s' = MSubmit todo cfg' → cfg' = cfg) →
  ledger repos cfg s evs → ledger repos cfg s' (evs ++ chunk).
Proof.
  intros (Hc & Ha & Hp1 & Hp5 & Hfa & Hel) Hf Hq Hw Htodo Hsub' Hcfg'
    [Hsub Hcfg Hqueue Hworkers Hcmd Hfin Hup Hlo Hpause Hretry Hann].
  split; rewrite ?Hf, ?Hq, ?Hw, ?commands_app, ?announced_app, ?count_app,
    ?Hc, ?Ha, ?Hp1, ?Hp5, ?Hfa, ?Hel, ?app_nil_r, ?Nat.add_0_r; try done.
  - intros i wk Hi. apply (worker_sound_mono cfg (st_futures s)); [done|].
    by apply (Hworkers i).
  - unfold default_max_retries in *. change (Z.to_nat 5) with 5 in *. lia.
Qed.

Lemma quiet_nil : quiet [].
Proof. by repeat split. Qed.

Lemma clone_repos_enter_quiet cfg w r w' :
  clone_repos_enter cfg w = (r, w') →
  ∃ chunk, trace w' = trace w ++ chunk ∧ quiet chunk.
Proof.
  unfold clone_repos_enter, os_path_exists, os_makedirs, log. cbn.
  destruct (path_exists _ _); [intros [= <- <-]; by eexists [_]|].
  destruct (makedirs _ _) as [[[]|e'] e1]; cbn.
  - destruct (_ <=? _)%Z; intros [= <- <-]; eexists [_; _]; cbn;
      by rewrite <- app_assoc.
  - intros [= <- <-]. eexists [_; _]. cbn. by rewrite <- app_assoc.
Qed.

Lemma adjust_thread_count_keeps mx ws ws' :
  adjust_thread_count mx ws ws' →
  (∀ i wk, ws' !! i = Some wk → wk = WIdle ∨ ws !! i = Some wk)
  ∧ (∀ f : worker → nat, f WIdle = 0 → sum_list_with f ws' = sum_list_with f ws)
  ∧ omap running_repo ws' = omap running_repo ws.
Proof.
  intros [Hlt|Hne]; [|by auto]. split_and!.
  - intros i wk [Hi|[_ Hi]]%lookup_app_Some; [by right|].
    apply list_lookup_singleton_Some in Hi as [_ <-]. by left.
  - intros f Hf. rewrite sum_list_with_app. cbn. lia.
  - rewrite omap_app. cbn. by rewrite app_nil_r.
Qed.

Lemma ledger_step repos cfg s s' evs :
  step s s' → pool_inv cfg s → ledger repos cfg s evs →
  ∃ chunk, trace (st_world s') = trace (st_world s) ++ chunk
           ∧ ledger repos cfg s' (evs ++ chunk).
Proof.
  intros Hstep Hpool Hled.
  pose proof (submitted_step repos _ _ Hstep (led_submitted _ _ _ _ Hled)) as Hsub'.
  destruct Hstep.
  - by destruct (inv_not_main _ _ Hpool username cfg0 token).
  - by destruct (inv_not_main _ _ Hpool username cfg0 token).
  - (* enter, raised *)
    destruct (clone_repos_enter_quiet _ _ _ _ H0) as (chunk & Htr & Hquiet).
    exists chunk. split; [done|]. eapply ledger_quiet; [..|exact Hled]; try done. cbn. lia.
  - (* enter *)
    destruct (clone_repos_enter_quiet _ _ _ _ H0) as (chunk & Htr & Hquiet).
    exists chunk. split; [done|]. eapply ledger_quiet; [..|exact Hled]; try done.
    cbn. intros todo cfg' [= _ <-]. by eapply inv_cfg.
  - (* submit *)
    destruct Hled as [Hsub Hcfg Hqueue Hworkers Hcmd Hfin Hup Hlo Hpause Hretry Hann].
    cbn [st_world st_main st_futures st_queue st_workers todo_of] in *.
    destruct (adjust_thread_count_keeps _ _ _ H0) as (Hws' & Hsum & Hrun).
    pose proof (Hcfg _ _ eq_refl) as ->.
    assert (Hext : ∀ fut repo', futs.*1 !! fut = Some repo' →
                     (futs ++ [(repo, Pending)]).*1 !! fut = Some repo').
    { intros fut repo' Hlk. rewrite fmap_app. by apply lookup_app_l_Some. }
    exists [EvSleep 1]. split; [done|].
    split; cbn [st_world st_main st_futures st_queue st_workers todo_of];
      rewrite ?commands_app, ?announced_app, ?count_app, ?app_nil_r; cbn [commands announced omap list_omap];
      rewrite ?app_nil_r, ?finished_repos_app, ?Hrun, ?(Hsum attempts_left), ?(Hsum attempts_made),
        ?count_cons, ?count_nil by done; try done.
    + by intros todo' cfg' [= _ <-].
    + intros fut repo' dir [Hin|Hin%list_elem_of_singleton]%elem_of_app.
      * destruct (Hqueue _ _ _ Hin). auto.
      * injection Hin as -> -> ->. split; [|done].
        rewrite fmap_app, lookup_app_r by (by rewrite length_fmap).
        by rewrite length_fmap, Nat.sub_diag.
    + intros i wk Hi. destruct (Hws' _ _ Hi) as [->|Hi']; [done|].
      apply (worker_sound_mono cfg futs); [done|].
      by apply (Hworkers i).
    + intros command Hin. destruct (Hcmd _ Hin) as (repo' & Hr & ->).
      exists repo'. split; [|done]. rewrite fmap_app. apply elem_of_app. by left.
    + intros fut repo' r [Hlk|[_ Hlk]]%lookup_app_Some; [by eauto|].
      by apply list_lookup_singleton_Some in Hlk as [_ [=]].
    + rewrite !length_app. cbn [length] in *.
      unfold default_max_retries in *. change (Z.to_nat 5) with 5 in *. lia.
    + cbn. rewrite length_app. cbn. lia.
    + cbn. lia.
  - (* submitted *)
    exists []. split; [by rewrite app_nil_r|].
    eapply ledger_quiet; [apply quiet_nil|..|exact Hled]; done.
  - (* yield *)
    exists []. split; [by rewrite app_nil_r|].
    eapply ledger_quiet; [apply quiet_nil|..|exact Hled]; done.
  - exists [EvPrint (OutGenerated repo exc)]. split; [done|].
    eapply ledger_quiet; [by repeat split|..|exact Hled]; done.
  - (* exit *)
    exists []. split; [by rewrite app_nil_r|].
    eapply ledger_quiet; [apply quiet_nil|..|exact Hled]; done.
  - (* take *)
    destruct Hled as [Hsub Hcfg Hqueue Hworkers Hcmd Hfin Hup Hlo Hpause Hretry Hann].
    cbn [st_world st_main st_futures st_queue st_workers] in *.
    exists []. split; [by rewrite app_nil_r|]. rewrite app_nil_r.
    pose proof (sum_list_with_insert attempts_left ws i _ (WCloneRepo fut repo dir) H0)
      as Hleft.
    pose proof (sum_list_with_insert attempts_made ws i _ (WCloneRepo fut repo dir) H0)
      as Hmade.
    destruct (omap_insert running_repo ws i _ H0) as (l1 & l2 & Hrun & Hrun').
    split; cbn [st_world st_main st_futures st_queue st_workers]; try done.
    + intros fut' repo' dir' Hin. apply Hqueue. by right.
    + intros j wk Hj. destruct (decide (i = j)) as [<-|Hne].
      * rewrite list_lookup_insert_eq in Hj by (by eapply lookup_lt_Some).
        injection Hj as <-. apply Hqueue. by left.
      * rewrite list_lookup_insert_ne in Hj by done. by apply (Hworkers j).
    + cbn in *. unfold default_max_retries in *. change (Z.to_nat 5) with 5 in *. lia.
    + cbn in *. lia.
    + rewrite Hrun'. rewrite Hrun in Hann. exact Hann.
  - (* clone_repo *)
    destruct Hled as [Hsub Hcfg Hqueue Hworkers Hcmd Hfin Hup Hlo Hpause Hretry Hann].
    cbn [st_world st_main st_futures st_queue st_workers] in *.
    exists [EvPrint (OutCloning repo)]. split; [done|].
    pose proof (sum_list_with_insert attempts_left ws i _
      (WRunGitClone fut repo dir (repo_name_of repo) default_max_retries) H0) as Hleft.
    pose proof (sum_list_with_insert attempts_made ws i _
      (WRunGitClone fut repo dir (repo_name_of repo) default_max_retries) H0) as Hmade.
    destruct (omap_insert running_repo ws i _ H0) as (l1 & l2 & Hrun & Hrun').
    pose proof (Hworkers _ _ H0) as [Hlk ->].
    split; cbn [st_world st_main st_futures st_queue st_workers];
      rewrite ?commands_app, ?announced_app, ?count_app, ?count_cons, ?count_nil;
      cbn [commands announced omap list_omap]; rewrite ?app_nil_r; try done.
    + intros j wk Hj. destruct (decide (i = j)) as [<-|Hne].
      * rewrite list_lookup_insert_eq in Hj by (by eapply lookup_lt_Some).
        injection Hj as <-. cbn. split_and!; [done..|]. lia.
      * rewrite list_lookup_insert_ne in Hj by done.
        apply (worker_sound_mono cfg futs); [done|]. by apply (Hworkers j).
    + cbn in *. unfold default_max_retries in *. change (Z.to_nat 5) with 5 in *. lia.
    + cbn in *. unfold default_max_retries in *. change (Z.to_nat (5 - 5)) with 0 in *.
      lia.
    + cbn. lia.
    + cbn. lia.
    + rewrite Hrun', Hann, Hrun. rewrite <- !app_assoc. do 2 f_equiv.
      cbn. apply (Permutation_app_comm l2 [repo]).
  - (* one more round of the loop *)
    destruct Hled as [Hsub Hcfg Hqueue Hworkers Hcmd Hfin Hup Hlo Hpause Hretry Hann].
    cbn [st_world st_main st_futures st_queue st_workers] in *.
    apply run_git_clone_iter_continue_trace in H1 as (Hm & -> & rc & Hrc & Htr).
    exists (failed_attempt (clone_command repo dir repo_name) repo_name rc).
    split; [done|].
    pose proof (sum_list_with_insert attempts_left ws i _
      (WRunGitClone fut repo dir repo_name (m - 1)) H0) as Hleft.
    pose proof (sum_list_with_insert attempts_made ws i _
      (WRunGitClone fut repo dir repo_name (m - 1)) H0) as Hmade.
    destruct (omap_insert running_repo ws i _ H0) as (l1 & l2 & Hrun & Hrun').
    pose proof (Hworkers _ _ H0) as (Hlk & -> & -> & Hrange & Hran).
    assert ((rc =? 0)%Z = false) as Hrc' by (by apply Z.eqb_neq).
    split; cbn [st_world st_main st_futures st_queue st_workers];
      unfold failed_attempt;
      rewrite ?commands_app, ?announced_app, ?count_app, ?count_cons, ?count_nil;
      cbn [commands announced omap list_omap is_pause is_failed_attempt is_error_line];
      rewrite ?Hrc', ?app_nil_r; try done.
    + intros j wk Hj. destruct (decide (i = j)) as [<-|Hne].
      * rewrite list_lookup_insert_eq in Hj by (by eapply lookup_lt_Some).
        injection Hj as <-. cbn. split_and!; [done..|lia|lia|].
        intros _. rewrite commands_app. apply elem_of_app. right. cbn. by left.
      * rewrite list_lookup_insert_ne in Hj by done.
        apply (worker_sound_mono cfg futs); [done|]. by apply (Hworkers j).
    + intros command [Hin|Hin%list_elem_of_singleton]%elem_of_app; [by auto|].
      exists repo. split; [by eapply list_elem_of_lookup_2|done].
    + intros fut' repo' r Hlk'. apply elem_of_app. left. by eapply Hfin.
    + rewrite length_app. cbn in *.
      unfold default_max_retries in *. change (Z.to_nat 5) with 5 in *. lia.
    + rewrite length_app. cbn in *. unfold default_max_retries in *. lia.
    + cbn. lia.
    + cbn. lia.
    + rewrite Hrun'. rewrite Hrun in Hann. exact Hann.
  - (* the call returns *)
    destruct Hled as [Hsub Hcfg Hqueue Hworkers Hcmd Hfin Hup Hlo Hpause Hretry Hann].
    cbn [st_world st_main st_futures st_queue st_workers] in *.
    apply run_git_clone_iter_return in H1 as (Hm & _ & Htr).
    exists [EvShell (clone_command repo dir repo_name) 0]. split; [done|].
    pose proof (sum_list_with_insert attempts_left ws i _ WIdle H0) as Hleft.
    pose proof (sum_list_with_insert attempts_made ws i _ WIdle H0) as Hmade.
    destruct (omap_insert running_repo ws i _ H0) as (l1 & l2 & Hrun & Hrun').
    pose proof (Hworkers _ _ H0) as (Hlk & -> & -> & Hrange & Hran).
    assert (futs !! fut = Some (repo, Pending)) as Hpending.
    { destruct (inv_owner_pending _ _ Hpool fut) as [repo' Hlk'].
      - unfold owners. cbn. apply elem_of_app. right.
        apply list_elem_of_omap. exists (WRunGitClone fut repo (directory cfg)
          (repo_name_of repo) m). split; [by eapply list_elem_of_lookup_2|done].
      - cbn in Hlk'. rewrite list_lookup_fmap, Hlk' in Hlk. by injection Hlk as ->. }
    pose proof (finished_repos_alter futs fut repo (Ok (repo_name_of repo)) Hpending)
      as Hfinished.
    split; cbn [st_world st_main st_futures st_queue st_workers];
      rewrite ?fmap_fst_alter, ?commands_app, ?announced_app, ?count_app, ?count_cons,
        ?count_nil;
      cbn [commands announced omap list_omap is_pause is_failed_attempt is_error_line
           Z.eqb negb];
      rewrite ?app_nil_r; try done.
    + intros j wk Hj. destruct (decide (i = j)) as [<-|Hne].
      * rewrite list_lookup_insert_eq in Hj by (by eapply lookup_lt_Some).
        by injection Hj as <-.
      * rewrite list_lookup_insert_ne in Hj by done.
        apply (worker_sound_mono cfg futs); [by rewrite fmap_fst_alter|].
        by apply (Hworkers j).
    + intros command [Hin|Hin%list_elem_of_singleton]%elem_of_app; [by auto|].
      exists repo. split; [by eapply list_elem_of_lookup_2|done].
    + intros fut' repo' r Hlk'. apply elem_of_app.
      destruct (decide (fut = fut')) as [<-|Hne].
      * rewrite list_lookup_alter_eq, Hpending in Hlk'. injection Hlk' as <- _.
        right. by left.
      * rewrite list_lookup_alter_ne in Hlk' by done. left. by eapply Hfin.
    + rewrite length_app. cbn in *.
      unfold default_max_retries in *. change (Z.to_nat 5) with 5 in *. lia.
    + rewrite length_app, Hfinished. cbn in *. lia.
    + by rewrite length_alter, Nat.add_0_r.
    + cbn. lia.
    + rewrite Hrun', Hfinished. rewrite Hrun in Hann. rewrite Hann. cbn.
      rewrite !app_assoc. symmetry. apply Permutation_middle.
  - (* the call raises *)
    destruct Hled as [Hsub Hcfg Hqueue Hworkers Hcmd Hfin Hup Hlo Hpause Hretry Hann].
    cbn [st_world st_main st_futures st_queue st_workers] in *.
    apply run_git_clone_iter_raise in H1 as (Hm & -> & ->).
    exists []. split; [by rewrite app_nil_r|]. rewrite app_nil_r.
    pose proof (sum_list_with_insert attempts_left ws i _ WIdle H0) as Hleft.
    pose proof (sum_list_with_insert attempts_made ws i _ WIdle H0) as Hmade.
    destruct (omap_insert running_repo ws i _ H0) as (l1 & l2 & Hrun & Hrun').
    pose proof (Hworkers _ _ H0) as (Hlk & -> & -> & Hrange & Hran).
    assert (futs !! fut = Some (repo, Pending)) as Hpending.
    { destruct (inv_owner_pending _ _ Hpool fut) as [repo' Hlk'].
      - unfold owners. cbn. apply elem_of_app. right.
        apply list_elem_of_omap. exists (WRunGitClone fut repo (directory cfg)
          (repo_name_of repo) m). split; [by eapply list_elem_of_lookup_2|done].
      - cbn in Hlk'. rewrite list_lookup_fmap, Hlk' in Hlk. by injection Hlk as ->. }
    pose proof (finished_repos_alter futs fut repo
      (Raised (RuntimeError (clone_failed_msg (repo_name_of repo) m))) Hpending)
      as Hfinished.
    split; cbn [st_world st_main st_futures st_queue st_workers];
      rewrite ?fmap_fst_alter; try done.
    + intros j wk Hj. destruct (decide (i = j)) as [<-|Hne].
      * rewrite list_lookup_insert_eq in Hj by (by eapply lookup_lt_Some).
        by injection Hj as <-.
      * rewrite list_lookup_insert_ne in Hj by done.
        rewrite <- (app_nil_r evs).
        apply (worker_sound_mono cfg futs); [by rewrite fmap_fst_alter|].
        by apply (Hworkers j).
    + intros fut' repo' r Hlk'.
      destruct (decide (fut = fut')) as [<-|Hne].
      * rewrite list_lookup_alter_eq, Hpending in Hlk'. injection Hlk' as <- _.
        apply Hran. unfold default_max_retries. lia.
      * rewrite list_lookup_alter_ne in Hlk' by done. by eapply Hfin.
    + cbn in *. lia.
    + rewrite Hfinished. cbn in *. unfold default_max_retries in *. lia.
    + by rewrite length_alter.
    + rewrite Hrun', Hfinished. rewrite Hrun in Hann. rewrite Hann. cbn.
      rewrite !app_assoc. symmetry. apply Permutation_middle.
Qed.

Lemma ledger_init repos cfg w : ledger repos cfg (clone_repos_init repos cfg w) [].
Proof.
  split; cbn; try done.
  - intros fut repo dir Hin. by apply elem_of_nil in Hin.
  - intros command Hin. by apply elem_of_nil in Hin.
Qed.

Lemma ledger_reachable repos cfg w s :
  reachable (clone_repos_init repos cfg w) s →
  ∃ evs, trace (st_world s) = trace w ++ evs ∧ ledger repos cfg s evs.
Proof.
  unfold reachable. intros Hs.
  assert (pool_inv cfg s) as Hpool by (by apply (pool_inv_reachable repos cfg w)).
  revert s Hs Hpool. apply (rtc_ind_r (λ s, pool_inv cfg s → _)).
  - intros _. exists []. split; [by rewrite app_nil_r|]. apply ledger_init.
  - intros s1 s2 Hs Hstep IH _.
    assert (pool_inv cfg s1) as Hpool1 by (by apply (pool_inv_reachable repos cfg w)).
    destruct (IH Hpool1) as (evs & Htr & Hled).
    destruct (ledger_step _ _ _ _ _ Hstep Hpool1 Hled) as (chunk & Htr' & Hled').
    exists (evs ++ chunk). split; [|done]. by rewrite Htr', Htr, <- app_assoc.
Qed.

Lemma submitted_futures repos s repo :
  submitted repos s → repo ∈ (st_futures s).*1 → repo ∈ repos.
Proof.
  unfold submitted. destruct (st_main s); try done.
  - intros [_ ->]. by intros ?%elem_of_nil.
  - intros <- Hin. apply elem_of_app. by left.
  - by intros ->.
  - by intros ->.
  - intros ->. by intros ?%elem_of_nil.
Qed.

Lemma submitted_length repos s :
  submitted repos s → length (st_futures s) ≤ length repos.
Proof.
  unfold submitted. destruct (st_main s); try done.
  - intros [_ ->]. cbn. lia.
  - intros <-. rewrite length_app, length_fmap. lia.
  - intros <-. by rewrite length_fmap.
  - intros <-. by rewrite length_fmap.
  - intros ->. cbn. lia.
Qed.

Lemma finished_repos_all futs :
  (∀ fut repo, futs !! fut = Some (repo, Pending) → False) →
  finished_repos futs = futs.*1.
Proof.
  induction futs as [|[repo st] futs IH]; intros Hall; [done|].
  rewrite finished_repos_cons, fmap_cons, IH.
  - destruct st; [|done]. by destruct (Hall 0 repo).
  - intros fut repo' Hlk. by apply (Hall (S fut) repo').
Qed.

Lemma running_repo_idle ws :
  Forall (λ wk, wk = WIdle) ws → omap running_repo ws = [].
Proof. induction 1 as [|wk ws -> _ IH]; cbn; done. Qed.

(** When [clone_repos] has returned every future is finished and no
    thread is in a call. *)
Lemma ledger_done repos cfg s evs :
  pool_inv cfg s → ledger repos cfg s evs → st_main s = MDone →
  (st_futures s).*1 = repos
  ∧ finished_repos (st_futures s) = repos
  ∧ Forall (λ wk, wk = WIdle) (st_workers s).
Proof.
  intros Hpool Hled Hdone.
  pose proof (led_submitted _ _ _ _ Hled) as Hsub. unfold submitted in Hsub.
  rewrite Hdone in Hsub.
  destruct (inv_done _ _ Hpool Hdone) as [Hq Hidle].
  split_and!; [done| |done].
  rewrite finished_repos_all; [done|].
  intros fut repo Hlk.
  destruct (inv_pending _ _ Hpool _ _ Hlk) as [(r & d & Hin)|(i & wk & Hi & Hf)].
  - rewrite Hq in Hin. by apply elem_of_nil in Hin.
  - by pose proof (Forall_lookup_1 _ _ _ _ Hidle Hi) as ->.
Qed.

Lemma ledger_commands repos cfg s evs command :
  ledger repos cfg s evs → command ∈ commands evs →
  ∃ repo, repo ∈ repos
          ∧ command = clone_command repo (directory cfg) (repo_name_of repo).
Proof.
  intros Hled Hin. destruct (led_commands _ _ _ _ Hled _ Hin) as (repo & Hr & ->).
  exists repo. split; [|done].
  eapply submitted_futures; [|done]. by eapply led_submitted.
Qed.


Lemma check_git_installed_run w :
  ∃ rc e',
    shell_run "git --version" (env w) = (rc, e')
    ∧ check_git_installed w
      = (if (rc =? 0)%Z then Ok tt
         else Raised (RuntimeError
                "Unable to find or run git. Please check installation or/and permissions."),
         mkWorld e' (trace w ++ [EvShell "git --version" rc])).
Proof.
  unfold check_git_installed, subprocess_run_check.
  destruct (shell_run _ _) as [rc e']. exists rc, e'. split; [done|].
  by destruct (rc =? 0)%Z.
Qed.

Lemma clone_command_not_version repo dir repo_name :
  clone_command repo dir repo_name ≠ "git --version".
Proof. unfold clone_command. cbn. discriminate. Qed.

Lemma attempts_nil_commands evs : attempts evs = [] → commands evs = [].
Proof.
  intros Hnil. apply length_zero_iff_nil. by rewrite commands_attempts, Hnil.
Qed.

(** The commands of a run of [main] are those of [clone_repos] on what
    the listing returned. *)
Lemma main_commands username cfg token w s :
  reachable (main_init username cfg token w) s →
  ∃ evs,
    trace (st_world s) = trace w ++ evs
    ∧ ((commands evs = [] ∧ st_main s ≠ MDone)
       ∨ ∃ repos w1 evs1 evs2,
           main_listing username token w = (Ok repos, w1)
           ∧ evs = evs1 ++ evs2 ∧ commands evs1 = []
           ∧ pool_inv cfg s ∧ ledger repos cfg s evs2).
Proof.
  intros Hs. apply main_reachable in Hs
    as [->|[(e & w1 & Hlist & ->)|(repos & w1 & Hlist & Hs)]].
  - exists []. split; [by rewrite app_nil_r|by left].
  - apply main_listing_events in Hlist as (evs & Htr & Hat).
    exists evs. split; [done|]. left. split; [by apply attempts_nil_commands|done].
  - pose proof (main_listing_events _ _ _ _ _ Hlist) as (evs1 & Htr1 & Hat1).
    pose proof (pool_inv_reachable _ _ _ _ Hs) as Hpool.
    destruct (ledger_reachable _ _ _ _ Hs) as (evs2 & Htr2 & Hled).
    exists (evs1 ++ evs2). split; [by rewrite Htr2, Htr1, <- app_assoc|].
    right. exists repos, w1, evs1, evs2.
    split_and!; [done..|by apply attempts_nil_commands|done|done].
Qed.

End Ledger.



(** The main thread pauses for one second after each submission, and a
    thread pauses for five seconds after each failed attempt, having
    printed the error, and at no other time.  So at any moment of a run
    there were no more pauses of one second than repositories, no more
    error lines than failed attempts and no more pauses of five seconds
    than error lines; and when [clone_repos] has returned there was
    exactly one pause of one second for each repository of the list, and
    one error line and one pause of five seconds for each failed
    attempt. *)
Theorem clone_repos_pauses {Env : Type} `{Collaborators Env}
    (repos : list string) (cfg : Config) (w : World Env)
    (s : state Env) :
  reachable (clone_repos_init repos cfg w) s →
  ∃ evs,
    trace (st_world s) = trace w ++ evs
    ∧ count (is_pause 1) evs ≤ length repos
    ∧ count (is_pause 5) evs ≤ count is_error_line evs
    ∧ count is_error_line evs ≤ count is_failed_attempt evs
    ∧ (st_main s = MDone →
       count (is_pause 1) evs = length repos
       ∧ count is_error_line evs = count is_failed_attempt evs
       ∧ count (is_pause 5) evs = count is_failed_attempt evs).
Proof.
  intros Hs. pose proof (pool_inv_reachable _ _ _ _ Hs) as Hpool.
  destruct (ledger_reachable _ _ _ _ Hs) as (evs & Htr & Hled).
  pose proof (led_pauses _ _ _ _ Hled) as Hp.
  destruct (led_retries _ _ _ _ Hled) as [Hr1 Hr2].
  exists evs. split_and!; [done| |lia|lia|].
  - rewrite Hp. eapply submitted_length. by eapply led_submitted.
  - intros Hdone. destruct (ledger_done _ _ _ _ Hpool Hled Hdone) as (Hfuts & _).
    split_and!; [|done..]. by rewrite Hp, <- Hfuts, length_fmap.
Qed.

(** When [clone_repos] has returned, each repository of the list has
    been announced by [clone_repo] once, and nothing else has. *)
Theorem clone_repos_announces_each_once {Env : Type} `{Collaborators Env}
    (repos : list string) (cfg : Config)
    (w : World Env) (s : state Env) :
  reachable (clone_repos_init repos cfg w) s →
  st_main s = MDone →
  ∃ evs, trace (st_world s) = trace w ++ evs ∧ announced evs ≡ₚ repos.
Proof.
  intros Hs Hdone. pose proof (pool_inv_reachable _ _ _ _ Hs) as Hpool.
  destruct (ledger_reachable _ _ _ _ Hs) as (evs & Htr & Hled).
  destruct (ledger_done _ _ _ _ Hpool Hled Hdone) as (_ & Hfin & Hidle).
  exists evs. split; [done|].
  rewrite (led_announced _ _ _ _ Hled), Hfin, running_repo_idle by done.
  by rewrite app_nil_r.
Qed.


(** [check_git_installed] runs [git --version] once and raises
    [RuntimeError] when its exit status is not zero; no run of [main]
    runs that command: the function is never called. *)
Theorem check_git_installed_unused {Env : Type} `{Collaborators Env}
    (username : string) (cfg : Config)
    (token : option string) (w : World Env) (s : state Env) :
  reachable (main_init username cfg token w) s →
  (∃ rc e',
     shell_run "git --version" (env w) = (rc, e')
     ∧ check_git_installed w
       = (if (rc =? 0)%Z then Ok tt
          else Raised (RuntimeError
                 "Unable to find or run git. Please check installation or/and permissions."),
          mkWorld e' (trace w ++ [EvShell "git --version" rc])))
  ∧ ∃ evs, trace (st_world s) = trace w ++ evs ∧ "git --version" ∉ commands evs.
Proof.
  intros Hs. split; [apply check_git_installed_run|].
  destruct (main_commands _ _ _ _ _ Hs)
    as (evs & Htr & [[Hnil Hnd]|(repos & w1 & evs1 & evs2 & Hlist & -> & Hnil1
                               & Hpool & Hled)]).
  - exists evs. split; [done|]. rewrite Hnil. by intros ?%elem_of_nil.
  - exists (evs1 ++ evs2). split; [done|]. rewrite commands_app, Hnil1. cbn [app].
    intros Hin. destruct (ledger_commands _ _ _ _ _ Hled Hin) as (repo & _ & Heq).
    by destruct (clone_command_not_version repo (directory cfg) (repo_name_of repo)).
Qed.

(** The runs the properties above are evaluated on. *)
Lemma main_acme_run :
  reachable (H := Sim.collaborators Sim.acme)
    (main_init "acme" Sim.out_2_threads None (Sim.world0 [])) Sim.acme_cloned.
Proof.
  eapply rtc_l; [by eapply step_main_listed|].
  eapply rtc_l; [by apply step_enter|].
  eapply rtc_l; [eapply step_submit; by apply adjust_start|].
  eapply rtc_l; [apply step_submitted|].
  eapply rtc_l; [by eapply (step_take _ _ _ _ _ _ _ _ _ 0)|].
  eapply rtc_l; [by eapply (step_clone_repo _ _ _ _ _ _ 0)|].
  eapply rtc_l; [by eapply (step_iter_return _ _ _ _ _ _ 0)|].
  eapply rtc_l; [by eapply (step_yield_ok _ [] 0 [])|].
  eapply rtc_l; [apply step_exit; by repeat constructor|].
  apply rtc_refl.
Qed.



Lemma clone_repos_pauses_witness :
  ∃ evs,
    trace (st_world Sim.all_cloned) = [] ++ evs
    ∧ count (is_pause 1) evs ≤ 3
    ∧ count (is_pause 5) evs ≤ count is_error_line evs
    ∧ count is_error_line evs ≤ count is_failed_attempt evs
    ∧ (st_main Sim.all_cloned = MDone →
       count (is_pause 1) evs = 3
       ∧ count is_error_line evs = count is_failed_attempt evs
       ∧ count (is_pause 5) evs = count is_failed_attempt evs).
Proof.
  exact (clone_repos_pauses (H := Sim.collaborators Sim.git_works)
           [Sim.R1; Sim.R2; Sim.R3] Sim.out_2_threads (Sim.world0 []) Sim.all_cloned
           spec_scenario_run).
Defined.

Lemma clone_repos_announces_each_once_witness :
  ∃ evs,
    trace (st_world Sim.all_cloned) = [] ++ evs
    ∧ announced evs ≡ₚ [Sim.R1; Sim.R2; Sim.R3].
Proof.
  exact (clone_repos_announces_each_once (H := Sim.collaborators Sim.git_works)
           [Sim.R1; Sim.R2; Sim.R3] Sim.out_2_threads (Sim.world0 []) Sim.all_cloned
           spec_scenario_run eq_refl).
Defined.


Lemma check_git_installed_unused_witness :
  (∃ rc e',
     shell_run (Collaborators := Sim.collaborators Sim.acme) "git --version" [] = (rc, e')
     ∧ check_git_installed (H := Sim.collaborators Sim.acme) (Sim.world0 [])
       = (if (rc =? 0)%Z then Ok tt
          else Raised (RuntimeError
                 "Unable to find or run git. Please check installation or/and permissions."),
          mkWorld e' ([] ++ [EvShell "git --version" rc])))
  ∧ ∃ evs, trace (st_world Sim.acme_cloned) = [] ++ evs
           ∧ "git --version" ∉ commands evs.
Proof.
  exact (check_git_installed_unused (H := Sim.collaborators Sim.acme) "acme"
           Sim.out_2_threads None (Sim.world0 []) Sim.acme_cloned main_acme_run).
Defined.

(** ** What the futures hold *)

Section Tally.

Context {Env : Type} `{Collaborators Env}.

Implicit Types (w : World Env) (s : state Env) (ws : list worker) (wk : worker).
Implicit Types (evs : list event) (futs : list (string * future_state)).












End Tally.



(** ** The threads and the calls they run *)

Section Threads.

Context {Env : Type} `{Collaborators Env}.

Implicit Types (w : World Env) (s : state Env) (ws : list worker) (wk : worker).

Lemma thread_runs_run_git_clone fuel repo dir repo_name m w r w' pc futs q ws mx i fut :
  run_git_clone fuel repo dir repo_name m w = Some (r, w') →
  ws !! i = Some (WRunGitClone fut repo dir repo_name m) →
  rtc step (mkState w pc futs q ws mx)
    (mkState w' pc (alter (set_result (named repo_name r)) fut futs) q
       (<[i := WIdle]> ws) mx).
Proof.
  revert m w ws. induction fuel as [|fuel IH]; intros m w ws; [done|].
  cbn [run_git_clone].
  destruct (run_git_clone_iter repo dir repo_name m w) as [[m'| |e] w1] eqn:Hiter.
  - intros Hrun Hi.
    replace (<[i := WIdle]> ws)
      with (<[i := WIdle]> (<[i := WRunGitClone fut repo dir repo_name m']> ws))
      by apply list_insert_insert_eq.
    eapply rtc_l; [by eapply step_iter_continue|].
    apply (IH m'); [done|]. apply list_lookup_insert_eq. by eapply lookup_lt_Some.
  - intros [= <- <-] Hi. apply rtc_once. by eapply step_iter_return.
  - intros [= <- <-] Hi. apply rtc_once. by eapply step_iter_raise.
Qed.

End Threads.

(** A thread that has taken the work item of [clone_repo(repo, dir)]
    does what the call does: whenever the call ends, the thread can run
    from the start of the call to its end without any other thread
    moving, leaving the world as the call leaves it, the result of the
    call in the future, and itself idle. *)
Theorem thread_runs_clone_repo {Env : Type} `{Collaborators Env}
    (fuel : nat) (repo dir : string) (w w' : World Env)
    (r : result string) (pc : main_pc) (futs : list (string * future_state))
    (q : list (nat * string * string)) (ws : list worker) (mx : Z) (i fut : nat) :
  clone_repo fuel repo dir w = Some (r, w') →
  ws !! i = Some (WCloneRepo fut repo dir) →
  rtc step (mkState w pc futs q ws mx)
    (mkState w' pc (alter (set_result r) fut futs) q (<[i := WIdle]> ws) mx).
Proof.
  unfold clone_repo. intros Hrun Hi.
  destruct (run_git_clone fuel repo dir (repo_name_of repo) default_max_retries
              (print (OutCloning repo) w)) as [[r0 w2]|] eqn:Hgit; [|done].
  replace (<[i := WIdle]> ws)
    with (<[i := WIdle]>
            (<[i := WRunGitClone fut repo dir (repo_name_of repo) default_max_retries]> ws))
    by apply list_insert_insert_eq.
  eapply rtc_l; [by eapply step_clone_repo|].
  assert (r = named (repo_name_of repo) r0 ∧ w' = w2) as [-> ->].
  { by destruct r0 as [[]|e]; simplify_eq. }
  eapply (thread_runs_run_git_clone _ _ _ _ default_max_retries); [done|].
  apply list_lookup_insert_eq. by eapply lookup_lt_Some.
Qed.

Lemma thread_runs_clone_repo_witness :
  rtc (step (H := Sim.collaborators Sim.git_works))
    (mkState (mkWorld ["out"] []) (MAwait [0]) [(Sim.R1, Pending)] []
       [WCloneRepo 0 Sim.R1 "out"] 1)
    (mkState
       (mkWorld ["out"]
          [EvPrint (OutCloning Sim.R1);
           EvShell "git clone https://github.com/acme/R1.git out/R1/ > /dev/null 2>&1" 0])
       (MAwait [0])
       (alter (set_result (Ok "R1")) 0 [(Sim.R1, Pending)]) []
       (<[0 := WIdle]> [WCloneRepo 0 Sim.R1 "out"]) 1).
Proof.
  exact (thread_runs_clone_repo (H := Sim.collaborators Sim.git_works) 6 Sim.R1 "out"
           (mkWorld ["out"] []) _ _ (MAwait [0]) [(Sim.R1, Pending)] []
           [WCloneRepo 0 Sim.R1 "out"] 1 0 0 eq_refl eq_refl).
Defined.

(** ** The file system *)

Section Files.

Context {Env : Type} `{Collaborators Env}.

Implicit Types (w : World Env) (s : state Env) (evs : list event).

Lemma fs_calls_app tr1 tr2 : fs_calls (tr1 ++ tr2) = fs_calls tr1 ++ fs_calls tr2.
Proof. apply filter_app. Qed.

Lemma fs_inv_later cfg s s' evs chunk :
  entered (st_main s) = true → entered (st_main s') = true →
  fs_calls chunk = [] →
  fs_inv cfg s evs → fs_inv cfg s' (evs ++ chunk).
Proof.
  unfold fs_inv. intros Hs Hs' Hchunk Hinv.
  assert (∃ rest,
            evs = [EvPathExists (directory cfg) false;
                   EvMakedirs (directory cfg) (Ok tt)] ++ rest
            ∧ fs_calls rest = []) as (rest & -> & Hrest)
    by (by destruct (st_main s)).
  assert (∃ rest',
            ([EvPathExists (directory cfg) false;
              EvMakedirs (directory cfg) (Ok tt)] ++ rest) ++ chunk
            = [EvPathExists (directory cfg) false;
               EvMakedirs (directory cfg) (Ok tt)] ++ rest'
            ∧ fs_calls rest' = []).
  { exists (rest ++ chunk). split; [by rewrite <- app_assoc|].
    by rewrite fs_calls_app, Hrest, Hchunk. }
  by destruct (st_main s').
Qed.

Lemma run_git_clone_iter_fs repo dir repo_name m w c w' chunk :
  run_git_clone_iter repo dir repo_name m w = (c, w') →
  trace w' = trace w ++ chunk → fs_calls chunk = [].
Proof.
  intros Hiter Htr.
  destruct (run_git_clone_iter_cases repo dir repo_name m w)
    as [[_ Heq]|[[_ (w1 & Heq & Htr1)]|[_ (rc & w1 & _ & Heq & Htr1)]]];
    rewrite Heq in Hiter; simplify_eq.
  - rewrite <- (app_nil_r (trace w')) in Htr at 1. by apply app_inv_head in Htr as <-.
  - rewrite Htr1 in Htr. by apply app_inv_head in Htr as <-.
  - rewrite Htr1 in Htr. by apply app_inv_head in Htr as <-.
Qed.

Lemma fs_inv_step cfg s s' evs chunk :
  step s s' → pool_inv cfg s → fs_inv cfg s evs →
  trace (st_world s') = trace (st_world s) ++ chunk →
  fs_inv cfg s' (evs ++ chunk).
Proof.
  intros Hstep Hpool Hinv Htr.
  destruct Hstep; cbn [st_world st_main] in *;
    try (by destruct (inv_not_main _ _ Hpool username cfg0 token)).
  - (* enter, raised *)
    pose proof (inv_cfg _ _ Hpool _ _ eq_refl) as ->.
    unfold fs_inv in *. cbn in *. subst evs. cbn [app].
    unfold clone_repos_enter, os_path_exists, os_makedirs, log in H0. cbn in H0.
    destruct (path_exists _ _).
    { injection H0 as <- <-. cbn in Htr. apply app_inv_head in Htr as <-. by left. }
    destruct (makedirs _ _) as [r e1]. right. exists r.
    destruct r as [[]|e']; cbn in H0.
    + destruct (_ <=? _)%Z; simplify_eq. cbn in Htr. rewrite <- app_assoc in Htr.
      by apply app_inv_head in Htr as <-.
    + simplify_eq. cbn in Htr. rewrite <- app_assoc in Htr.
      by apply app_inv_head in Htr as <-.
  - (* enter *)
    pose proof (inv_cfg _ _ Hpool _ _ eq_refl) as ->.
    unfold fs_inv in *. cbn in *. subst evs. cbn [app].
    apply clone_repos_enter_ok in H0 as (_ & _ & e' & _ & ->). cbn in Htr.
    apply app_inv_head in Htr as <-. by exists [].
  - apply app_inv_head in Htr as <-. eapply fs_inv_later; [| | |exact Hinv]; done.
  - rewrite <- (app_nil_r (trace w)) in Htr at 1. apply app_inv_head in Htr as <-.
    eapply fs_inv_later; [| | |exact Hinv]; done.
  - rewrite <- (app_nil_r (trace w)) in Htr at 1. apply app_inv_head in Htr as <-.
    eapply fs_inv_later; [| | |exact Hinv]; done.
  - apply app_inv_head in Htr as <-. eapply fs_inv_later; [| | |exact Hinv]; done.
  - rewrite <- (app_nil_r (trace w)) in Htr at 1. apply app_inv_head in Htr as <-.
    eapply fs_inv_later; [| | |exact Hinv]; done.
  - (* the threads *)
    assert (entered pc = true) as Hpc.
    { destruct (entered pc) eqn:Hent; [done|].
      destruct (inv_fresh _ _ Hpool Hent) as (_ & Hq & _). by cbn in Hq. }
    rewrite <- (app_nil_r (trace w)) in Htr at 1. apply app_inv_head in Htr as <-.
    eapply fs_inv_later; [| | |exact Hinv]; done.
  - assert (entered pc = true) as Hpc.
    { destruct (entered pc) eqn:Hent; [done|].
      destruct (inv_fresh _ _ Hpool Hent) as (_ & _ & Hws & _). cbn in Hws.
      by rewrite Hws in H0. }
    apply app_inv_head in Htr as <-. eapply fs_inv_later; [| | |exact Hinv]; done.
  - assert (entered pc = true) as Hpc.
    { destruct (entered pc) eqn:Hent; [done|].
      destruct (inv_fresh _ _ Hpool Hent) as (_ & _ & Hws & _). cbn in Hws.
      by rewrite Hws in H0. }
    eapply fs_inv_later; [| | |exact Hinv]; [done..|]. by eapply run_git_clone_iter_fs.
  - assert (entered pc = true) as Hpc.
    { destruct (entered pc) eqn:Hent; [done|].
      destruct (inv_fresh _ _ Hpool Hent) as (_ & _ & Hws & _). cbn in Hws.
      by rewrite Hws in H0. }
    eapply fs_inv_later; [| | |exact Hinv]; [done..|]. by eapply run_git_clone_iter_fs.
  - assert (entered pc = true) as Hpc.
    { destruct (entered pc) eqn:Hent; [done|].
      destruct (inv_fresh _ _ Hpool Hent) as (_ & _ & Hws & _). cbn in Hws.
      by rewrite Hws in H0. }
    eapply fs_inv_later; [| | |exact Hinv]; [done..|]. by eapply run_git_clone_iter_fs.
Qed.

Lemma fs_inv_reachable repos cfg w s :
  reachable (clone_repos_init repos cfg w) s →
  ∃ evs, trace (st_world s) = trace w ++ evs ∧ fs_inv cfg s evs.
Proof.
  unfold reachable. intros Hs.
  assert (pool_inv cfg s) as Hpool by (by apply (pool_inv_reachable repos cfg w)).
  revert s Hs Hpool. apply (rtc_ind_r (λ s, pool_inv cfg s → _)).
  - intros _. exists []. split; [by rewrite app_nil_r|done].
  - intros s1 s2 Hs Hstep IH _.
    assert (pool_inv cfg s1) as Hpool1 by (by apply (pool_inv_reachable repos cfg w)).
    destruct (IH Hpool1) as (evs & Htr & Hinv).
    destruct (step_events _ _ Hstep (inv_not_main _ _ Hpool1)) as (chunk & Htr' & _).
    exists (evs ++ chunk). split; [by rewrite Htr', Htr, <- app_assoc|].
    by eapply fs_inv_step.
Qed.

End Files.

(** The file system in a run of [clone_repos]: the script tests the
    destination, creates it when it was not there, and makes no other
    call to the file system, neither before nor after; what happens
    to the files from then on is the doing of [git]. *)
Theorem clone_repos_file_system {Env : Type} `{Collaborators Env}
    (repos : list string) (cfg : Config) (w : World Env)
    (s : state Env) :
  reachable (clone_repos_init repos cfg w) s →
  ∃ evs,
    trace (st_world s) = trace w ++ evs
    ∧ (entered (st_main s) = true →
       ∃ rest,
         evs = [EvPathExists (directory cfg) false; EvMakedirs (directory cfg) (Ok tt)]
               ++ rest
         ∧ fs_calls rest = [])
    ∧ (entered (st_main s) = false →
       evs = [] ∨ evs = [EvPathExists (directory cfg) true]
       ∨ ∃ r, evs = [EvPathExists (directory cfg) false; EvMakedirs (directory cfg) r]).
Proof.
  intros Hs. pose proof (pool_inv_reachable _ _ _ _ Hs) as Hpool.
  destruct (fs_inv_reachable _ _ _ _ Hs) as (evs & Htr & Hinv).
  exists evs. split; [done|]. unfold fs_inv in Hinv.
  destruct (st_main s); cbn; split; try done; intros _; auto.
Qed.

Lemma clone_repos_file_system_witness :
  ∃ evs,
    trace (st_world Sim.all_cloned) = [] ++ evs
    ∧ (entered (st_main Sim.all_cloned) = true →
       ∃ rest,
         evs = [EvPathExists "out" false; EvMakedirs "out" (Ok tt)] ++ rest
         ∧ fs_calls rest = [])
    ∧ (entered (st_main Sim.all_cloned) = false →
       evs = [] ∨ evs = [EvPathExists "out" true]
       ∨ ∃ r, evs = [EvPathExists "out" false; EvMakedirs "out" r]).
Proof.
  exact (clone_repos_file_system (H := Sim.collaborators Sim.git_works)
           [Sim.R1; Sim.R2; Sim.R3] Sim.out_2_threads (Sim.world0 []) Sim.all_cloned
           spec_scenario_run).
Defined.
